(** * The calculator's expression-state engine (script.js), embedded in Rocq

    The repository ships two variants of the script: the scientific one
    (12 decimals, caret support, scientific panel) and the basic one
    (10 decimals).  Both keep one expression string, edit it token by
    token and hand it to the host's evaluator on demand.

    Layout of this development:
    - [JSString]: JavaScript strings as sequences of UTF-16 code units, and
      the trailing-number pattern of the script, matched the way the
      host's backtracking matcher does;
    - [JSNumber]: the Number type (IEEE 754 binary64, exact arithmetic
      followed by round-to-nearest-even) with [parseFloat],
      [Number.prototype.toString], [toFixed] and [Number.isInteger], after
      ECMA-262;
    - [Page], [Scientific] and [Basic]: the script, function by function
      ([Page] holds what the two variants share);
    - [TrailingFacts] and the section [Buffer]: the pattern and the editing
      operations (append, negate, percent);
    - [NumberFacts], [RoundingFacts], [DecimalFacts], [ShortestFacts]: the
      number model (integers are exact, rounding is idempotent, what
      [toString] writes [parseFloat] reads back);
    - the sections [Functions], [Evaluator] and [Formatter]: the function
      applicator, [calculate] and [formatResult];
    - [Handlers] and [Theme]: the listeners of the page (clicks, keys,
      the angle toggle, the theme selector) and the page as a machine
      driven by events;
    - the sections [Editing], [Validation], [Machine], [Keyboard],
      [ThemeFacts], [Applicator], [Reuse], [KeydownFacts], [Reset] and
      [TrailingToken]:
      what the editing keys, the validation, the listeners and the
      scientific functions keep or never do. *)

From Stdlib Require Import ZArith NArith QArith Qreduction List Bool Lia String Ascii.
Import ListNotations.

(* ================================================================== *)
(** ** JavaScript strings *)
(* ================================================================== *)

Module JSString.

(** A string value is a finite sequence of 16-bit code units;
    [split], [slice], [startsWith], [+] and the (non-unicode) regular
    expressions of the script all work on code units. *)
Definition codeUnit := N.
Definition jsstring := list codeUnit.

Definition ch (a : ascii) : codeUnit := N_of_ascii a.

(** ASCII literal to string value. *)
Definition str (s : string) : jsstring := List.map N_of_ascii (list_ascii_of_string s).

Fixpoint streq (a b : jsstring) : bool :=
  match a, b with
  | [], [] => true
  | x :: a', y :: b' => (x =? y)%N && streq a' b'
  | _, _ => false
  end.

(** [s.startsWith(p)] *)
Fixpoint startsWith (p s : jsstring) : bool :=
  match p, s with
  | [], _ => true
  | x :: p', y :: s' => (x =? y)%N && startsWith p' s'
  | _ :: _, [] => false
  end.

(** [s.slice(0, -1)] *)
Definition sliceDropLast (s : jsstring) : jsstring := removelast s.

(** [s.slice(1)] *)
Definition slice1 (s : jsstring) : jsstring := tl s.

(** Truthiness of a string: only the empty string is falsy. *)
Definition truthy (s : jsstring) : bool :=
  match s with [] => false | _ :: _ => true end.

(** Character classes of the script's regular expressions. *)

(** [\d] and [[0-9]] *)
Definition isDigit (c : codeUnit) : bool := ((48 <=? c) && (c <=? 57))%N.

(** What [.] refuses: the line terminators LF, CR, LS and PS. *)
Definition isLineTerminator (c : codeUnit) : bool :=
  ((c =? 10) || (c =? 13) || (c =? 8232) || (c =? 8233))%N.

(** [\s]: white space and line terminators. *)
Definition isWhiteSpace (c : codeUnit) : bool :=
  ((c =? 9) || (c =? 10) || (c =? 11) || (c =? 12) || (c =? 13) || (c =? 32)
   || (c =? 160) || (c =? 5760) || ((8192 <=? c) && (c <=? 8202))
   || (c =? 8232) || (c =? 8233) || (c =? 8239) || (c =? 8287)
   || (c =? 12288) || (c =? 65279))%N.

(** *** The trailing-number pattern

    The pattern used by negateLastNumber, percentLastNumber and
    applySciFunction has two groups and an end anchor: group 1 is a lazy
    run of any characters, group 2 is an optional minus, digits, an optional
    dot and digits.  It is not anchored on the left, so the matcher tries
    the start positions 0, 1, 2, ... in turn.  At one start position the
    lazy group first takes nothing and grows one character at a time (never
    across a line terminator); after each size the second group is tried,
    followed by the end anchor. *)

Fixpoint skipDigits (s : jsstring) : jsstring :=
  match s with
  | c :: r => if isDigit c then skipDigits r else s
  | [] => []
  end.

Definition skipOptional (x : codeUnit) (s : jsstring) : jsstring :=
  match s with
  | c :: r => if (c =? x)%N then r else s
  | [] => []
  end.

(** Group 2 and the end anchor tried at the head of [s].  Every piece is greedy; the end
    anchor succeeds exactly when the greedy pieces consume all of [s]
    (giving characters back cannot help, see [numberAtEnd_language]). *)
Definition numberAtEnd (s : jsstring) : bool :=
  match skipDigits (skipOptional (ch ".") (skipDigits (skipOptional (ch "-") s))) with
  | [] => true
  | _ :: _ => false
  end.

(** One start position: the lazy first group grows until the rest of the
    string is a number; it fails when it would have to take a line
    terminator. Returns the two captures. *)
Fixpoint lazyPrefix (s : jsstring) : option (jsstring * jsstring) :=
  if numberAtEnd s then Some ([], s)
  else match s with
       | [] => None
       | c :: r =>
           if isLineTerminator c then None
           else match lazyPrefix r with
                | Some (p, l) => Some (c :: p, l)
                | None => None
                end
       end.

(** [expr.match] on the trailing-number pattern: captures 1 and 2 of the
    leftmost match, [None] for a null result. *)
Fixpoint matchTrailing (s : jsstring) : option (jsstring * jsstring) :=
  match lazyPrefix s with
  | Some m => Some m
  | None => match s with
            | [] => None
            | _ :: r => matchTrailing r
            end
  end.

(** The text after the last line terminator of [s]. *)
Fixpoint lastLine (s : jsstring) : jsstring :=
  match s with
  | [] => []
  | c :: r => if existsb isLineTerminator s then lastLine r else s
  end.

End JSString.

(* ================================================================== *)
(** ** JavaScript numbers *)
(* ================================================================== *)

Module JSNumber.
Import JSString.
Local Open Scope Z_scope.

(** The Number type: IEEE 754 binary64.  A finite value is
    [(-1)^neg * m * 2^e] with [0 <= m < 2^53] and [-1074 <= e <= 971],
    the mantissa [m] having 53 bits unless [e] is the least exponent;
    both zeros are [Fin _ 0 (-1074)]. *)
Inductive number : Type :=
| NaN
| Inf (neg : bool)
| Fin (neg : bool) (m e : Z).

Definition emin : Z := -1074.
Definition emax : Z := 971.

Definition canonical (m e : Z) : bool :=
  (0 <=? m) && (m <? 2 ^ 53) && (emin <=? e) && (e <=? emax)
  && ((2 ^ 52 <=? m) || (e =? emin)).

(** The values a host can produce. *)
Definition isDouble (x : number) : bool :=
  match x with
  | Fin _ m e => canonical m e
  | _ => true
  end.

(** Same value, bit for bit. *)
Definition sameValue (x y : number) : bool :=
  match x, y with
  | NaN, NaN => true
  | Inf a, Inf b => Bool.eqb a b
  | Fin a m e, Fin b m' e' => Bool.eqb a b && (m =? m') && (e =? e')
  | _, _ => false
  end.

(** The magnitude [m * 2^e] as an exact rational. *)
Definition mag (m e : Z) : Q := (m * 2 ^ Z.max 0 e) # Z.to_pos (2 ^ Z.max 0 (- e)).

Definition toQ (neg : bool) (m e : Z) : Q := if neg then (- mag m e)%Q else mag m e.

(** [floor (log2 (a / b))] for positive [a] and [b]. *)
Definition ilog2 (a b : Z) : Z :=
  let l := Z.log2 a - Z.log2 b in
  if a * 2 ^ Z.max 0 (- l) <? b * 2 ^ Z.max 0 l then l - 1 else l.

(** Round the non-negative rational [a / b] to the nearest binary64, ties to
    the even mantissa; overflow gives an infinity, underflow a zero. *)
Definition roundPos (neg : bool) (a b : Z) : number :=
  if a =? 0 then Fin neg 0 emin
  else
    let e := Z.max (ilog2 a b - 52) emin in
    let n := a * 2 ^ Z.max 0 (- e) in
    let d := b * 2 ^ Z.max 0 e in
    let m := n / d in
    let r := n mod d in
    let m' := if (d <? 2 * r) || ((d =? 2 * r) && Z.odd m) then m + 1 else m in
    if m' =? 2 ^ 53 then (if emax <? e + 1 then Inf neg else Fin neg (2 ^ 52) (e + 1))
    else if emax <? e then Inf neg
    else Fin neg m' e.

Definition roundQ (neg : bool) (q : Q) : number :=
  let q' := Qred q in roundPos neg (Qnum q') (Zpos (Qden q')).

(** Signed rational to Number (an exact zero is [+0]). *)
Definition ofQ (q : Q) : number :=
  if Qle_bool 0 q then roundQ false q else roundQ true (- q)%Q.

Definition ofZ (z : Z) : number := ofQ (inject_Z z).

(** Arithmetic: the exact result, rounded. *)

Definition add (x y : number) : number :=
  match x, y with
  | NaN, _ | _, NaN => NaN
  | Inf a, Inf b => if Bool.eqb a b then Inf a else NaN
  | Inf a, Fin _ _ _ => Inf a
  | Fin _ _ _, Inf b => Inf b
  | Fin a m e, Fin b m' e' =>
      if (m =? 0) && (m' =? 0) then Fin (a && b) 0 emin
      else ofQ (toQ a m e + toQ b m' e')%Q
  end.

Definition mul (x y : number) : number :=
  match x, y with
  | NaN, _ | _, NaN => NaN
  | Inf a, Inf b => Inf (xorb a b)
  | Inf a, Fin b m _ => if m =? 0 then NaN else Inf (xorb a b)
  | Fin a m _, Inf b => if m =? 0 then NaN else Inf (xorb a b)
  | Fin a m e, Fin b m' e' => roundQ (xorb a b) (mag m e * mag m' e')%Q
  end.

Definition div (x y : number) : number :=
  match x, y with
  | NaN, _ | _, NaN => NaN
  | Inf _, Inf _ => NaN
  | Inf a, Fin b _ _ => Inf (xorb a b)
  | Fin a _ _, Inf b => Fin (xorb a b) 0 emin
  | Fin a m e, Fin b m' e' =>
      if m' =? 0 then (if m =? 0 then NaN else Inf (xorb a b))
      else roundQ (xorb a b) (mag m e / mag m' e')%Q
  end.

Definition abs (x : number) : number :=
  match x with
  | NaN => NaN
  | Inf _ => Inf false
  | Fin _ m e => Fin false m e
  end.

(** Comparisons: [<], [===] and [<=]. *)

Definition ltb (x y : number) : bool :=
  match x, y with
  | NaN, _ | _, NaN => false
  | Inf a, Inf b => a && negb b
  | Inf a, Fin _ _ _ => a
  | Fin _ _ _, Inf b => negb b
  | Fin a m e, Fin b m' e' => negb (Qle_bool (toQ b m' e') (toQ a m e))
  end.

Definition strictEq (x y : number) : bool :=
  match x, y with
  | Inf a, Inf b => Bool.eqb a b
  | Fin a m e, Fin b m' e' => Qeq_bool (toQ a m e) (toQ b m' e')
  | _, _ => false
  end.

Definition leb (x y : number) : bool := ltb x y || strictEq x y.

(** [isNaN] and [Number.isNaN] on a Number. *)
Definition isNaN (x : number) : bool :=
  match x with NaN => true | _ => false end.

(** [Number.isInteger] *)
Definition isInteger (x : number) : bool :=
  match x with
  | Fin _ m e => (0 <=? e) || (m mod 2 ^ (- e) =? 0)
  | _ => false
  end.

(** [Math.PI] and [Math.E]: the doubles nearest to pi and e. *)
Definition Math_PI : number := Fin false 7074237752028440 (-51).
Definition Math_E : number := Fin false 6121026514868073 (-51).

(** *** Decimal digits *)

Fixpoint digitsAux (fuel : nat) (z : Z) (acc : jsstring) : jsstring :=
  match fuel with
  | O => acc
  | S f =>
      let acc' := Z.to_N (48 + z mod 10) :: acc in
      if z <? 10 then acc' else digitsAux f (z / 10) acc'
  end.

(** The decimal digits of a natural number, most significant first. *)
Definition decimal (z : Z) : jsstring := digitsAux (S (Z.to_nat (Z.log2 z))) z [].

Definition digitVal (c : codeUnit) : Z := Z.of_N c - 48.

Definition valueOf (ds : jsstring) : Z :=
  fold_left (fun acc c => 10 * acc + digitVal c) ds 0.

(** [v * 10^p] as an exact rational. *)
Definition scale10 (v p : Z) : Q :=
  if 0 <=? p then inject_Z (v * 10 ^ p) else v # Z.to_pos (10 ^ (- p)).

Definition zeros (n : Z) : jsstring := repeat (ch "0") (Z.to_nat n).

(** *** parseFloat

    Leading white space is dropped, then the longest prefix that is a
    StrDecimalLiteral is read: sign, then Infinity, or digits with an
    optional fraction and an optional exponent part.  The mathematical
    value is rounded to the nearest double. *)

Fixpoint trimStart (s : jsstring) : jsstring :=
  match s with
  | c :: r => if isWhiteSpace c then trimStart r else s
  | [] => []
  end.

Fixpoint takeDigits (s : jsstring) : jsstring * jsstring :=
  match s with
  | c :: r => if isDigit c then (let (d, t) := takeDigits r in (c :: d, t)) else ([], s)
  | [] => ([], [])
  end.

Definition signedInteger (s : jsstring) : option Z :=
  let '(neg, r) :=
    match s with
    | c :: r => if (c =? ch "+")%N then (false, r)
                else if (c =? ch "-")%N then (true, r) else (false, s)
    | [] => (false, s)
    end in
  match fst (takeDigits r) with
  | [] => None
  | ds => Some (if neg then - valueOf ds else valueOf ds)
  end.

(** The value of an exponent part at the head of [s], 0 when there is none. *)
Definition exponentPart (s : jsstring) : Z :=
  match s with
  | c :: r =>
      if ((c =? ch "e") || (c =? ch "E"))%N
      then match signedInteger r with Some z => z | None => 0 end
      else 0
  | [] => 0
  end.

Definition strUnsignedDecimalLiteral (neg : bool) (s : jsstring) : number :=
  if startsWith (str "Infinity") s then Inf neg
  else
    let (ip, r1) := takeDigits s in
    match r1 with
    | c :: r2 =>
        if (c =? ch ".")%N then
          let (fp, r3) := takeDigits r2 in
          match ip ++ fp with
          | [] => NaN
          | ds => roundQ neg (scale10 (valueOf ds) (exponentPart r3 - Z.of_nat (List.length fp)))
          end
        else
          match ip with
          | [] => NaN
          | _ => roundQ neg (scale10 (valueOf ip) (exponentPart r1))
          end
    | [] =>
        match ip with
        | [] => NaN
        | _ => roundQ neg (scale10 (valueOf ip) 0)
        end
    end.

Definition parseFloat (s : jsstring) : number :=
  match trimStart s with
  | c :: r =>
      if (c =? ch "-")%N then strUnsignedDecimalLiteral true r
      else if (c =? ch "+")%N then strUnsignedDecimalLiteral false r
      else strUnsignedDecimalLiteral false (c :: r)
  | [] => NaN
  end.

(** *** Number.prototype.toString (radix 10)

    For a positive finite [x] the host takes the integers [n], [k] and [s]
    with [k >= 1], [10^(k-1) <= s < 10^k] and [s * 10^(n-k)] rounding to
    [x], [k] as small as possible (the nearest to [x] among several [s],
    the even one on a tie), and lays the [k] digits of [s] out according
    to [n]. *)

(** The [n] with [10^(n-1) <= a/b < 10^n], for positive [a] and [b]. *)
Definition decExponent (a b : Z) : Z :=
  let l := Z.of_nat (List.length (decimal a)) - Z.of_nat (List.length (decimal b)) in
  if a * 10 ^ Z.max 0 (- l) <? b * 10 ^ Z.max 0 l then l else l + 1.

(** Does [s * 10^p] round to [Fin false m e]? *)
Definition roundsTo (m e s p : Z) : bool :=
  sameValue (roundQ false (scale10 s p)) (Fin false m e).

(** The [k]-digit candidates around [a/b], [floor] and [floor + 1] of
    [a/b / 10^p] for [p = nx - k]: the pair [(s, p)] chosen among those
    that round to the number, if any; the candidate is [s * 10^p]. *)
Definition digitsAt (m e a b nx k : Z) : option (Z * Z) :=
  let p := nx - k in
  let N := a * 10 ^ Z.max 0 (- p) in
  let D := b * 10 ^ Z.max 0 p in
  let lo := N / D in
  let r := N mod D in
  let hi := lo + 1 in
  let okLo := roundsTo m e lo p in
  let okHi := roundsTo m e hi p in
  let pickHi :=
    if okLo && okHi then (D <? 2 * r) || ((D =? 2 * r) && Z.odd lo) else okHi in
  if pickHi then Some (if hi =? 10 ^ k then (1, nx) else (hi, p))
  else if okLo then Some (lo, p)
  else None.

Fixpoint stripZeros (fuel : nat) (s p : Z) : Z * Z :=
  match fuel with
  | O => (s, p)
  | S f => if (s mod 10 =? 0) && negb (s =? 0) then stripZeros f (s / 10) (p + 1) else (s, p)
  end.

(** The exact decimal expansion of [m * 2^e], without its trailing zeros.
    It rounds to the number, so the search below always has an answer;
    the shorter candidates are tried first (seventeen digits are known to
    be enough for a double). *)
Definition exactDigits (m e : Z) : Z * Z :=
  let s0 := if 0 <=? e then m * 2 ^ e else m * 5 ^ (- e) in
  stripZeros (List.length (decimal s0)) s0 (Z.min 0 e).

Fixpoint shortestFrom (fuel : nat) (m e a b nx k : Z) : Z * Z :=
  match fuel with
  | O => exactDigits m e
  | S f =>
      match digitsAt m e a b nx k with
      | Some r => r
      | None => shortestFrom f m e a b nx (k + 1)
      end
  end.

(** [(s, p)] for the positive number [m * 2^e], searched from one digit
    up: the digits are those of [s], and [n] is [p] plus their number. *)
Definition shortest (m e : Z) : Z * Z :=
  let q := Qred (mag m e) in
  let a := Qnum q in
  let b := Zpos (Qden q) in
  shortestFrom 21 m e a b (decExponent a b) 1.

(** Laying out the digits [ds] of [s] for the decimal exponent [n]. *)
Definition layout (ds : jsstring) (n : Z) : jsstring :=
  let k := Z.of_nat (List.length ds) in
  if (-6 <? n) && (n <=? 21) then
    if k <=? n then ds ++ zeros (n - k)
    else if 0 <? n then firstn (Z.to_nat n) ds ++ [ch "."] ++ skipn (Z.to_nat n) ds
    else [ch "0"; ch "."] ++ zeros (- n) ++ ds
  else
    let ex := [ch "e"; if n - 1 <? 0 then ch "-" else ch "+"] ++ decimal (Z.abs (n - 1)) in
    match ds with
    | [d] => [d] ++ ex
    | d :: rest => [d; ch "."] ++ rest ++ ex
    | [] => ex
    end.

Definition toString (x : number) : jsstring :=
  match x with
  | NaN => str "NaN"
  | Inf neg => (if neg then [ch "-"] else []) ++ str "Infinity"
  | Fin neg m e =>
      if m =? 0 then [ch "0"]
      else let (s, p) := shortest m e in
           let ds := decimal s in
           (if neg then [ch "-"] else []) ++ layout ds (p + Z.of_nat (List.length ds))
  end.

(** *** Number.prototype.toFixed

    [x.toFixed(f)] for [0 <= f <= 100]: the integer [n] nearest to
    [|x| * 10^f] (the larger one on a tie), written with [f] digits after
    the point; numbers from [10^21] on are written by [toString]. *)
Definition toFixed (x : number) (f : Z) : jsstring :=
  match x with
  | Fin neg m e =>
      let q := Qred (mag m e) in
      let a := Qnum q in
      let b := Zpos (Qden q) in
      let sign := if neg && negb (m =? 0) then [ch "-"] else [] in
      if 10 ^ 21 * b <=? a then sign ++ toString (Fin false m e)
      else
        let n := (2 * a * 10 ^ f + b) / (2 * b) in
        let ds := decimal n in
        let k := Z.of_nat (List.length ds) in
        if f =? 0 then sign ++ ds
        else
          let padded := if k <=? f then zeros (f + 1 - k) ++ ds else ds in
          let k' := Z.of_nat (List.length padded) in
          sign ++ firstn (Z.to_nat (k' - f)) padded ++ [ch "."] ++ skipn (Z.to_nat (k' - f)) padded
  | _ => toString x
  end.

End JSNumber.

(* ================================================================== *)
(** ** The page state and the editing operations shared by both variants *)
(* ================================================================== *)

Module Page.
Import JSString JSNumber.

(** What the script reads and writes: [state.expr], the display element's
    text and its error class, the reset callbacks scheduled by [showError]
    and not yet run, and the angle mode string. *)
Record page : Type := mkPage {
  expr : jsstring;
  textContent : jsstring;
  errorClass : bool;
  timers : nat;
  angleMode : jsstring
}.

Definition setExpr (st : page) (e : jsstring) : page :=
  mkPage e (textContent st) (errorClass st) (timers st) (angleMode st).

Definition setText (st : page) (t : jsstring) : page :=
  mkPage (expr st) t (errorClass st) (timers st) (angleMode st).

Definition setError (st : page) (b : bool) : page :=
  mkPage (expr st) (textContent st) b (timers st) (angleMode st).

(** The table of visual symbols: multiplication sign, division sign, minus
    sign, en dash. *)
Definition symbolMap : list (jsstring * jsstring) :=
  [ ([215%N], [ch "*"]);
    ([247%N], [ch "/"]);
    ([8722%N], [ch "-"]);
    ([8211%N], [ch "-"]) ].

Fixpoint lookup (k : jsstring) (t : list (jsstring * jsstring)) : option jsstring :=
  match t with
  | [] => None
  | (k', v) :: t' => if streq k k' then Some v else lookup k t'
  end.

(** [updateDisplay]: the display shows the expression, or 0 when it is
    empty. *)
Definition updateDisplay (st : page) : page :=
  setText st (if truthy (expr st) then expr st else [ch "0"]).

(** [showError]: the message is displayed, the error class set, and a reset
    is scheduled; the expression itself is not touched. *)
Definition showError (msg : jsstring) (st : page) : page :=
  mkPage (expr st) msg true (S (timers st)) (angleMode st).

(** The callback [showError] schedules, run 900 ms later. *)
Definition resetAfterError (st : page) : page :=
  updateDisplay (mkPage [] (textContent st) false (pred (timers st)) (angleMode st)).

(** The single-digit test of [appendValue]. *)
Definition isSingleDigit (v : jsstring) : bool :=
  match v with
  | [c] => isDigit c
  | _ => false
  end.

(** [appendValue].  [val in symbolMap] is modelled on the table's own four
    keys; the property names every object inherits (all longer than one
    character) are never passed by the page's buttons or key map. *)
Definition appendValue (val : jsstring) (st : page) : page :=
  let val := match lookup val symbolMap with Some v => v | None => val end in
  if streq (expr st) [ch "0"] && isSingleDigit val
  then updateDisplay (setExpr st val)
  else updateDisplay (setExpr st (expr st ++ val)).

(** [clearAll] *)
Definition clearAll (st : page) : page :=
  setError (updateDisplay (setExpr st [])) false.

(** [deleteLast] *)
Definition deleteLast (st : page) : page :=
  setError (updateDisplay (setExpr st (sliceDropLast (expr st)))) false.

(** [negateLastNumber] *)
Definition negateLastNumber (st : page) : page :=
  match matchTrailing (expr st) with
  | None => st
  | Some (prefix, last) =>
      if negb (truthy last) then updateDisplay (setExpr st (expr st ++ [ch "-"]))
      else
        let last := if startsWith [ch "-"] last then slice1 last else [ch "-"] ++ last in
        updateDisplay (setExpr st (prefix ++ last))
  end.

(** [percentLastNumber] *)
Definition percentLastNumber (st : page) : page :=
  match matchTrailing (expr st) with
  | None => st
  | Some (prefix, last) =>
      if negb (truthy last) then st
      else
        let num := parseFloat last in
        if isNaN num then st
        else
          let pct := toString (div num (ofZ 100)) in
          updateDisplay (setExpr st (prefix ++ pct))
  end.

(** What calling the function built from the expression text gives: an
    exception, a Number, or a value that is not a Number (the allowed
    characters can spell a regular expression literal). *)
Inductive completion : Type :=
| Throws
| Returns (x : number)
| ReturnsOther.

(** The result test of [calculate] and [applySciFunction]. *)
Definition isMathError (x : number) : bool :=
  match x with
  | NaN | Inf _ => true
  | Fin _ _ _ => false
  end.

(** [s.replace] with a pattern made of one character class and the end
    anchor, by the empty string. *)
Definition stripLast (cls : codeUnit -> bool) (s : jsstring) : jsstring :=
  match rev s with
  | c :: r => if cls c then rev r else s
  | [] => s
  end.

(** The page as loaded: empty expression, 0 on the display, degrees. *)
Definition initial : page := mkPage [] [ch "0"] false 0 (str "deg").

(** Symbol substitution, one code unit at a time. *)
Definition mapSymbols (input : jsstring) : jsstring :=
  flat_map (fun c => match lookup [c] symbolMap with Some v => v | None => [c] end) input.

(** The page after the keys of [s] were pressed one by one. *)
Definition typed (s : string) : page :=
  fold_left (fun st a => appendValue [N_of_ascii a] st) (list_ascii_of_string s) initial.

End Page.

(* ================================================================== *)
(** ** The scientific variant *)
(* ================================================================== *)

Module Scientific.
Import JSString JSNumber Page.

(** [normalizeExpression]: visual symbols, then every caret becomes two
    stars. *)
Definition normalizeExpression (input : jsstring) : jsstring :=
  flat_map (fun c => if (c =? ch "^")%N then [ch "*"; ch "*"] else [c]) (mapSymbols input).

(** The class of [allowedRE]: digits, the operators, caret, parentheses,
    dot and white space. *)
Definition allowedChar (c : codeUnit) : bool :=
  isDigit c
  || ((c =? ch "+") || (c =? ch "-") || (c =? ch "*") || (c =? ch "/") || (c =? ch "%")
      || (c =? ch "^") || (c =? ch "(") || (c =? ch ")") || (c =? ch "."))%N
  || isWhiteSpace c.

(** [allowedRE.test]: one or more allowed characters, nothing else. *)
Definition allowedRE (s : jsstring) : bool := truthy s && forallb allowedChar s.

(** The class of the trailing-operator pattern of [calculate]. *)
Definition trailingOperator (c : codeUnit) : bool :=
  ((c =? ch "*") || (c =? ch "+") || (c =? ch "-") || (c =? ch "/")
   || (c =? ch "^") || (c =? ch "%"))%N.

(** [formatResult] *)
Definition formatResult (n : number) : jsstring :=
  if isInteger n then toString n
  else toString (parseFloat (toFixed n 12)).

(** [calculate], over the host's evaluation of the function text
    (a parameter: the expression language is the host's). *)
Definition calculate (hostEval : jsstring -> completion) (st : page) : page :=
  if negb (truthy (expr st)) then st
  else
    let exprRaw := normalizeExpression (expr st) in
    if negb (allowedRE exprRaw) then showError (str "Invalid characters") st
    else
      let safeExpr := stripLast trailingOperator exprRaw in
      match hostEval safeExpr with
      | Throws => showError (str "Error") st
      | ReturnsOther => showError (str "Error") st
      | Returns result =>
          if isMathError result then showError (str "Math error") st
          else updateDisplay (setExpr st (formatResult result))
      end.

(** The loop of [factorial]: [res *= i] while [i <= n], [i] counting up
    from 2.  [None] when the fuel runs out before the loop ends. *)
Fixpoint factorialLoop (fuel : nat) (n res i : number) : option number :=
  match fuel with
  | O => None
  | S f =>
      if leb i n then factorialLoop f n (mul res i) (add i (ofZ 1))
      else Some res
  end.

(** [factorial] *)
Definition factorial (fuel : nat) (n : number) : option number :=
  factorialLoop fuel n (ofZ 1) (ofZ 2).

(** The functions of [Math] whose results the standard leaves to the
    host's approximation. *)
Record MathHost : Type := mkMath {
  Math_sin : number -> number;
  Math_cos : number -> number;
  Math_tan : number -> number;
  Math_asin : number -> number;
  Math_acos : number -> number;
  Math_atan : number -> number;
  Math_log : number -> number;
  Math_log10 : option (number -> number);
  Math_sqrt : number -> number;
  Math_pow : number -> number -> number;
  Math_exp : number -> number
}.

Definition Math_LN10 : number := Fin false 5184960683398422 (-51).

Definition isDeg (st : page) : bool := streq (angleMode st) (str "deg").

Definition toRad (st : page) (x : number) : number :=
  if isDeg st then div (mul x Math_PI) (ofZ 180) else x.

Definition fromRad (st : page) (x : number) : number :=
  if isDeg st then div (mul x (ofZ 180)) Math_PI else x.

(** What the switch of [applySciFunction] leaves: a result, an error
    already shown, or a return without effect. *)
Inductive switched : Type :=
| Result (x : number)
| Shown (st : page)
| Nothing.

Definition sciSwitch (M : MathHost) (fuel : nat) (fn : jsstring) (st : page)
    (num : number) : option switched :=
  if streq fn (str "sin") then Some (Result (Math_sin M (toRad st num)))
  else if streq fn (str "cos") then Some (Result (Math_cos M (toRad st num)))
  else if streq fn (str "tan") then Some (Result (Math_tan M (toRad st num)))
  else if streq fn (str "asin") then Some (Result (fromRad st (Math_asin M num)))
  else if streq fn (str "acos") then Some (Result (fromRad st (Math_acos M num)))
  else if streq fn (str "atan") then Some (Result (fromRad st (Math_atan M num)))
  else if streq fn (str "ln") then Some (Result (Math_log M num))
  else if streq fn (str "log10") then
    Some (Result (match Math_log10 M with
                  | Some f => f num
                  | None => div (Math_log M num) Math_LN10
                  end))
  else if streq fn (str "sqrt") then Some (Result (Math_sqrt M num))
  else if streq fn (str "pow2") then Some (Result (Math_pow M num (ofZ 2)))
  else if streq fn (str "pow3") then Some (Result (Math_pow M num (ofZ 3)))
  else if streq fn (str "exp") then Some (Result (Math_exp M num))
  else if streq fn (str "abs") then Some (Result (abs num))
  else if streq fn (str "reciprocal") then
    if strictEq num (ofZ 0) then Some (Shown (showError (str "Math error") st))
    else Some (Result (div (ofZ 1) num))
  else if streq fn (str "factorial") then
    if ltb num (ofZ 0) || negb (isInteger num)
    then Some (Shown (showError (str "Invalid") st))
    else match factorial fuel num with
         | Some r => Some (Result r)
         | None => None
         end
  else Some Nothing.

(** [applySciFunction].  [None]: the factorial loop did not end within the
    fuel. *)
Definition applySciFunction (M : MathHost) (fuel : nat) (fn : jsstring) (st : page)
    : option page :=
  let m := matchTrailing (expr st) in
  let prefix := match m with Some (p, _) => p | None => [] end in
  let last := match m with Some (_, l) => l | None => [] end in
  let replaceLast (repl : jsstring) := updateDisplay (setExpr st (prefix ++ repl)) in
  if streq fn (str "pow") then
    if streq (expr st) [] || match rev (expr st) with
                            | c :: _ => ((c =? ch "+") || (c =? ch "-") || (c =? ch "*")
                                         || (c =? ch "/") || (c =? ch "^") || (c =? ch ".")
                                         || (c =? ch "("))%N
                            | [] => false
                            end
    then Some (updateDisplay (setExpr st (expr st ++ [ch "^"])))
    else Some (updateDisplay (setExpr st (expr st ++ [ch "^"])))
  else if streq fn (str "pi") then Some (replaceLast (toString Math_PI))
  else if streq fn (str "e") then Some (replaceLast (toString Math_E))
  else if streq fn (str "percent") then Some (percentLastNumber st)
  else if streq fn (str "negate") then Some (negateLastNumber st)
  else if negb (truthy last) then Some st
  else
    let num := parseFloat last in
    if isNaN num then Some st
    else
      match sciSwitch M fuel fn st num with
      | None => None
      | Some Nothing => Some st
      | Some (Shown st') => Some st'
      | Some (Result result) =>
          if isMathError result then Some (showError (str "Math error") st)
          else Some (replaceLast (formatResult result))
      end.

End Scientific.

(* ================================================================== *)
(** ** The basic variant: what differs from the scientific one *)
(* ================================================================== *)

Module Basic.
Import JSString JSNumber Page.

(** [normalizeExpression]: visual symbols only. *)
Definition normalizeExpression (input : jsstring) : jsstring := mapSymbols input.

(** The class of [allowedRE]: no caret here. *)
Definition allowedChar (c : codeUnit) : bool :=
  isDigit c
  || ((c =? ch "+") || (c =? ch "-") || (c =? ch "*") || (c =? ch "/") || (c =? ch "%")
      || (c =? ch ".") || (c =? ch "(") || (c =? ch ")"))%N
  || isWhiteSpace c.

Definition allowedRE (s : jsstring) : bool := truthy s && forallb allowedChar s.

(** The class of the trailing pattern of [calculate]: anything but a digit,
    a dot or a closing parenthesis. *)
Definition trailingOther (c : codeUnit) : bool :=
  negb (isDigit c || (c =? ch ".") || (c =? ch ")"))%N.

(** [formatResult] *)
Definition formatResult (n : number) : jsstring :=
  if isInteger n then toString n
  else toString (parseFloat (toFixed n 10)).

(** [calculate] *)
Definition calculate (hostEval : jsstring -> completion) (st : page) : page :=
  if negb (truthy (expr st)) then st
  else
    let expr' := normalizeExpression (expr st) in
    if negb (allowedRE expr') then showError (str "Invalid characters") st
    else
      let safeExpr := stripLast trailingOther expr' in
      match hostEval safeExpr with
      | Throws => showError (str "Error") st
      | ReturnsOther => showError (str "Error") st
      | Returns result =>
          if isMathError result then showError (str "Math error") st
          else updateDisplay (setExpr st (formatResult result))
      end.

End Basic.

(* ================================================================== *)
(** ** The event handlers *)
(* ================================================================== *)

Module Handlers.
Import JSString JSNumber Page.

(** The two scripts, told apart where their handlers differ. *)
Inductive variant : Type :=
| ScientificPage
| BasicPage.

Definition calculate (v : variant) (hostEval : jsstring -> completion) : page -> page :=
  match v with
  | ScientificPage => Scientific.calculate hostEval
  | BasicPage => Basic.calculate hostEval
  end.

(** [a || b] on a value that is null or a string. *)
Definition orElse (a : option jsstring) (b : jsstring) : jsstring :=
  match a with
  | Some s => if truthy s then s else b
  | None => b
  end.

(** The property names every object inherits (ECMA-262, with Annex B).
    A lookup such as [keyMap[e.key]] finds them as well as the keys of the
    table, and gives a function or an object of the host. *)
Definition inheritedNames : list jsstring :=
  List.map str
    ["constructor"; "hasOwnProperty"; "isPrototypeOf"; "propertyIsEnumerable";
     "toLocaleString"; "toString"; "valueOf"; "__proto__";
     "__defineGetter__"; "__defineSetter__"; "__lookupGetter__";
     "__lookupSetter__"]%string.

Definition inherited (k : jsstring) : bool := existsb (streq k) inheritedNames.

(** *** The keys panel *)

(** The button a click lands on, by its two attributes ([None]: the
    attribute is absent). *)
Record button : Type := mkButton {
  dataValue : option jsstring;
  dataAction : option jsstring
}.

(** The click listener of the keys panel; [target] is the closest button
    of the click, if any.  [None]: the value names an inherited property,
    and what [appendValue] then appends is a text of the host's. *)
Definition onKeysClick (v : variant) (hostEval : jsstring -> completion)
    (target : option button) (st : page) : option page :=
  match target with
  | None => Some st
  | Some btn =>
      match dataValue btn with
      | Some val => if inherited val then None else Some (appendValue val st)
      | None =>
          match dataAction btn with
          | Some action =>
              if streq action (str "clear") then Some (clearAll st)
              else if streq action (str "delete") then Some (deleteLast st)
              else if streq action (str "negate") then Some (negateLastNumber st)
              else if streq action (str "percent") then Some (percentLastNumber st)
              else if streq action (str "calculate") then Some (calculate v hostEval st)
              else Some st
          | None => Some st
          end
      end
  end.

(** *** The keyboard *)

(** What the keydown listener reads of its event; an absent [code] is the
    empty string (both are falsy). *)
Record keyboardEvent : Type := mkKey {
  key : jsstring;
  code : jsstring
}.

Definition keyMap (v : variant) : list (jsstring * jsstring) :=
  [ (str "/", str "/"); (str "*", str "*"); (str "+", str "+"); (str "-", str "-");
    (str ".", str "."); (str "%", str "%"); (str "(", str "("); (str ")", str ")") ]
  ++ match v with
     | ScientificPage => [ (str "^", str "^") ]
     | BasicPage => []
     end.

(** The keydown listener: the page after the event, and whether
    [preventDefault] was called.  [None]: the key names an inherited
    property (no key of a keyboard does). *)
Definition onKeydown (v : variant) (hostEval : jsstring -> completion)
    (e : keyboardEvent) (st : page) : option (page * bool) :=
  if streq (key e) (str "Enter") then Some (calculate v hostEval st, true)
  else if streq (key e) (str "Backspace") then Some (deleteLast st, true)
  else if streq (key e) (str "Escape") then Some (clearAll st, true)
  else if inherited (key e) then None
  else
    match lookup (key e) (keyMap v) with
    | Some val => Some (appendValue val st, true)
    | None =>
        if isSingleDigit (key e) then Some (appendValue (key e) st, true)
        else
          let symbols :=
            if streq (key e) [215%N] then Some (appendValue [ch "*"] st, true)
            else if streq (key e) [247%N] then Some (appendValue [ch "/"] st, true)
            else Some (st, false) in
          if truthy (code e) && startsWith (str "Numpad") (code e) then
            if streq (code e) (str "NumpadDecimal") then Some (appendValue [ch "."] st, true)
            else if isSingleDigit (key e) then Some (appendValue (key e) st, true)
            else symbols
          else symbols
    end.

(** *** The scientific panel *)

(** The click listener of the scientific panel; [target] is the closest
    button, if any, with its function attribute. *)
Definition onSciPanelClick (M : Scientific.MathHost) (fuel : nat)
    (target : option (option jsstring)) (st : page) : option page :=
  match target with
  | Some (Some fn) => if truthy fn then Scientific.applySciFunction M fuel fn st else Some st
  | _ => Some st
  end.

(** *** The angle mode *)

(** The session's stored angle mode, and the two things the toggle button
    shows of it. *)
Record toggle : Type := mkToggle {
  session : option jsstring;
  ariaPressed : jsstring;
  label : jsstring
}.

Definition setAngleMode (st : page) (a : jsstring) : page :=
  mkPage (expr st) (textContent st) (errorClass st) (timers st) a.

(** [updateDegToggleUI] *)
Definition updateDegToggleUI (st : page) (t : toggle) : toggle :=
  let isDeg := streq (angleMode st) (str "deg") in
  mkToggle (session t)
           (if isDeg then str "true" else str "false")
           (if isDeg then str "deg" else str "rad").

(** The click listener of the toggle button. *)
Definition onDegToggleClick (s : page * toggle) : page * toggle :=
  let (st, t) := s in
  let a := if streq (angleMode st) (str "deg") then str "rad" else str "deg" in
  let st' := setAngleMode st a in
  (st', updateDegToggleUI st' (mkToggle (Some a) (ariaPressed t) (label t))).

(** The script run on a freshly parsed page whose display element shows
    [text] with error class [cls], the session holding [stored]: the
    angle mode is read, the toggle drawn, the expression cleared. *)
Definition load (stored : option jsstring) (text : jsstring) (cls : bool)
    (t : toggle) : page * toggle :=
  let st := mkPage [] text cls 0 (orElse stored (str "deg")) in
  (updateDisplay (clearAll st), updateDegToggleUI st (mkToggle stored (ariaPressed t) (label t))).

(** *** The page as a machine *)

Inductive event : Type :=
| KeysClick (target : option button)
| Keydown (e : keyboardEvent)
| ResetTimer
| SciPanelClick (target : option (option jsstring))
| DegToggleClick.

(** One event handled.  [None]: the event cannot occur (no reset is
    pending; the basic page has neither scientific panel nor toggle), or
    its handler leaves the model. *)
Definition step (v : variant) (hostEval : jsstring -> completion)
    (M : Scientific.MathHost) (fuel : nat) (ev : event) (s : page * toggle)
    : option (page * toggle) :=
  let (st, t) := s in
  match ev with
  | KeysClick target =>
      match onKeysClick v hostEval target st with
      | Some st' => Some (st', t)
      | None => None
      end
  | Keydown e =>
      match onKeydown v hostEval e st with
      | Some (st', _) => Some (st', t)
      | None => None
      end
  | ResetTimer =>
      match timers st with
      | O => None
      | S _ => Some (resetAfterError st, t)
      end
  | SciPanelClick target =>
      match v with
      | ScientificPage =>
          match onSciPanelClick M fuel target st with
          | Some st' => Some (st', t)
          | None => None
          end
      | BasicPage => None
      end
  | DegToggleClick =>
      match v with
      | ScientificPage => Some (onDegToggleClick s)
      | BasicPage => None
      end
  end.

Fixpoint run (v : variant) (hostEval : jsstring -> completion)
    (M : Scientific.MathHost) (fuel : nat) (evs : list event) (s : page * toggle)
    : option (page * toggle) :=
  match evs with
  | [] => Some s
  | ev :: rest =>
      match step v hostEval M fuel ev s with
      | Some s' => run v hostEval M fuel rest s'
      | None => None
      end
  end.

End Handlers.

(* ================================================================== *)
(** ** The theme switcher *)
(* ================================================================== *)

Module Theme.
Import JSString Handlers.

(** What the theme code reads and writes: the stored theme, whether the
    system prefers the light scheme, the theme attribute of the root
    element, and whether [handleSystemChange] is registered on the media
    query.  (The value shown by the select element is left out: it
    depends on the options the page offers.) *)
Record themeState : Type := mkTheme {
  stored : option jsstring;
  matches : bool;
  dataTheme : option jsstring;
  listening : bool
}.

Definition setDataTheme (t : themeState) (a : jsstring) : themeState :=
  mkTheme (stored t) (matches t) (Some a) (listening t).

(** [applyTheme] *)
Definition applyTheme (theme : jsstring) (t : themeState) : themeState :=
  if streq theme (str "system")
  then setDataTheme t (if matches t then str "light" else str "dark")
  else setDataTheme t theme.

(** [initTheme], with [currentSavedTheme] as read when the script loads. *)
Definition initTheme (t : themeState) : themeState :=
  let currentSavedTheme := orElse (stored t) (str "system") in
  let t1 := applyTheme currentSavedTheme t in
  if streq currentSavedTheme (str "system")
  then mkTheme (stored t1) (matches t1) (dataTheme t1) true
  else t1.

(** [handleSystemChange] *)
Definition handleSystemChange (t : themeState) : themeState :=
  match stored t with
  | Some s => if streq s (str "system") then applyTheme (str "system") t else t
  | None => t
  end.

(** The change listener of the select element, for the selected value. *)
Definition onThemeChange (val : jsstring) (t : themeState) : themeState :=
  let t1 := mkTheme (stored t) (matches t) (dataTheme t) false in
  let t2 := if streq val (str "system")
            then mkTheme (stored t1) (matches t1) (dataTheme t1) true else t1 in
  let t3 := mkTheme (Some val) (matches t2) (dataTheme t2) (listening t2) in
  applyTheme val t3.

Inductive themeEvent : Type :=
| Select (val : jsstring)
| SystemChange (light : bool).

(** One event: a selection, or the system's scheme changing, which calls
    the listener registered on the media query, if any. *)
Definition themeStep (ev : themeEvent) (t : themeState) : themeState :=
  match ev with
  | Select val => onThemeChange val t
  | SystemChange light =>
      let t1 := mkTheme (stored t) light (dataTheme t) (listening t) in
      if listening t1 then handleSystemChange t1 else t1
  end.

(** The theme code run at load, with the storage and the system as found. *)
Definition loadTheme (saved : option jsstring) (light : bool) : themeState :=
  initTheme (mkTheme saved light None false).

End Theme.

(* ================================================================== *)
(** ** Facts about the trailing-number pattern *)
(* ================================================================== *)

Module TrailingFacts.
Import JSString.

(** Characters a trailing number is made of. *)
Definition isNumChar (c : codeUnit) : bool := isDigit c || (c =? ch ".")%N.
Definition isTokenChar (c : codeUnit) : bool := isNumChar c || (c =? ch "-")%N.

(** Character literals to their code units, in the goal and the context. *)
Ltac chars :=
  repeat match goal with
    | |- context [ch ?a] =>
        let v := eval vm_compute in (ch a) in change (ch a) with v
    | H : context [ch ?a] |- _ =>
        let v := eval vm_compute in (ch a) in change (ch a) with v in H
    end.

Lemma lazyPrefix_eq (s : jsstring) :
  lazyPrefix s =
  if numberAtEnd s then Some ([], s)
  else match s with
       | [] => None
       | c :: r =>
           if isLineTerminator c then None
           else match lazyPrefix r with
                | Some (p, l) => Some (c :: p, l)
                | None => None
                end
       end.
Proof. destruct s; reflexivity. Qed.

Lemma skipDigits_nil (s : jsstring) :
  skipDigits s = [] -> forallb isDigit s = true.
Proof.
  induction s as [|c r IH]; simpl; [reflexivity|].
  destruct (isDigit c) eqn:Hc; [exact IH | discriminate].
Qed.

Lemma skipDigits_all (s : jsstring) :
  forallb isDigit s = true -> skipDigits s = [].
Proof.
  induction s as [|c r IH]; simpl; [reflexivity|].
  destruct (isDigit c); simpl; [exact IH | discriminate].
Qed.

Lemma digit_numChar (s : jsstring) :
  forallb isDigit s = true -> forallb isNumChar s = true.
Proof.
  induction s as [|c r IH]; simpl; [reflexivity|].
  intros H. apply andb_true_iff in H as [Hc Hr].
  unfold isNumChar at 1. rewrite Hc. simpl. auto.
Qed.

Lemma skipOptional_hit (x : codeUnit) (r : jsstring) :
  skipOptional x (x :: r) = r.
Proof. simpl. now rewrite N.eqb_refl. Qed.

Lemma skipOptional_miss (x c : codeUnit) (r : jsstring) :
  c <> x -> skipOptional x (c :: r) = c :: r.
Proof. intros H. simpl. destruct (N.eqb_spec c x); [contradiction | reflexivity]. Qed.

Lemma skipDigits_cons (c : codeUnit) (r : jsstring) :
  skipDigits (c :: r) = if isDigit c then skipDigits r else c :: r.
Proof. reflexivity. Qed.

(** The unsigned part of the pattern: digits, optional dot, digits. *)
Definition unsignedAtEnd (s : jsstring) : bool :=
  match skipDigits (skipOptional (ch ".") (skipDigits s)) with
  | [] => true
  | _ :: _ => false
  end.

Lemma unsignedAtEnd_chars (s : jsstring) :
  unsignedAtEnd s = true -> forallb isNumChar s = true.
Proof.
  unfold unsignedAtEnd.
  induction s as [|c r IH]; [reflexivity|].
  rewrite skipDigits_cons. cbn [forallb]. unfold isNumChar at 1.
  destruct (isDigit c) eqn:Hc.
  - intros H. cbn [orb andb]. auto.
  - destruct (N.eqb_spec c (ch ".")) as [->|Hne].
    + rewrite skipOptional_hit. intros H. cbn [orb andb].
      destruct (skipDigits r) eqn:Hs; [|discriminate].
      apply digit_numChar, skipDigits_nil, Hs.
    + rewrite skipOptional_miss by exact Hne.
      rewrite skipDigits_cons, Hc. discriminate.
Qed.

Lemma numChar_not_minus (c : codeUnit) :
  isNumChar c = true -> c <> ch "-".
Proof. intros H ->. discriminate H. Qed.

Lemma skipMinus_unsigned (s : jsstring) :
  forallb isNumChar s = true -> skipOptional (ch "-") s = s.
Proof.
  destruct s as [|c r]; [reflexivity|]. cbn [forallb].
  intros H. apply andb_true_iff in H as [Hc _].
  apply skipOptional_miss, numChar_not_minus, Hc.
Qed.

Lemma numberAtEnd_signed (t : jsstring) :
  numberAtEnd (ch "-" :: t) = unsignedAtEnd t.
Proof. unfold numberAtEnd. now rewrite skipOptional_hit. Qed.

Lemma numberAtEnd_unsigned (s : jsstring) :
  forallb isNumChar s = true -> numberAtEnd s = unsignedAtEnd s.
Proof.
  intros H. unfold numberAtEnd, unsignedAtEnd. now rewrite skipMinus_unsigned.
Qed.

(** A string the pattern's second group can match in full is made of an
    optional minus followed by digits and dots only. *)
Lemma numberAtEnd_chars (c : codeUnit) (r : jsstring) :
  numberAtEnd (c :: r) = true ->
  isTokenChar c = true /\ forallb isNumChar r = true.
Proof.
  destruct (N.eqb_spec c (ch "-")) as [->|Hne].
  - rewrite numberAtEnd_signed. intros H. split; [reflexivity|].
    now apply unsignedAtEnd_chars.
  - unfold numberAtEnd. rewrite skipOptional_miss by exact Hne.
    intros H. apply (unsignedAtEnd_chars (c :: r)) in H.
    cbn [forallb] in H. apply andb_true_iff in H as [Hc Hr].
    split; [unfold isTokenChar; now rewrite Hc | exact Hr].
Qed.

Lemma numChar_tokenChar (s : jsstring) :
  forallb isNumChar s = true -> forallb isTokenChar s = true.
Proof.
  induction s as [|d r IH]; [reflexivity|].
  cbn [forallb]. intros H. apply andb_true_iff in H as [Hd Hr].
  unfold isTokenChar at 1. rewrite Hd. cbn [orb andb]. auto.
Qed.

Lemma numberAtEnd_tokenChars (s : jsstring) :
  numberAtEnd s = true -> forallb isTokenChar s = true.
Proof.
  destruct s as [|c r]; [reflexivity|].
  intros H. apply numberAtEnd_chars in H as [Hc Hr].
  cbn [forallb]. now rewrite Hc, numChar_tokenChar.
Qed.

Lemma skipDigits_split (s : jsstring) :
  exists d, s = d ++ skipDigits s /\ forallb isDigit d = true.
Proof.
  induction s as [|c r [d [E Hd]]]; [now exists []|].
  rewrite skipDigits_cons. destruct (isDigit c) eqn:Hc.
  - exists (c :: d). cbn [forallb app]. rewrite Hc, Hd. split; [now f_equal | reflexivity].
  - now exists [].
Qed.

Lemma skipDigits_app (d r : jsstring) :
  forallb isDigit d = true -> skipDigits (d ++ r) = skipDigits r.
Proof.
  induction d as [|c d IH]; [reflexivity|].
  cbn [forallb app]. intros H. apply andb_true_iff in H as [Hc Hd].
  now rewrite skipDigits_cons, Hc, IH.
Qed.

Lemma skipOptional_split (x : codeUnit) (s : jsstring) :
  exists o, s = o ++ skipOptional x s /\ (o = [] \/ o = [x]).
Proof.
  destruct s as [|c r]; [exists []; auto|].
  destruct (N.eqb_spec c x) as [->|Hne].
  - rewrite skipOptional_hit. exists [x]. auto.
  - rewrite skipOptional_miss by exact Hne. exists []. auto.
Qed.

(** The language of the second group, spelled out: what any way of
    matching its four pieces accepts is what the greedy pass accepts. *)
Lemma numberAtEnd_language (s : jsstring) :
  numberAtEnd s = true <->
  exists sg d1 dt d2,
    s = sg ++ d1 ++ dt ++ d2
    /\ (sg = [] \/ sg = [ch "-"])
    /\ forallb isDigit d1 = true
    /\ (dt = [] \/ dt = [ch "."])
    /\ forallb isDigit d2 = true.
Proof.
  split.
  - unfold numberAtEnd. intros H.
    destruct (skipOptional_split (ch "-") s) as [sg [E1 Hsg]].
    destruct (skipDigits_split (skipOptional (ch "-") s)) as [d1 [E2 Hd1]].
    destruct (skipOptional_split (ch ".") (skipDigits (skipOptional (ch "-") s)))
      as [dt [E3 Hdt]].
    destruct (skipDigits (skipOptional (ch ".") (skipDigits (skipOptional (ch "-") s))))
      as [|x y] eqn:E4; [|discriminate].
    exists sg, d1, dt, (skipOptional (ch ".") (skipDigits (skipOptional (ch "-") s))).
    repeat split; auto.
    + rewrite E1 at 1. f_equal. rewrite E2 at 1. f_equal. exact E3.
    + now apply skipDigits_nil.
  - intros (sg & d1 & dt & d2 & -> & Hsg & Hd1 & Hdt & Hd2).
    assert (U : unsignedAtEnd (d1 ++ dt ++ d2) = true).
    { unfold unsignedAtEnd. rewrite skipDigits_app by exact Hd1.
      destruct Hdt as [-> | ->].
      - cbn [app]. rewrite (skipDigits_all d2 Hd2). reflexivity.
      - cbn [app]. rewrite skipDigits_cons.
        replace (isDigit (ch ".")) with false by reflexivity.
        rewrite skipOptional_hit, (skipDigits_all d2 Hd2). reflexivity. }
    destruct Hsg as [-> | ->].
    + cbn [app]. rewrite numberAtEnd_unsigned; [exact U|].
      now apply unsignedAtEnd_chars.
    + cbn [app]. now rewrite numberAtEnd_signed.
Qed.

(** *** The lazy group and the search over start positions *)

Lemma tokenChar_not_terminator (c : codeUnit) :
  isTokenChar c = true -> isLineTerminator c = false.
Proof.
  unfold isTokenChar, isNumChar, isDigit, isLineTerminator.
  intros H.
  destruct (N.eqb_spec c 10) as [->|]; [discriminate H|].
  destruct (N.eqb_spec c 13) as [->|]; [discriminate H|].
  destruct (N.eqb_spec c 8232) as [->|]; [discriminate H|].
  destruct (N.eqb_spec c 8233) as [->|]; [discriminate H|].
  reflexivity.
Qed.

Lemma tokenChars_no_terminator (s : jsstring) :
  forallb isTokenChar s = true -> existsb isLineTerminator s = false.
Proof.
  induction s as [|c r IH]; [reflexivity|].
  cbn [forallb existsb]. intros H. apply andb_true_iff in H as [Hc Hr].
  now rewrite (tokenChar_not_terminator c Hc), IH.
Qed.

Lemma numberAtEnd_no_terminator (s : jsstring) :
  numberAtEnd s = true -> existsb isLineTerminator s = false.
Proof. intros H. now apply tokenChars_no_terminator, numberAtEnd_tokenChars. Qed.

(** Across a line terminator the lazy group cannot grow: the attempt at
    this start position fails. *)
Lemma lazyPrefix_terminator (s : jsstring) :
  existsb isLineTerminator s = true -> lazyPrefix s = None.
Proof.
  induction s as [|c r IH]; [discriminate|].
  intros H. rewrite lazyPrefix_eq.
  destruct (numberAtEnd (c :: r)) eqn:Hn.
  - apply numberAtEnd_no_terminator in Hn. congruence.
  - cbn [existsb] in H. destruct (isLineTerminator c); [reflexivity|].
    cbn [orb] in H. now rewrite IH.
Qed.

(** Without line terminators the attempt at the first start position
    succeeds, and the two captures make up the whole string. *)
Lemma lazyPrefix_total (s : jsstring) :
  existsb isLineTerminator s = false ->
  exists p l, lazyPrefix s = Some (p, l) /\ s = p ++ l.
Proof.
  induction s as [|c r IH].
  - intros _. exists [], []. split; reflexivity.
  - cbn [existsb]. intros H. apply orb_false_iff in H as [Hc Hr].
    rewrite lazyPrefix_eq. destruct (numberAtEnd (c :: r)).
    + exists [], (c :: r). split; reflexivity.
    + rewrite Hc. destruct (IH Hr) as (p & l & -> & ->).
      exists (c :: p), l. split; reflexivity.
Qed.

Lemma lazyPrefix_number (s p l : jsstring) :
  lazyPrefix s = Some (p, l) -> numberAtEnd l = true /\ s = p ++ l.
Proof.
  revert p l. induction s as [|c r IH]; intros p l; rewrite lazyPrefix_eq.
  - destruct (numberAtEnd []) eqn:E; [|discriminate].
    intros [= <- <-]. split; [exact E | reflexivity].
  - destruct (numberAtEnd (c :: r)) eqn:E.
    + intros [= <- <-]. split; [exact E | reflexivity].
    + destruct (isLineTerminator c); [discriminate|].
      destruct (lazyPrefix r) as [[p' l']|] eqn:E'; [|discriminate].
      intros [= <- <-]. destruct (IH p' l' eq_refl) as [Hn ->].
      split; [exact Hn | reflexivity].
Qed.

(** The first group stops at the first position from which the rest of the
    string is a number. *)
Lemma lazyPrefix_first (q l : jsstring) :
  existsb isLineTerminator q = false ->
  numberAtEnd l = true ->
  (forall q1 c q2, q = q1 ++ c :: q2 -> numberAtEnd (c :: q2 ++ l) = false) ->
  lazyPrefix (q ++ l) = Some (q, l).
Proof.
  intros HT Hl. induction q as [|c q IH]; intros Hq.
  - cbn [app]. rewrite lazyPrefix_eq, Hl. reflexivity.
  - cbn [existsb] in HT. apply orb_false_iff in HT as [Hc HT].
    cbn [app]. rewrite lazyPrefix_eq.
    rewrite (Hq [] c q eq_refl), Hc, IH; [reflexivity | exact HT |].
    intros q1 d q2 ->. apply (Hq (c :: q1) d q2). reflexivity.
Qed.

Lemma lastLine_free (s : jsstring) :
  existsb isLineTerminator s = false -> lastLine s = s.
Proof.
  destruct s as [|c r]; [reflexivity|]. intros H.
  cbn [lastLine]. now rewrite H.
Qed.

Lemma lastLine_no_terminator (s : jsstring) :
  existsb isLineTerminator (lastLine s) = false.
Proof.
  induction s as [|c r IH]; [reflexivity|].
  cbn [lastLine]. destruct (existsb isLineTerminator (c :: r)) eqn:E; [exact IH | exact E].
Qed.

Lemma lastLine_app (p t : jsstring) :
  existsb isLineTerminator t = false -> lastLine (p ++ t) = lastLine p ++ t.
Proof.
  intros Ht. induction p as [|c p IH]; [now apply lastLine_free|].
  cbn [app lastLine].
  replace (existsb isLineTerminator (c :: p ++ t)) with (existsb isLineTerminator (c :: p)).
  - destruct (existsb isLineTerminator (c :: p)); [exact IH | reflexivity].
  - cbn [existsb]. now rewrite existsb_app, Ht, orb_false_r.
Qed.

(** The leftmost match starts right after the last line terminator. *)
Lemma matchTrailing_lastLine (s : jsstring) :
  matchTrailing s = lazyPrefix (lastLine s).
Proof.
  induction s as [|c r IH]; [reflexivity|].
  cbn [matchTrailing lastLine].
  destruct (existsb isLineTerminator (c :: r)) eqn:E.
  - now rewrite (lazyPrefix_terminator _ E).
  - destruct (lazyPrefix_total _ E) as (p & l & -> & _). reflexivity.
Qed.

(** The match never fails: the script's null test is dead code. *)
Lemma matchTrailing_total (s : jsstring) :
  exists p l, matchTrailing s = Some (p, l) /\ lastLine s = p ++ l /\ numberAtEnd l = true.
Proof.
  rewrite matchTrailing_lastLine.
  destruct (lazyPrefix_total _ (lastLine_no_terminator s)) as (p & l & E & E').
  exists p, l. repeat split; auto. now apply (lazyPrefix_number _ _ _ E).
Qed.

Lemma matchTrailing_number (s p l : jsstring) :
  matchTrailing s = Some (p, l) -> numberAtEnd l = true /\ lastLine s = p ++ l.
Proof. rewrite matchTrailing_lastLine. apply lazyPrefix_number. Qed.

Lemma matchTrailing_first (q l : jsstring) :
  existsb isLineTerminator q = false ->
  numberAtEnd l = true ->
  (forall q1 c q2, q = q1 ++ c :: q2 -> numberAtEnd (c :: q2 ++ l) = false) ->
  matchTrailing (q ++ l) = Some (q, l).
Proof.
  intros HT Hl Hq. rewrite matchTrailing_lastLine, lastLine_free.
  - now apply lazyPrefix_first.
  - now rewrite existsb_app, HT, (numberAtEnd_no_terminator l Hl).
Qed.

End TrailingFacts.

(* ================================================================== *)
(** ** The expression buffer *)
(* ================================================================== *)

Section Buffer.
Import JSString JSNumber Page TrailingFacts.

Lemma streq_refl (s : jsstring) : streq s s = true.
Proof. induction s as [|c r IH]; [reflexivity|]. cbn [streq]. now rewrite N.eqb_refl. Qed.

Lemma streq_eq (a b : jsstring) : streq a b = true <-> a = b.
Proof.
  split; [|intros ->; apply streq_refl].
  revert b. induction a as [|x a IH]; destruct b as [|y b]; try discriminate; [reflexivity|].
  cbn [streq]. intros H. apply andb_true_iff in H as [Hx Hr].
  apply N.eqb_eq in Hx. subst. f_equal. now apply IH.
Qed.

Lemma digit_not_symbol (c : codeUnit) : isDigit c = true -> lookup [c] symbolMap = None.
Proof.
  unfold isDigit. intros H. apply andb_true_iff in H as [H1 H2].
  apply N.leb_le in H1, H2.
  cbn [lookup symbolMap streq].
  repeat match goal with
  | |- context [(c =? ?k)%N] => destruct (N.eqb_spec c k); [lia|]
  end.
  reflexivity.
Qed.

Lemma symbol_not_digit (c : codeUnit) (v : jsstring) :
  lookup [c] symbolMap = Some v -> isSingleDigit v = false.
Proof.
  cbn [lookup symbolMap streq].
  repeat match goal with
  | |- context [(c =? ?k)%N] => destruct (N.eqb_spec c k); [intros [= <-]; reflexivity|]
  end.
  discriminate.
Qed.

(** What [appendValue] appends for the key [c]: the operator a visual
    symbol stands for, the character itself otherwise. *)
Definition canonicalKey (c : codeUnit) : jsstring :=
  match lookup [c] symbolMap with Some v => v | None => [c] end.

(** C2. A digit typed on the empty expression becomes the expression; a
    digit typed on the expression 0 replaces it; in every other case the
    typed digit or symbol (as an operator character, for a visual symbol)
    is put at the end of the expression. *)
Theorem appendValue_digit_or_symbol :
  (forall st d, isDigit d = true -> expr st = [] ->
     expr (appendValue [d] st) = [d])
  /\ (forall st d, isDigit d = true -> expr st = [ch "0"] ->
        expr (appendValue [d] st) = [d])
  /\ (forall st c, expr st <> [ch "0"] \/ isDigit c = false ->
        expr (appendValue [c] st) = expr st ++ canonicalKey c
        /\ (lookup [c] symbolMap = None -> expr (appendValue [c] st) = expr st ++ [c])).
Proof.
  split; [|split].
  - intros st d Hd He. unfold appendValue.
    rewrite (digit_not_symbol d Hd), He. reflexivity.
  - intros st d Hd He. unfold appendValue.
    rewrite (digit_not_symbol d Hd), He.
    cbn [isSingleDigit]. rewrite Hd. reflexivity.
  - intros st c H.
    assert (E : expr (appendValue [c] st) = expr st ++ canonicalKey c).
    { unfold appendValue, canonicalKey.
      destruct (lookup [c] symbolMap) as [v|] eqn:L.
      - rewrite (symbol_not_digit c v L), andb_false_r. reflexivity.
      - destruct H as [H|H].
        + destruct (streq (expr st) [ch "0"]) eqn:S.
          * apply streq_eq in S. contradiction.
          * reflexivity.
        + cbn [isSingleDigit]. rewrite H, andb_false_r. reflexivity. }
    split; [exact E|]. intros L. rewrite E. unfold canonicalKey. now rewrite L.
Qed.

Lemma appendValue_digit_or_symbol_witness :
  expr (appendValue [ch "7"] initial) = [ch "7"]
  /\ expr (appendValue [ch "7"] (typed "0")) = [ch "7"]
  /\ expr (appendValue [ch "+"] (typed "0")) = str "0+"
  /\ expr (appendValue [215%N] (typed "12")) = str "12*".
Proof.
  destruct appendValue_digit_or_symbol as [H1 [H2 H3]].
  split; [|split; [|split]].
  - exact (H1 initial (ch "7") eq_refl eq_refl).
  - exact (H2 (typed "0") (ch "7") eq_refl eq_refl).
  - exact (proj1 (H3 (typed "0") (ch "+") (or_intror eq_refl))).
  - exact (proj1 (H3 (typed "12") 215%N (or_intror eq_refl))).
Defined.


Lemma expr_updateDisplay (st : page) (e : jsstring) :
  expr (updateDisplay (setExpr st e)) = e.
Proof. reflexivity. Qed.

Lemma negate_expr (st : page) (p l : jsstring) :
  matchTrailing (expr st) = Some (p, l) ->
  expr (negateLastNumber st) =
  if truthy l
  then p ++ (if startsWith [ch "-"] l then slice1 l else [ch "-"] ++ l)
  else expr st ++ [ch "-"].
Proof.
  intros H. unfold negateLastNumber. rewrite H.
  destruct (truthy l); reflexivity.
Qed.

Lemma startsWith_minus (l : jsstring) :
  startsWith [ch "-"] l = true <-> exists t, l = ch "-" :: t.
Proof.
  destruct l as [|c r]; cbn [startsWith].
  - split; [discriminate | intros [t [=]]].
  - rewrite andb_true_r. split.
    + intros H. apply N.eqb_eq in H. subst. now exists r.
    + intros [t [= -> _]]. apply N.eqb_refl.
Qed.

Lemma parseable_nonempty (l : jsstring) :
  isNaN (parseFloat l) = false -> l <> [] /\ l <> [ch "-"].
Proof. intros H. split; intros ->; discriminate H. Qed.

Lemma minus_inside_not_number (c : codeUnit) (q l : jsstring) :
  numberAtEnd (c :: q ++ ch "-" :: l) = false.
Proof.
  destruct (numberAtEnd (c :: q ++ ch "-" :: l)) eqn:E; [|reflexivity].
  apply numberAtEnd_chars in E as [_ E].
  rewrite forallb_app in E. apply andb_true_iff in E as [_ E].
  discriminate E.
Qed.

Lemma other_char_not_number (s : jsstring) (c : codeUnit) (l : jsstring) :
  isTokenChar c = false -> numberAtEnd (s ++ c :: l) = false.
Proof.
  intros Hc. destruct (numberAtEnd (s ++ c :: l)) eqn:E; [|reflexivity].
  apply numberAtEnd_tokenChars in E.
  rewrite forallb_app in E. apply andb_true_iff in E as [_ E].
  cbn [forallb] in E. rewrite Hc in E. discriminate E.
Qed.

(** Putting a minus before an unsigned trailing number: the pattern finds
    the same prefix, and the number with its sign. *)
Lemma matchTrailing_add_sign (p l : jsstring) :
  existsb isLineTerminator p = false ->
  numberAtEnd l = true ->
  startsWith [ch "-"] l = false ->
  matchTrailing (p ++ ch "-" :: l) = Some (p, ch "-" :: l).
Proof.
  intros Hp Hl Hs. apply matchTrailing_first; [exact Hp | |].
  - rewrite numberAtEnd_signed, <- numberAtEnd_unsigned; [exact Hl|].
    destruct l as [|c r]; [reflexivity|].
    destruct (numberAtEnd_chars c r Hl) as [Hc Hr].
    cbn [forallb]. rewrite Hr, andb_true_r.
    unfold isTokenChar in Hc. apply orb_true_iff in Hc as [Hc|Hc]; [exact Hc|].
    cbn [startsWith] in Hs. rewrite andb_true_r, N.eqb_sym in Hs. congruence.
  - intros q1 c q2 _. apply minus_inside_not_number.
Qed.

Definition hasDot (t : jsstring) : bool := existsb (N.eqb (ch ".")) t.

(** After a dot only digits can follow. *)
Lemma unsigned_after_dot (x t : jsstring) :
  unsignedAtEnd (x ++ ch "." :: t) = true -> forallb isDigit t = true.
Proof.
  unfold unsignedAtEnd. induction x as [|c x IH].
  - cbn [app]. rewrite skipDigits_cons.
    replace (isDigit (ch ".")) with false by reflexivity.
    rewrite skipOptional_hit. intros H.
    destruct (skipDigits t) eqn:E; [now apply skipDigits_nil | discriminate].
  - cbn [app]. rewrite skipDigits_cons. destruct (isDigit c) eqn:Hc; [exact IH|].
    destruct (N.eqb_spec c (ch ".")) as [->|Hne].
    + rewrite skipOptional_hit. intros H.
      destruct (skipDigits (x ++ ch "." :: t)) eqn:E; [|discriminate].
      apply skipDigits_nil in E. rewrite forallb_app in E.
      apply andb_true_iff in E as [_ E]. discriminate E.
    + rewrite skipOptional_miss by exact Hne. rewrite skipDigits_cons, Hc. discriminate.
Qed.

Lemma digits_no_dot (t : jsstring) : forallb isDigit t = true -> hasDot t = false.
Proof.
  unfold hasDot. induction t as [|c t IH]; [reflexivity|].
  cbn [forallb existsb]. intros H. apply andb_true_iff in H as [Hc Ht].
  rewrite (IH Ht), orb_false_r.
  destruct (N.eqb_spec (ch ".") c) as [<-|]; [discriminate Hc | reflexivity].
Qed.

(** Without a dot, an unsigned number is a run of digits. *)
Lemma unsigned_no_dot (t : jsstring) :
  unsignedAtEnd t = true -> hasDot t = false -> forallb isDigit t = true.
Proof.
  intros U. pose proof (unsignedAtEnd_chars t U) as C. clear U.
  unfold hasDot. induction t as [|c t IH]; [reflexivity|].
  cbn [forallb existsb] in *. apply andb_true_iff in C as [Hc Ht].
  intros H. apply orb_false_iff in H as [Hd Hr].
  rewrite (IH Ht Hr), andb_true_r.
  unfold isNumChar in Hc. apply orb_true_iff in Hc as [Hc|Hc]; [exact Hc|].
  rewrite N.eqb_sym in Hd. congruence.
Qed.

Lemma unsigned_cons_digit (c : codeUnit) (t : jsstring) :
  isDigit c = true -> unsignedAtEnd (c :: t) = unsignedAtEnd t.
Proof. intros Hc. unfold unsignedAtEnd. now rewrite skipDigits_cons, Hc. Qed.

Lemma unsigned_cons_dot (t : jsstring) :
  unsignedAtEnd (ch "." :: t) = match skipDigits t with [] => true | _ => false end.
Proof.
  unfold unsignedAtEnd. rewrite skipDigits_cons.
  replace (isDigit (ch ".")) with false by reflexivity.
  now rewrite skipOptional_hit.
Qed.

(** The sign of the trailing number [- t] stands alone after [prefix]:
    nothing, or a character that cannot belong to a number with [t],
    comes before it. *)
Definition signAlone (prefix t : jsstring) : bool :=
  match rev prefix with
  | [] => true
  | c :: _ =>
      if isDigit c || (c =? ch "-")%N then false
      else if (c =? ch ".")%N then hasDot t
      else true
  end.

(** With the sign alone, nothing of the prefix joins the number once the
    sign is gone. *)
Lemma number_after_dot (u t : jsstring) :
  numberAtEnd (u ++ ch "." :: t) = true -> forallb isDigit t = true.
Proof.
  destruct u as [|x u]; cbn [app]; intros N.
  - rewrite numberAtEnd_unsigned in N.
    + exact (unsigned_after_dot [] t N).
    + cbn [forallb]. now rewrite (proj2 (numberAtEnd_chars _ _ N)).
  - destruct (N.eqb_spec x (ch "-")) as [->|Hx].
    + rewrite numberAtEnd_signed in N. exact (unsigned_after_dot u t N).
    + destruct (numberAtEnd_chars _ _ N) as [Hx' Hr].
      rewrite numberAtEnd_unsigned in N.
      * exact (unsigned_after_dot (x :: u) t N).
      * cbn [forallb]. rewrite Hr, andb_true_r.
        unfold isTokenChar in Hx'. apply orb_true_iff in Hx' as [?|Hm]; [assumption|].
        apply N.eqb_eq in Hm. contradiction.
Qed.

Lemma alone_not_number (q1 : jsstring) (c : codeUnit) (q2 t : jsstring) :
  signAlone (q1 ++ c :: q2) t = true ->
  numberAtEnd (c :: q2 ++ t) = false.
Proof.
  intros H. unfold signAlone in H.
  destruct (exists_last (l := c :: q2)) as (u & d & E); [discriminate|].
  replace (q1 ++ c :: q2) with ((q1 ++ u) ++ [d]) in H
    by (rewrite <- app_assoc, <- E; reflexivity).
  rewrite rev_app_distr in H. cbn [rev app] in H.
  change (c :: q2 ++ t) with ((c :: q2) ++ t). rewrite E, <- app_assoc. cbn [app].
  destruct (isDigit d || (d =? ch "-")%N) eqn:Hd; [discriminate|].
  apply orb_false_iff in Hd as [Hd1 Hd2].
  destruct (N.eqb_spec d (ch ".")) as [->|Hne].
  - destruct (numberAtEnd (u ++ ch "." :: t)) eqn:N; [|reflexivity].
    apply number_after_dot, digits_no_dot in N. congruence.
  - apply (other_char_not_number u d t).
    unfold isTokenChar, isNumChar. rewrite Hd1, Hd2.
    destruct (N.eqb_spec d (ch ".")); [contradiction | reflexivity].
Qed.

(** Taking a minus that stands alone away: the pattern finds the same
    prefix, and the number without its sign. *)
Lemma matchTrailing_drop_alone (p t : jsstring) :
  existsb isLineTerminator p = false ->
  numberAtEnd (ch "-" :: t) = true ->
  signAlone p t = true ->
  matchTrailing (p ++ t) = Some (p, t).
Proof.
  intros Hp Ht Hd.
  apply matchTrailing_first; [exact Hp | |].
  - rewrite numberAtEnd_unsigned by (apply (numberAtEnd_chars (ch "-") t Ht)).
    now rewrite <- numberAtEnd_signed.
  - intros q1 c q2 ->. now apply (alone_not_number q1 c q2 t).
Qed.

(** A sign that does not stand alone: the character before it goes on with
    the digits once the sign is gone. *)
Lemma joined_number (q : jsstring) (c : codeUnit) (t : jsstring) :
  numberAtEnd (ch "-" :: t) = true ->
  signAlone (q ++ [c]) t = false ->
  numberAtEnd (c :: t) = true.
Proof.
  intros Hn H. unfold signAlone in H.
  rewrite rev_app_distr in H. cbn [rev app] in H.
  pose proof Hn as U. rewrite numberAtEnd_signed in U.
  destruct (isDigit c) eqn:Hc.
  - rewrite numberAtEnd_unsigned.
    + now rewrite unsigned_cons_digit.
    + cbn [forallb]. rewrite (unsignedAtEnd_chars t U), andb_true_r.
      unfold isNumChar. now rewrite Hc.
  - cbn [orb] in H. destruct (N.eqb_spec c (ch "-")) as [->|Hm]; [exact Hn|].
    destruct (N.eqb_spec c (ch ".")) as [->|Hd]; [|discriminate H].
    rewrite numberAtEnd_unsigned.
    + rewrite unsigned_cons_dot.
      now rewrite (skipDigits_all t (unsigned_no_dot t U H)).
    + cbn [forallb]. now rewrite (unsignedAtEnd_chars t U).
Qed.

(** The first group ends no later than any position from which the rest
    is a number. *)
Lemma lazyPrefix_le (x y p l : jsstring) :
  lazyPrefix (x ++ y) = Some (p, l) -> numberAtEnd y = true ->
  exists u, x = p ++ u.
Proof.
  revert p. induction x as [|c x IH]; intros p H Hy.
  - cbn [app] in H. rewrite lazyPrefix_eq in H.
    destruct y as [|d y]; rewrite Hy in H; injection H as <- _; now exists [].
  - cbn [app] in H. rewrite lazyPrefix_eq in H.
    destruct (numberAtEnd (c :: x ++ y)).
    + injection H as <- _. now exists (c :: x).
    + destruct (isLineTerminator c); [discriminate|].
      destruct (lazyPrefix (x ++ y)) as [[p' l']|] eqn:E; [|discriminate].
      injection H as <- <-. destruct (IH p' eq_refl Hy) as [u ->].
      now exists u.
Qed.

Lemma signAlone_false (p t : jsstring) :
  signAlone p t = false -> exists q c, p = q ++ [c].
Proof.
  unfold signAlone. destruct (rev p) as [|c r] eqn:R; [discriminate|].
  intros _. exists (rev r), c.
  apply (f_equal (@rev codeUnit)) in R. now rewrite rev_involutive in R.
Qed.

(** C1 (as amended).  On an expression without line terminators whose
    trailing number parses, negating twice gives the expression back
    exactly when the trailing number carries no sign, or carries a sign
    that stands alone: nothing comes before the sign, or a character that
    is neither a digit nor a minus nor a dot the digits could follow. *)
Theorem negate_twice_restores (st : page) (prefix last : jsstring) :
  existsb isLineTerminator (expr st) = false ->
  matchTrailing (expr st) = Some (prefix, last) ->
  isNaN (parseFloat last) = false ->
  (expr (negateLastNumber (negateLastNumber st)) = expr st
   <-> startsWith [ch "-"] last = false \/ signAlone prefix (slice1 last) = true).
Proof.
  intros HT Hm Hp.
  destruct (matchTrailing_number _ _ _ Hm) as [Hn E].
  rewrite lastLine_free in E by exact HT.
  assert (HTp : existsb isLineTerminator prefix = false).
  { rewrite E, existsb_app in HT. now apply orb_false_iff in HT. }
  destruct (parseable_nonempty last Hp) as [Hne Hne'].
  assert (Ht : truthy last = true) by (destruct last; [contradiction | reflexivity]).
  pose proof (negate_expr st prefix last Hm) as E1. rewrite Ht in E1.
  destruct (startsWith [ch "-"] last) eqn:Sg.
  - apply startsWith_minus in Sg as [t ->]. cbn [slice1 tl] in E1 |- *.
    assert (Htt : truthy t = true).
    { destruct t; [now elim Hne' | reflexivity]. }
    assert (Sg' : startsWith [ch "-"] t = false).
    { destruct t as [|c r]; [reflexivity|].
      destruct (numberAtEnd_chars (ch "-") (c :: r) Hn) as [_ Hc].
      cbn [forallb] in Hc. apply andb_true_iff in Hc as [Hc _].
      cbn [startsWith]. rewrite andb_true_r.
      destruct (N.eqb_spec (ch "-") c) as [<-|]; [discriminate Hc | reflexivity]. }
    destruct (signAlone prefix t) eqn:Al.
    + (* the sign is taken away, then put back *)
      split; [auto|]. intros _.
      assert (Hm1 : matchTrailing (expr (negateLastNumber st)) = Some (prefix, t)).
      { rewrite E1. now apply matchTrailing_drop_alone. }
      rewrite (negate_expr _ prefix t Hm1), Htt, Sg'. now rewrite E.
    + (* the character before the sign joins the number *)
      split; [|intros [?|?]; discriminate]. intros R. exfalso.
      destruct (signAlone_false _ _ Al) as (q & c & ->).
      pose proof (joined_number q c t Hn Al) as J.
      assert (HT1 : existsb isLineTerminator (expr (negateLastNumber st)) = false).
      { rewrite E1, existsb_app, HTp. cbn [orb].
        rewrite E, existsb_app in HT. apply orb_false_iff in HT as [_ HT].
        cbn [existsb] in HT. now apply orb_false_iff in HT. }
      destruct (matchTrailing_total (expr (negateLastNumber st))) as (p' & l' & Hm1 & E' & Hn').
      rewrite lastLine_free in E' by exact HT1.
      pose proof Hm1 as L. rewrite matchTrailing_lastLine, lastLine_free in L by exact HT1.
      rewrite E1, <- app_assoc in L. cbn [app] in L.
      destruct (lazyPrefix_le q (c :: t) p' l' L J) as [u ->].
      rewrite E1, <- !app_assoc in E'. apply app_inv_head in E'. cbn [app] in E'.
      rewrite (negate_expr _ _ _ Hm1) in R.
      assert (Hl : truthy l' = true) by (rewrite <- E'; now destruct u).
      rewrite Hl, E in R. rewrite <- !app_assoc in R. apply app_inv_head in R.
      cbn [app] in R.
      destruct (startsWith [ch "-"] l') eqn:S1.
      * apply (f_equal (@List.length codeUnit)) in R.
        apply startsWith_minus in S1 as [r ->]. cbn [slice1 tl] in R.
        apply (f_equal (@List.length codeUnit)) in E'.
        rewrite !length_app in *. cbn [List.length] in *. lia.
      * subst l'. destruct u as [|x u]; cbn [app] in R, S1; injection R as R _;
          subst; cbn [startsWith] in S1; rewrite N.eqb_refl in S1; discriminate S1.
  - (* unsigned: the sign is put, then taken away *)
    split; [auto|]. intros _.
    assert (Hm1 : matchTrailing (expr (negateLastNumber st)) = Some (prefix, ch "-" :: last)).
    { rewrite E1. now apply matchTrailing_add_sign. }
    rewrite (negate_expr _ prefix (ch "-" :: last) Hm1).
    cbn [truthy startsWith slice1 tl]. rewrite N.eqb_refl. cbn [andb].
    now rewrite E.
Qed.

Lemma negate_twice_restores_witness :
  expr (negateLastNumber (negateLastNumber (typed "2*-3"))) = str "2*-3"
  /\ expr (negateLastNumber (negateLastNumber (typed "5+3.5"))) = str "5+3.5"
  /\ expr (negateLastNumber (negateLastNumber (typed "5-3"))) <> str "5-3".
Proof.
  split; [|split].
  - exact (proj2 (negate_twice_restores (typed "2*-3") (str "2*") (str "-3")
                    eq_refl eq_refl eq_refl) (or_intror eq_refl)).
  - exact (proj2 (negate_twice_restores (typed "5+3.5") (str "5+") (str "3.5")
                    eq_refl eq_refl eq_refl) (or_introl eq_refl)).
  - intros R.
    destruct (proj1 (negate_twice_restores (typed "5-3") (str "5") (str "-3")
                       eq_refl eq_refl eq_refl) R) as [H|H]; discriminate H.
Defined.

(** C1 as the specification states it fails: 5-3 ends in a number that
    parses, and two negations leave -53. *)
Lemma negate_twice_counterexample :
  ~ (forall (st : page) (prefix last : jsstring),
       matchTrailing (expr st) = Some (prefix, last) ->
       isNaN (parseFloat last) = false ->
       expr (negateLastNumber (negateLastNumber st)) = expr st).
Proof.
  intros H.
  specialize (H (typed "5-3") (str "5") (str "-3") eq_refl eq_refl).
  discriminate H.
Qed.

Example negate_5_minus_3 :
  expr (typed "5-3") = str "5-3"
  /\ expr (negateLastNumber (typed "5-3")) = str "53"
  /\ expr (negateLastNumber (negateLastNumber (typed "5-3"))) = str "-53".
Proof. repeat split. Qed.


(** *** parseFloat on a run of digits *)

Lemma takeDigits_all (ds : jsstring) :
  forallb isDigit ds = true -> takeDigits ds = (ds, []).
Proof.
  induction ds as [|c r IH]; [reflexivity|].
  cbn [forallb takeDigits]. intros H. apply andb_true_iff in H as [Hc Hr].
  now rewrite Hc, IH.
Qed.

Lemma roundPos_number (neg : bool) (a b : Z) : isNaN (roundPos neg a b) = false.
Proof.
  unfold roundPos.
  repeat match goal with
  | |- context [if ?c then _ else _] => destruct c
  end; reflexivity.
Qed.

Lemma roundQ_number (neg : bool) (q : Q) : isNaN (roundQ neg q) = false.
Proof. apply roundPos_number. Qed.

Lemma digit_not_I (c : codeUnit) (r : jsstring) :
  isDigit c = true -> startsWith (str "Infinity") (c :: r) = false.
Proof.
  unfold isDigit. intros H. apply andb_true_iff in H as [_ H].
  cbn [str list_ascii_of_string List.map startsWith].
  destruct (N.eqb_spec (N_of_ascii "I") c) as [<-|]; [discriminate H | reflexivity].
Qed.

Lemma literal_digits (neg : bool) (ds : jsstring) :
  ds <> [] -> forallb isDigit ds = true ->
  strUnsignedDecimalLiteral neg ds = roundQ neg (scale10 (valueOf ds) 0).
Proof.
  intros Hne Hd. unfold strUnsignedDecimalLiteral.
  destruct ds as [|c r]; [contradiction|].
  rewrite digit_not_I by (cbn [forallb] in Hd; now apply andb_true_iff in Hd).
  now rewrite (takeDigits_all _ Hd).
Qed.

Lemma parseFloat_minus_digits (ds : jsstring) :
  ds <> [] -> forallb isDigit ds = true ->
  parseFloat (ch "-" :: ds) = roundQ true (scale10 (valueOf ds) 0).
Proof. intros Hne Hd. unfold parseFloat. cbn [trimStart]. now apply literal_digits. Qed.

Lemma unsignedAtEnd_digits (ds : jsstring) :
  forallb isDigit ds = true -> unsignedAtEnd ds = true.
Proof. intros H. unfold unsignedAtEnd. now rewrite (skipDigits_all ds H). Qed.

Lemma percent_result (st : page) (p l : jsstring) :
  matchTrailing (expr st) = Some (p, l) ->
  isNaN (parseFloat l) = false ->
  percentLastNumber st =
  updateDisplay (setExpr st (p ++ toString (div (parseFloat l) (ofZ 100)))).
Proof.
  intros Hm Hp. unfold percentLastNumber. rewrite Hm.
  destruct l as [|c r]; [discriminate Hp|].
  cbn [truthy negb]. now rewrite Hp.
Qed.

(** C10. A minus right before the final run of digits belongs to the
    trailing number for the pattern, whatever comes before it: the second
    capture is the minus with the digits, the first is the text before the
    minus (on its last line); negating takes that minus away and the
    percent key divides the negative number. *)
Theorem minus_before_digits_is_sign (p ds : jsstring) :
  forallb isDigit ds = true ->
  matchTrailing (p ++ [ch "-"] ++ ds) = Some (lastLine p, [ch "-"] ++ ds)
  /\ forall st, expr st = p ++ [ch "-"] ++ ds ->
       expr (negateLastNumber st) = lastLine p ++ ds
       /\ (ds <> [] ->
           parseFloat ([ch "-"] ++ ds) = roundQ true (scale10 (valueOf ds) 0)
           /\ expr (percentLastNumber st) =
              lastLine p ++ toString (div (parseFloat ([ch "-"] ++ ds)) (ofZ 100))).
Proof.
  intros Hd. cbn [app].
  assert (Hn : numberAtEnd (ch "-" :: ds) = true)
    by (rewrite numberAtEnd_signed; now apply unsignedAtEnd_digits).
  assert (Hm : matchTrailing (p ++ ch "-" :: ds) = Some (lastLine p, ch "-" :: ds)).
  { rewrite matchTrailing_lastLine, lastLine_app
      by (now apply numberAtEnd_no_terminator).
    apply lazyPrefix_first; [apply lastLine_no_terminator | exact Hn |].
    intros q1 c q2 _. apply minus_inside_not_number. }
  split; [exact Hm|]. intros st E. rewrite <- E in Hm. split.
  - rewrite (negate_expr st _ _ Hm). cbn [truthy startsWith slice1 tl].
    now rewrite N.eqb_refl.
  - intros Hne. pose proof (parseFloat_minus_digits ds Hne Hd) as P.
    split; [exact P|].
    rewrite (percent_result st _ _ Hm); [reflexivity|].
    rewrite P. apply roundQ_number.
Qed.

Lemma minus_before_digits_is_sign_witness :
  matchTrailing (str "5-3") = Some (str "5", str "-3")
  /\ expr (negateLastNumber (typed "5-3")) = str "53"
  /\ expr (percentLastNumber (typed "5-3")) = str "5-0.03".
Proof.
  destruct (minus_before_digits_is_sign (str "5") (str "3") eq_refl) as [H1 H2].
  destruct (H2 (typed "5-3") eq_refl) as [H3 H4].
  split; [exact H1 | split; [exact H3|]].
  destruct H4 as [_ H4]; [discriminate|]. exact H4.
Defined.

(** C5. With a trailing number that parses, the percent key puts the plain
    string form of that number divided by 100 in its place, after the same
    prefix; otherwise it changes nothing.  The prefix is the pattern's first
    capture: all the text before the number when the expression has no line
    terminator. *)
Theorem percent_replaces_trailing_number (st : page) (prefix last : jsstring) :
  matchTrailing (expr st) = Some (prefix, last) ->
  (isNaN (parseFloat last) = false ->
     percentLastNumber st =
     updateDisplay (setExpr st (prefix ++ toString (div (parseFloat last) (ofZ 100)))))
  /\ (isNaN (parseFloat last) = true -> percentLastNumber st = st)
  /\ (existsb isLineTerminator (expr st) = false -> expr st = prefix ++ last).
Proof.
  intros Hm. split; [|split].
  - now apply percent_result.
  - intros Hp. unfold percentLastNumber. rewrite Hm.
    destruct (truthy last); cbn [negb]; [now rewrite Hp | reflexivity].
  - intros HT. destruct (matchTrailing_number _ _ _ Hm) as [_ E].
    now rewrite lastLine_free in E.
Qed.

Lemma percent_replaces_trailing_number_witness :
  expr (percentLastNumber (typed "2*7.5")) = str "2*0.075"
  /\ percentLastNumber (typed "2*") = typed "2*".
Proof.
  destruct (percent_replaces_trailing_number (typed "2*7.5") (str "2*") (str "7.5") eq_refl)
    as [H1 _].
  destruct (percent_replaces_trailing_number (typed "2*") (str "2*") [] eq_refl)
    as [_ [H2 _]].
  split.
  - rewrite (H1 eq_refl). reflexivity.
  - exact (H2 eq_refl).
Defined.

(** The percent key does not go through the result formatter: here the
    quotient is written in full, where the formatter would round it to 0. *)
Example percent_is_not_formatted :
  expr (percentLastNumber (typed "0.00000000001")) = str "9.999999999999999e-14"
  /\ Scientific.formatResult (div (parseFloat (str "0.00000000001")) (ofZ 100)) = str "0".
Proof. split; vm_compute; reflexivity. Qed.

End Buffer.

(* ================================================================== *)
(** ** Facts about the number model *)
(* ================================================================== *)

Module NumberFacts.
Import JSString JSNumber.
Local Open Scope Z_scope.

Lemma Qred_inject_Z (k : Z) : Qred (inject_Z k) = inject_Z k.
Proof.
  unfold Qred, inject_Z.
  pose proof (Z.ggcd_gcd k 1) as G.
  pose proof (Z.ggcd_correct_divisors k 1) as D.
  destruct (Z.ggcd k 1) as [g [aa bb]]. cbn [fst snd] in *.
  rewrite Z.gcd_1_r in G. subst g. destruct D as [Ha Hb].
  rewrite !Z.mul_1_l in *. subst. reflexivity.
Qed.

Lemma ilog2_integer (k : Z) : 0 < k -> ilog2 k 1 = Z.log2 k.
Proof.
  intros Hk. unfold ilog2. change (Z.log2 1) with 0. rewrite Z.sub_0_r.
  pose proof (Z.log2_nonneg k) as HL.
  destruct (Z.log2_spec k Hk) as [Hlo _].
  rewrite (Z.max_l 0 (- Z.log2 k)) by lia.
  rewrite (Z.max_r 0 (Z.log2 k)) by lia.
  rewrite Z.pow_0_r, Z.mul_1_r, Z.mul_1_l.
  destruct (Z.ltb_spec k (2 ^ Z.log2 k)); [lia | reflexivity].
Qed.

(** An integer below [2^53] is a double: rounding leaves it as it is. *)
Lemma roundPos_integer (neg : bool) (k : Z) :
  0 < k < 2 ^ 53 ->
  roundPos neg k 1 = Fin neg (k * 2 ^ (52 - Z.log2 k)) (Z.log2 k - 52).
Proof.
  intros [Hk Hk53]. unfold roundPos.
  destruct (Z.eqb_spec k 0) as [->|_]; [lia|].
  rewrite (ilog2_integer k Hk).
  pose proof (Z.log2_nonneg k) as HL.
  assert (HL52 : Z.log2 k < 53) by (apply Z.log2_lt_pow2; assumption).
  destruct (Z.log2_spec k Hk) as [Hlo Hhi].
  unfold emin, emax.
  rewrite (Z.max_l (Z.log2 k - 52) (-1074)) by lia.
  rewrite (Z.max_r 0 (- (Z.log2 k - 52))) by lia.
  rewrite (Z.max_l 0 (Z.log2 k - 52)) by lia.
  replace (- (Z.log2 k - 52)) with (52 - Z.log2 k) by lia.
  rewrite Z.pow_0_r, Z.mul_1_l, Z.div_1_r, Z.mod_1_r.
  cbn [Z.mul Z.ltb Z.eqb Z.compare andb orb].
  assert (Hm : k * 2 ^ (52 - Z.log2 k) < 2 ^ 53).
  { replace (2 ^ 53) with (2 ^ Z.succ (Z.log2 k) * 2 ^ (52 - Z.log2 k)).
    - apply Z.mul_lt_mono_pos_r; [apply Z.pow_pos_nonneg; lia | exact Hhi].
    - rewrite <- Z.pow_add_r by lia. f_equal. lia. }
  destruct (Z.eqb_spec (k * 2 ^ (52 - Z.log2 k)) (2 ^ 53)); [lia|].
  destruct (Z.ltb_spec 971 (Z.log2 k - 52)); [lia|].
  reflexivity.
Qed.

Lemma mag_integer (k : Z) :
  0 < k < 2 ^ 53 -> (mag (k * 2 ^ (52 - Z.log2 k)) (Z.log2 k - 52) == inject_Z k)%Q.
Proof.
  intros [Hk Hk53]. unfold mag, Qeq, inject_Z. cbn [Qnum Qden].
  pose proof (Z.log2_nonneg k) as HL.
  assert (HL52 : Z.log2 k < 53) by (apply Z.log2_lt_pow2; assumption).
  rewrite (Z.max_l 0 (Z.log2 k - 52)) by lia.
  rewrite (Z.max_r 0 (- (Z.log2 k - 52))) by lia.
  replace (- (Z.log2 k - 52)) with (52 - Z.log2 k) by lia.
  rewrite Z2Pos.id by (apply Z.pow_pos_nonneg; lia).
  rewrite Z.pow_0_r. ring.
Qed.

Lemma ofQ_compat (q q' : Q) : (q == q')%Q -> ofQ q = ofQ q'.
Proof.
  intros E. unfold ofQ.
  assert (B : Qle_bool 0 q = Qle_bool 0 q').
  { destruct (Qle_bool 0 q) eqn:A; destruct (Qle_bool 0 q') eqn:A'; try reflexivity.
    - apply Qle_bool_iff in A. rewrite E in A. apply Qle_bool_iff in A. congruence.
    - apply Qle_bool_iff in A'. rewrite <- E in A'. apply Qle_bool_iff in A'. congruence. }
  rewrite B. unfold roundQ.
  destruct (Qle_bool 0 q').
  - now rewrite (Qred_complete _ _ E).
  - assert (E' : (- q == - q')%Q) by now rewrite E.
    now rewrite (Qred_complete _ _ E').
Qed.

Lemma ofZ_integer (k : Z) :
  0 < k < 2 ^ 53 -> ofZ k = Fin false (k * 2 ^ (52 - Z.log2 k)) (Z.log2 k - 52).
Proof.
  intros Hk. unfold ofZ, ofQ.
  replace (Qle_bool 0 (inject_Z k)) with true.
  - unfold roundQ. rewrite Qred_inject_Z. cbn [inject_Z Qnum Qden].
    now apply roundPos_integer.
  - symmetry. apply Qle_bool_iff. unfold Qle. cbn [inject_Z Qnum Qden]. lia.
Qed.


(** The double of an integer below [2^53] has that integer as its value. *)
Lemma ofZ_value (k : Z) :
  0 < k < 2 ^ 53 ->
  exists m e, ofZ k = Fin false m e /\ 0 < m /\ (mag m e == inject_Z k)%Q.
Proof.
  intros Hk. exists (k * 2 ^ (52 - Z.log2 k)), (Z.log2 k - 52).
  split; [now apply ofZ_integer | split; [|now apply mag_integer]].
  assert (Z.log2 k < 53) by (apply Z.log2_lt_pow2; lia).
  apply Z.mul_pos_pos; [lia | apply Z.pow_pos_nonneg; lia].
Qed.

(** [i++] is exact below [2^53]. *)
Lemma add_one_integer (i : Z) :
  0 < i -> i + 1 < 2 ^ 53 -> add (ofZ i) (ofZ 1) = ofZ (i + 1).
Proof.
  intros Hi Hi1.
  destruct (ofZ_value i) as (m & e & E & Hm & V); [lia|].
  rewrite E. change (ofZ 1) with (Fin false 4503599627370496 (-52)).
  unfold add.
  destruct (Z.eqb_spec m 0); [lia|]. cbn [andb].
  unfold ofZ. apply ofQ_compat. cbn [toQ]. rewrite V.
  rewrite inject_Z_plus. apply Qplus_comp; [reflexivity|]. reflexivity.
Qed.

(** [i <= n] on the doubles of integers below [2^53] is the order of the
    integers. *)
Lemma leb_integer (i n : Z) :
  0 < i < 2 ^ 53 -> 0 < n < 2 ^ 53 -> leb (ofZ i) (ofZ n) = (i <=? n).
Proof.
  intros Hi Hn.
  destruct (ofZ_value i Hi) as (m & e & -> & _ & V).
  destruct (ofZ_value n Hn) as (m' & e' & -> & _ & V').
  unfold leb, ltb, strictEq. cbn [toQ].
  destruct (Z.leb_spec i n) as [L|L].
  - destruct (Qle_bool (mag m' e') (mag m e)) eqn:A; [|reflexivity].
    cbn [negb orb]. apply Qeq_bool_iff. apply Qle_bool_iff in A.
    rewrite V, V' in A. rewrite <- Zle_Qle in A.
    rewrite V, V'. apply inject_Z_injective. lia.
  - assert (A : Qle_bool (mag m' e') (mag m e) = true).
    { apply Qle_bool_iff. rewrite V, V', <- Zle_Qle. lia. }
    rewrite A. cbn [negb orb].
    destruct (Qeq_bool (mag m e) (mag m' e')) eqn:B; [|reflexivity].
    apply Qeq_bool_iff in B. rewrite V, V' in B.
    apply (proj1 (inject_Z_injective i n)) in B. lia.
Qed.

Lemma leb_integer_zero (i : Z) : 0 < i < 2 ^ 53 -> leb (ofZ i) (ofZ 0) = false.
Proof.
  intros Hi. destruct (ofZ_value i Hi) as (m & e & -> & Hm & V).
  change (ofZ 0) with (Fin false 0 (-1074)).
  unfold leb, ltb, strictEq. cbn [toQ].
  assert (Z0 : (mag 0 (-1074) == 0)%Q) by reflexivity.
  assert (A : Qle_bool (mag 0 (-1074)) (mag m e) = true).
  { apply Qle_bool_iff. rewrite V, Z0. change 0%Q with (inject_Z 0).
    rewrite <- Zle_Qle. lia. }
  rewrite A. cbn [negb orb].
  destruct (Qeq_bool (mag m e) (mag 0 (-1074))) eqn:B; [|reflexivity].
  apply Qeq_bool_iff in B. rewrite V, Z0 in B. change 0%Q with (inject_Z 0) in B.
  apply (proj1 (inject_Z_injective i 0)) in B. lia.
Qed.

End NumberFacts.

(* ================================================================== *)
(** ** Rounding to the nearest double *)
(* ================================================================== *)

Module RoundingFacts.
Import JSString JSNumber NumberFacts.
Local Open Scope Z_scope.

(** [b * 2^t <= a], with the power on the side where its exponent is not
    negative. *)
Definition scaledLe (b a t : Z) : Prop :=
  b * 2 ^ Z.max 0 t <= a * 2 ^ Z.max 0 (- t).

Lemma pow2_pos (k : Z) : 0 <= k -> 0 < 2 ^ k.
Proof. intros H. apply Z.pow_pos_nonneg; lia. Qed.

(** The same comparison with both powers shifted by [K]. *)
Lemma scaledLe_norm (b a t K : Z) :
  0 <= K -> 0 <= K + t ->
  (scaledLe b a t <-> b * 2 ^ (K + t) <= a * 2 ^ K).
Proof.
  intros HK HKt. unfold scaledLe.
  destruct (Z.le_gt_cases 0 t) as [Ht|Ht].
  - rewrite (Z.max_r 0 t), (Z.max_l 0 (- t)) by lia.
    rewrite Z.pow_0_r, Z.mul_1_r, Z.pow_add_r by lia.
    pose proof (pow2_pos K HK). split; intros H'; nia.
  - rewrite (Z.max_l 0 t), (Z.max_r 0 (- t)) by lia.
    rewrite Z.pow_0_r, Z.mul_1_r.
    replace K with ((K + t) + - t) at 2 by lia.
    rewrite (Z.pow_add_r 2 (K + t) (- t)) by lia.
    pose proof (pow2_pos (K + t) HKt). split; intros H'; nia.
Qed.

Lemma scaledLe_mono (b a t t' : Z) :
  0 < b -> t <= t' -> scaledLe b a t' -> scaledLe b a t.
Proof.
  intros Hb Htt H.
  set (K := Z.max 0 (- t)).
  apply (scaledLe_norm b a t K); [lia | lia |].
  apply (scaledLe_norm b a t' K) in H; [| lia | lia].
  eapply Z.le_trans; [|exact H].
  apply Z.mul_le_mono_nonneg_l; [lia|].
  apply Z.pow_le_mono_r; lia.
Qed.

(** [ilog2 a b] is the binary exponent of [a / b]. *)
Lemma ilog2_spec (a b : Z) :
  0 < a -> 0 < b ->
  scaledLe b a (ilog2 a b) /\ ~ scaledLe b a (ilog2 a b + 1).
Proof.
  intros Ha Hb.
  destruct (Z.log2_spec a Ha) as [A1 A2].
  destruct (Z.log2_spec b Hb) as [B1 B2].
  pose proof (Z.log2_nonneg a) as La. pose proof (Z.log2_nonneg b) as Lb.
  set (la := Z.log2 a) in *. set (lb := Z.log2 b) in *.
  rewrite <- Z.add_1_r in A2, B2.
  assert (Lo : scaledLe b a (la - lb - 1)).
  { apply (scaledLe_norm b a _ (lb + 1)); [lia | lia |].
    replace (lb + 1 + (la - lb - 1)) with la by lia.
    pose proof (pow2_pos la La). nia. }
  assert (Hi : ~ scaledLe b a (la - lb + 1)).
  { intros H. apply (scaledLe_norm b a _ (lb + 1)) in H; [| lia | lia].
    replace (lb + 1 + (la - lb + 1)) with ((la + 1) + 1) in H by lia.
    rewrite (Z.pow_add_r 2 (la + 1) 1), (Z.pow_add_r 2 lb 1) in H by lia.
    change (2 ^ 1) with 2 in H.
    pose proof (pow2_pos (la + 1) ltac:(lia)). pose proof (pow2_pos lb Lb). nia. }
  unfold ilog2. fold la lb.
  destruct (Z.ltb_spec (a * 2 ^ Z.max 0 (- (la - lb))) (b * 2 ^ Z.max 0 (la - lb)))
    as [T|T].
  - split; [exact Lo|].
    replace (la - lb - 1 + 1) with (la - lb) by lia.
    unfold scaledLe. lia.
  - split; [exact T | exact Hi].
Qed.

Lemma ilog2_unique (a b t : Z) :
  0 < a -> 0 < b ->
  scaledLe b a t -> ~ scaledLe b a (t + 1) -> ilog2 a b = t.
Proof.
  intros Ha Hb H1 H2.
  destruct (ilog2_spec a b Ha Hb) as [S1 S2].
  destruct (Z.lt_trichotomy (ilog2 a b) t) as [L|[E|L]]; [|exact E|].
  - elim S2. apply (scaledLe_mono b a _ t); [exact Hb | lia | exact H1].
  - elim H2. apply (scaledLe_mono b a _ (ilog2 a b)); [exact Hb | lia | exact S1].
Qed.


Lemma scaledLe_shift (b a t u : Z) :
  0 <= u ->
  (b * 2 ^ Z.max 0 t * 2 ^ u <= a * 2 ^ Z.max 0 (- t) <-> scaledLe b a (t + u)).
Proof.
  intros Hu.
  rewrite (scaledLe_norm b a (t + u) (Z.max 0 (- t))) by lia.
  replace (Z.max 0 (- t) + (t + u)) with (Z.max 0 t + u) by lia.
  rewrite Z.pow_add_r by lia. rewrite Z.mul_assoc. reflexivity.
Qed.

Lemma canonical_intro (m e : Z) :
  0 <= m < 2 ^ 53 -> emin <= e <= emax -> (2 ^ 52 <= m \/ e = emin) ->
  canonical m e = true.
Proof.
  intros [M1 M2] [E1 E2] H. unfold canonical.
  apply Z.leb_le in M1, E1, E2. apply Z.ltb_lt in M2.
  rewrite M1, M2, E1, E2. cbn [andb].
  destruct H as [H| ->]; [apply Z.leb_le in H; now rewrite H|].
  now rewrite Z.eqb_refl, orb_true_r.
Qed.

Lemma canonical_elim (m e : Z) :
  canonical m e = true ->
  0 <= m < 2 ^ 53 /\ emin <= e <= emax /\ (2 ^ 52 <= m \/ e = emin).
Proof.
  unfold canonical. intros H.
  repeat (apply andb_true_iff in H as [H ?]).
  repeat match goal with
  | H : (_ <=? _) = true |- _ => apply Z.leb_le in H
  | H : (_ <? _) = true |- _ => apply Z.ltb_lt in H
  end.
  repeat split; try assumption.
  match goal with H : _ || _ = true |- _ => apply orb_true_iff in H as [H|H] end.
  - left. now apply Z.leb_le.
  - right. now apply Z.eqb_eq.
Qed.

(** What the rounding works on: the scaled numerator and denominator, and
    the bounds of their quotient. *)
Lemma roundPos_bounds (a b : Z) :
  0 < a -> 0 < b ->
  let e := Z.max (ilog2 a b - 52) emin in
  let n := a * 2 ^ Z.max 0 (- e) in
  let d := b * 2 ^ Z.max 0 e in
  0 < d /\ 0 <= n / d < 2 ^ 53 /\ (emin < e -> 2 ^ 52 <= n / d).
Proof.
  intros Ha Hb e n d.
  destruct (ilog2_spec a b Ha Hb) as [S1 S2].
  assert (Hd : 0 < d) by (apply Z.mul_pos_pos; [exact Hb | apply pow2_pos; lia]).
  assert (Hn : 0 <= n).
  { apply Z.mul_nonneg_nonneg; [lia | apply Z.lt_le_incl, pow2_pos; lia]. }
  assert (Up : n < d * 2 ^ 53).
  { apply Z.nle_gt. intros H. unfold n, d in H.
    apply (scaledLe_shift b a e 53) in H; [|lia].
    elim S2. apply (scaledLe_mono b a _ (e + 53)); [exact Hb | unfold e; lia | exact H]. }
  split; [exact Hd|]. split; [split|].
  - apply Z.div_pos; assumption.
  - apply Z.div_lt_upper_bound; [exact Hd | lia].
  - intros He. apply Z.div_le_lower_bound; [exact Hd|].
    assert (E : e + 52 = ilog2 a b) by (unfold e in *; lia).
    rewrite <- E in S1. apply (scaledLe_shift b a e 52) in S1; [|lia].
    unfold n, d. lia.
Qed.

(** Rounding gives a double. *)
Lemma roundPos_double (neg : bool) (a b : Z) :
  0 <= a -> 0 < b -> isDouble (roundPos neg a b) = true.
Proof.
  intros Ha Hb. unfold roundPos.
  destruct (Z.eqb_spec a 0) as [_|Hne]; [reflexivity|].
  destruct (roundPos_bounds a b ltac:(lia) Hb) as (Hd & [M1 M2] & M3).
  set (e := Z.max (ilog2 a b - 52) emin) in *.
  set (n := a * 2 ^ Z.max 0 (- e)) in *.
  set (d := b * 2 ^ Z.max 0 e) in *.
  set (m' := if (d <? 2 * (n mod d)) || (d =? 2 * (n mod d)) && Z.odd (n / d)
             then n / d + 1 else n / d).
  assert (Hm' : n / d <= m' <= n / d + 1).
  { unfold m'. destruct ((d <? 2 * (n mod d)) || (d =? 2 * (n mod d)) && Z.odd (n / d)); lia. }
  assert (He : emin <= e) by (unfold e; lia).
  destruct (Z.eqb_spec m' (2 ^ 53)) as [E|NE].
  - destruct (Z.ltb_spec emax (e + 1)); [reflexivity|].
    cbn [isDouble]. apply canonical_intro; [|lia|left; lia].
    split; [|reflexivity]. discriminate.
  - destruct (Z.ltb_spec emax e); [reflexivity|].
    cbn [isDouble]. apply canonical_intro; [lia | lia |].
    destruct (Z.eq_dec e emin) as [->|]; [now right|]. left. lia.
Qed.

Lemma roundQ_double (neg : bool) (q : Q) :
  (0 <= q)%Q -> isDouble (roundQ neg q) = true.
Proof.
  intros Hq. unfold roundQ. apply roundPos_double; [|reflexivity].
  rewrite <- (Qred_correct q) in Hq. unfold Qle in Hq. cbn in Hq. lia.
Qed.

(** The sign plays no part in the rounding. *)
Lemma roundPos_sign (neg : bool) (a b : Z) (m e : Z) :
  roundPos false a b = Fin false m e -> roundPos neg a b = Fin neg m e.
Proof.
  unfold roundPos.
  repeat match goal with
  | |- context [if ?c then _ else _] => destruct c
  end; intros [= <- <-] || discriminate; reflexivity.
Qed.

Lemma mag_pos (m e : Z) : 0 < m -> (0 < mag m e)%Q.
Proof.
  intros Hm. unfold mag, Qlt. cbn [Qnum Qden]. rewrite Z.mul_0_l, Z.mul_1_r.
  apply Z.mul_pos_pos; [exact Hm | apply pow2_pos; lia].
Qed.

(** A double is the nearest double to its own value. *)
Lemma roundQ_exact (neg : bool) (m e : Z) :
  canonical m e = true -> 0 < m -> roundQ neg (mag m e) = Fin neg m e.
Proof.
  intros Hc Hm. apply canonical_elim in Hc as ([_ M2] & [E1 E2] & Hn).
  unfold roundQ.
  pose proof (Qred_correct (mag m e)) as E.
  pose proof (mag_pos m e Hm) as P. rewrite <- E in P.
  destruct (Qred (mag m e)) as [a b]. cbn [Qnum Qden].
  unfold Qlt in P. cbn in P. rewrite Z.mul_1_r in P.
  unfold Qeq, mag in E. cbn [Qnum Qden] in E.
  rewrite Z2Pos.id in E by (apply pow2_pos; lia).
  (* E : a * 2 ^ max 0 (- e) = m * 2 ^ max 0 e * b *)
  assert (Hb : 0 < Z.pos b) by reflexivity.
  set (B := Z.pos b) in *.
  destruct (Z.log2_spec m Hm) as [L1 L2]. rewrite <- Z.add_1_r in L2.
  pose proof (Z.log2_nonneg m) as L0.
  assert (L52 : Z.log2 m < 53) by (apply Z.log2_lt_pow2; lia).
  assert (P1 : 0 < 2 ^ Z.max 0 e) by (apply pow2_pos; lia).
  assert (P2 : 0 < 2 ^ Z.max 0 (- e)) by (apply pow2_pos; lia).
  assert (S1 : scaledLe B a (e + Z.log2 m)).
  { apply (scaledLe_shift B a e (Z.log2 m)); [lia|]. rewrite E. nia. }
  assert (S2 : ~ scaledLe B a (e + Z.log2 m + 1)).
  { intros H. rewrite <- Z.add_assoc in H.
    apply (scaledLe_shift B a e (Z.log2 m + 1)) in H; [|lia]. rewrite E in H. nia. }
  unfold roundPos.
  destruct (Z.eqb_spec a 0); [lia|].
  rewrite (ilog2_unique a B (e + Z.log2 m) P Hb S1 S2).
  assert (Ee : Z.max (e + Z.log2 m - 52) emin = e).
  { destruct Hn as [Hn| ->].
    - assert (52 <= Z.log2 m) by (apply Z.log2_le_pow2; lia). lia.
    - lia. }
  rewrite Ee, E.
  replace (m * 2 ^ Z.max 0 e * B) with (m * (B * 2 ^ Z.max 0 e)) by ring.
  assert (Hd : 0 < B * 2 ^ Z.max 0 e) by (apply Z.mul_pos_pos; assumption).
  rewrite Z.div_mul, Z.mod_mul by lia.
  rewrite Z.mul_0_r.
  destruct (Z.ltb_spec (B * 2 ^ Z.max 0 e) 0); [lia|].
  destruct (Z.eqb_spec (B * 2 ^ Z.max 0 e) 0); [lia|].
  cbn [orb andb].
  destruct (Z.eqb_spec m (2 ^ 53)); [lia|].
  destruct (Z.ltb_spec emax e); [lia|].
  reflexivity.
Qed.

End RoundingFacts.

(* ================================================================== *)
(** ** The function applicator *)
(* ================================================================== *)

Section Functions.
Import JSString JSNumber Page Scientific TrailingFacts NumberFacts.
Local Open Scope Z_scope.

Variable M : MathHost.

(** The names the switch of [applySciFunction] evaluates. *)
Definition evaluatingFunctions : list jsstring :=
  List.map str
    ["sin"; "cos"; "tan"; "asin"; "acos"; "atan"; "ln"; "log10"; "sqrt";
     "pow2"; "pow3"; "exp"; "abs"; "reciprocal"; "factorial"]%string.

(** The names handled before the trailing number is looked at. *)
Definition insertionFunctions : list jsstring :=
  List.map str ["pow"; "pi"; "e"; "percent"; "negate"]%string.

Lemma applySci_without_number (fuel : nat) (fn : jsstring) (st : page) (p l : jsstring) :
  existsb (streq fn) insertionFunctions = false ->
  matchTrailing (expr st) = Some (p, l) ->
  l = [] \/ isNaN (parseFloat l) = true ->
  applySciFunction M fuel fn st = Some st.
Proof.
  intros Hfn Hm Hl.
  cbn [existsb insertionFunctions List.map] in Hfn.
  repeat (apply orb_false_iff in Hfn as [? Hfn]).
  unfold applySciFunction. rewrite Hm.
  repeat match goal with
  | H : streq fn ?n = false |- _ => rewrite H; clear H
  end.
  destruct Hl as [-> | Hl]; [reflexivity|].
  destruct (truthy l); cbn [negb]; [now rewrite Hl | reflexivity].
Qed.

(** C7. An evaluating function applied when the trailing token is empty
    or does not parse returns with the page as it was: same expression,
    same display, no error shown, no reset scheduled. *)
Theorem evaluating_function_needs_number
    (fuel : nat) (fn : jsstring) (st : page) (prefix last : jsstring) :
  In fn evaluatingFunctions ->
  matchTrailing (expr st) = Some (prefix, last) ->
  last = [] \/ isNaN (parseFloat last) = true ->
  applySciFunction M fuel fn st = Some st.
Proof.
  intros Hfn Hm Hl. apply (applySci_without_number fuel fn st prefix last); auto.
  cbn [evaluatingFunctions List.map In] in Hfn.
  repeat (destruct Hfn as [<- | Hfn]; [reflexivity|]).
  contradiction.
Qed.

(** C8. The power key puts a caret at the end of the expression, whatever
    the expression is; nothing is evaluated, no error is shown. *)
Theorem pow_appends_caret (fuel : nat) (st : page) :
  applySciFunction M fuel (str "pow") st
  = Some (updateDisplay (setExpr st (expr st ++ [ch "^"])))
  /\ (forall st', applySciFunction M fuel (str "pow") st = Some st' ->
        expr st' = expr st ++ [ch "^"]
        /\ textContent st' = expr st ++ [ch "^"]
        /\ errorClass st' = errorClass st
        /\ timers st' = timers st).
Proof.
  assert (E : applySciFunction M fuel (str "pow") st
              = Some (updateDisplay (setExpr st (expr st ++ [ch "^"])))).
  { unfold applySciFunction.
    replace (streq (str "pow") (str "pow")) with true by reflexivity.
    cbv iota.
    match goal with |- (if ?c then _ else _) = _ => destruct c end; reflexivity. }
  split; [exact E|]. intros st' H. rewrite E in H. injection H as <-.
  repeat split. unfold updateDisplay, setExpr, setText. cbn [expr textContent].
  destruct (expr st); reflexivity.
Qed.

(** *** Factorial *)

Lemma factorialLoop_S (f : nat) (n res i : number) :
  factorialLoop (S f) n res i =
  if leb i n then factorialLoop f n (mul res i) (add i (ofZ 1)) else Some res.
Proof. reflexivity. Qed.

(** The integers [i], [i+1], ... ([count] of them). *)
Fixpoint integersFrom (i : Z) (count : nat) : list Z :=
  match count with
  | O => []
  | S c => i :: integersFrom (i + 1) c
  end.

(** The product the specification describes: 1 multiplied in turn by
    2, 3, ..., n, every product rounded as the Number type does. *)
Definition iterativeProduct (n : Z) : number :=
  fold_left mul (List.map ofZ (integersFrom 2 (Z.to_nat (n - 1)))) (ofZ 1).

Lemma factorialLoop_product (count : nat) :
  forall (i : Z) (res : number) (fuel : nat),
    2 <= i -> i + Z.of_nat count < 2 ^ 53 -> (count < fuel)%nat ->
    factorialLoop fuel (ofZ (i - 1 + Z.of_nat count)) res (ofZ i)
    = Some (fold_left mul (List.map ofZ (integersFrom i count)) res).
Proof.
  induction count as [|c IH]; intros i res fuel Hi Hb Hf.
  - destruct fuel as [|f]; [lia|]. rewrite factorialLoop_S.
    cbn [Z.of_nat]. rewrite Z.add_0_r in *.
    destruct (Z.eq_dec i 2) as [->|Hn2].
    + change (leb (ofZ 2) (ofZ (2 - 1))) with false. reflexivity.
    + rewrite leb_integer by lia.
      destruct (Z.leb_spec i (i - 1)); [lia | reflexivity].
  - destruct fuel as [|f]; [lia|]. rewrite factorialLoop_S.
    rewrite leb_integer by lia.
    destruct (Z.leb_spec i (i - 1 + Z.of_nat (S c))); [|lia].
    rewrite add_one_integer by lia.
    replace (i - 1 + Z.of_nat (S c)) with (i + 1 - 1 + Z.of_nat c) by lia.
    rewrite IH by lia. reflexivity.
Qed.

(** With enough fuel the loop of [factorial] ends, and its result is the
    iterated product. *)
Lemma factorial_product (n : Z) (fuel : nat) :
  0 <= n -> n + 1 < 2 ^ 53 -> (1 <= fuel)%nat -> (Z.to_nat n <= fuel)%nat ->
  factorial fuel (ofZ n) = Some (iterativeProduct n).
Proof.
  intros Hn Hb Hf1 Hf. unfold factorial, iterativeProduct.
  destruct (Z.eq_dec n 0) as [->|Hn0].
  - destruct fuel as [|f]; [lia|]. reflexivity.
  - replace n with (2 - 1 + Z.of_nat (Z.to_nat (n - 1))) at 1 by lia.
    apply factorialLoop_product; lia.
Qed.

Lemma applySci_factorial (fuel : nat) (st : page) (p l : jsstring) (r : number) :
  matchTrailing (expr st) = Some (p, l) ->
  isNaN (parseFloat l) = false ->
  ltb (parseFloat l) (ofZ 0) = false ->
  isInteger (parseFloat l) = true ->
  factorial fuel (parseFloat l) = Some r ->
  applySciFunction M fuel (str "factorial") st =
  Some (if isMathError r then showError (str "Math error") st
        else updateDisplay (setExpr st (p ++ formatResult r))).
Proof.
  intros Hm Hp Hneg Hint Hf.
  unfold applySciFunction. rewrite Hm.
  repeat match goal with
  | |- context [streq (str "factorial") (str ?n)] =>
      change (streq (str "factorial") (str n)) with false
  end.
  cbv iota.
  destruct l as [|c t]; [discriminate Hp|]. cbn [truthy negb]. rewrite Hp.
  unfold sciSwitch.
  repeat match goal with
  | |- context [streq (str "factorial") (str ?n)] =>
      first [ change (streq (str "factorial") (str n)) with false
            | change (streq (str "factorial") (str n)) with true ]
  end.
  cbv iota. rewrite Hneg, Hint, Hf. cbn [orb negb].
  destruct (isMathError r); reflexivity.
Qed.

Lemma applySci_factorial_invalid (fuel : nat) (st : page) (p l : jsstring) :
  matchTrailing (expr st) = Some (p, l) ->
  isNaN (parseFloat l) = false ->
  ltb (parseFloat l) (ofZ 0) = true \/ isInteger (parseFloat l) = false ->
  applySciFunction M fuel (str "factorial") st = Some (showError (str "Invalid") st).
Proof.
  intros Hm Hp Hbad.
  unfold applySciFunction. rewrite Hm.
  repeat match goal with
  | |- context [streq (str "factorial") (str ?n)] =>
      change (streq (str "factorial") (str n)) with false
  end.
  cbv iota.
  destruct l as [|c t]; [discriminate Hp|]. cbn [truthy negb]. rewrite Hp.
  unfold sciSwitch.
  repeat match goal with
  | |- context [streq (str "factorial") (str ?n)] =>
      first [ change (streq (str "factorial") (str n)) with false
            | change (streq (str "factorial") (str n)) with true ]
  end.
  cbv iota.
  replace (ltb (parseFloat (c :: t)) (ofZ 0) || negb (isInteger (parseFloat (c :: t))))
    with true; [reflexivity|].
  symmetry. apply orb_true_iff. destruct Hbad as [H|H]; [now left | right; now rewrite H].
Qed.

(** C6. The factorial key on the trailing number 5 puts 120 in its place;
    on a trailing number that is negative or not an integer it shows
    Invalid and leaves the expression as it is; and [factorial] is the
    product 2 * 3 * ... * n, which is 1 for 0 and for 1.  (The loop counts
    in Numbers: the statement covers the integers whose successor is below
    2^53, and a fuel of at least [n] steps.) *)
Theorem factorial_applied (fuel : nat) :
  (forall st prefix,
     matchTrailing (expr st) = Some (prefix, str "5") -> (5 <= fuel)%nat ->
     applySciFunction M fuel (str "factorial") st
     = Some (updateDisplay (setExpr st (prefix ++ str "120"))))
  /\ (forall st prefix last,
        matchTrailing (expr st) = Some (prefix, last) ->
        isNaN (parseFloat last) = false ->
        ltb (parseFloat last) (ofZ 0) = true \/ isInteger (parseFloat last) = false ->
        applySciFunction M fuel (str "factorial") st = Some (showError (str "Invalid") st)
        /\ expr (showError (str "Invalid") st) = expr st)
  /\ (forall n,
        0 <= n -> n + 1 < 2 ^ 53 -> (1 <= fuel)%nat -> (Z.to_nat n <= fuel)%nat ->
        factorial fuel (ofZ n) = Some (iterativeProduct n))
  /\ iterativeProduct 0 = ofZ 1
  /\ iterativeProduct 1 = ofZ 1.
Proof.
  split; [|split; [|split; [|split]]].
  - intros st prefix Hm Hf.
    rewrite (applySci_factorial fuel st prefix (str "5") (ofZ 120) Hm);
      try reflexivity.
    change (parseFloat (str "5")) with (ofZ 5).
    rewrite factorial_product by (cbn; lia). reflexivity.
  - intros st prefix last Hm Hp Hbad. split; [|reflexivity].
    now apply (applySci_factorial_invalid fuel st prefix last).
  - intros n. apply factorial_product.
  - reflexivity.
  - reflexivity.
Qed.

End Functions.

Section FunctionExamples.
Import JSString JSNumber Page Scientific.
Local Open Scope Z_scope.

(** A host for the examples that reach none of the approximated
    functions: each of them answers NaN. *)
Definition noMath : MathHost :=
  mkMath (fun _ => NaN) (fun _ => NaN) (fun _ => NaN) (fun _ => NaN) (fun _ => NaN)
         (fun _ => NaN) (fun _ => NaN) None (fun _ => NaN) (fun _ _ => NaN) (fun _ => NaN).

Lemma evaluating_function_needs_number_witness :
  applySciFunction noMath 0 (str "sqrt") (typed "2*") = Some (typed "2*")
  /\ applySciFunction noMath 0 (str "factorial") (typed "2*(-") = Some (typed "2*(-").
Proof.
  split.
  - apply (evaluating_function_needs_number noMath 0 (str "sqrt") (typed "2*") (str "2*") []).
    + cbn. tauto.
    + reflexivity.
    + left. reflexivity.
  - apply (evaluating_function_needs_number noMath 0 (str "factorial") (typed "2*(-")
             (str "2*(") (str "-")).
    + cbn. tauto.
    + reflexivity.
    + right. reflexivity.
Defined.

Lemma factorial_applied_witness :
  applySciFunction noMath 5 (str "factorial") (typed "2+5")
  = Some (updateDisplay (setExpr (typed "2+5") (str "2+120")))
  /\ applySciFunction noMath 5 (str "factorial") (typed "-1")
     = Some (showError (str "Invalid") (typed "-1"))
  /\ applySciFunction noMath 5 (str "factorial") (typed "2.5")
     = Some (showError (str "Invalid") (typed "2.5"))
  /\ factorial 5 (ofZ 5) = Some (ofZ 120).
Proof.
  destruct (factorial_applied noMath 5) as [H1 [H2 [H3 _]]].
  split; [|split; [|split]].
  - exact (H1 (typed "2+5") (str "2+") eq_refl (le_n 5)).
  - exact (proj1 (H2 (typed "-1") [] (str "-1") eq_refl eq_refl (or_introl eq_refl))).
  - exact (proj1 (H2 (typed "2.5") [] (str "2.5") eq_refl eq_refl (or_intror eq_refl))).
  - rewrite (H3 5%Z); [reflexivity | lia | reflexivity | lia | cbn; lia].
Defined.

End FunctionExamples.

(* ================================================================== *)
(** ** The evaluator *)
(* ================================================================== *)

Section Evaluator.
Import JSString JSNumber Page.
Local Open Scope Z_scope.

(** The host's evaluation of the function text. *)
Variable hostEval : jsstring -> completion.

Lemma stripLast_snoc (cls : codeUnit -> bool) (s : jsstring) (c : codeUnit) :
  stripLast cls (s ++ [c]) = if cls c then s else s ++ [c].
Proof.
  unfold stripLast. rewrite rev_app_distr. cbn [rev app].
  destruct (cls c); [apply rev_involutive | reflexivity].
Qed.

(** The text handed to the host loses at most its last character, and
    loses it exactly when that character is in the class. *)
Lemma stripLast_one (cls : codeUnit -> bool) (s : jsstring) :
  (exists t c, s = t ++ [c] /\ cls c = true /\ stripLast cls s = t)
  \/ (stripLast cls s = s /\ forall t c, s = t ++ [c] -> cls c = false).
Proof.
  destruct (rev s) as [|c r] eqn:R.
  - right. apply (f_equal (@rev codeUnit)) in R. rewrite rev_involutive in R. subst s.
    split; [reflexivity|]. intros [|x t] c E; discriminate E.
  - apply (f_equal (@rev codeUnit)) in R. rewrite rev_involutive in R. cbn [rev] in R.
    subst s. rewrite stripLast_snoc. destruct (cls c) eqn:C.
    + left. exists (rev r), c. auto.
    + right. split; [reflexivity|]. intros t d E.
      apply app_inj_tail in E as [_ <-]. exact C.
Qed.

Lemma calculate_returns (st : page) (r : number) :
  expr st <> [] ->
  Scientific.allowedRE (Scientific.normalizeExpression (expr st)) = true ->
  hostEval (stripLast Scientific.trailingOperator
              (Scientific.normalizeExpression (expr st))) = Returns r ->
  Scientific.calculate hostEval st =
  if isMathError r then showError (str "Math error") st
  else updateDisplay (setExpr st (Scientific.formatResult r)).
Proof.
  intros Hne Hal Hev. unfold Scientific.calculate.
  destruct (expr st) as [|c t] eqn:E; [contradiction|].
  cbn [truthy negb]. rewrite Hal. cbn [negb]. rewrite Hev. reflexivity.
Qed.

Lemma basic_calculate_returns (st : page) (r : number) :
  expr st <> [] ->
  Basic.allowedRE (Basic.normalizeExpression (expr st)) = true ->
  hostEval (stripLast Basic.trailingOther (Basic.normalizeExpression (expr st))) = Returns r ->
  Basic.calculate hostEval st =
  if isMathError r then showError (str "Math error") st
  else updateDisplay (setExpr st (Basic.formatResult r)).
Proof.
  intros Hne Hal Hev. unfold Basic.calculate.
  destruct (expr st) as [|c t] eqn:E; [contradiction|].
  cbn [truthy negb]. rewrite Hal. cbn [negb]. rewrite Hev. reflexivity.
Qed.

(** The results [calculate] refuses: the two infinities and NaN. *)
Lemma isMathError_iff (r : number) :
  isMathError r = true <-> r = Inf false \/ r = Inf true \/ r = NaN.
Proof.
  destruct r as [|[|]|neg m e]; cbn; split; intros H; auto;
    try discriminate; destruct H as [H|[H|H]]; discriminate H.
Qed.

(** C3. When the host's result is an infinity or NaN, [calculate] shows
    Math error and leaves the expression as it is (no formatted result
    replaces it), in both variants; 10/0, which the host computes by the
    division of Numbers, is such a case. *)
Theorem calculate_math_error :
  (forall st r,
     expr st <> [] ->
     Scientific.allowedRE (Scientific.normalizeExpression (expr st)) = true ->
     hostEval (stripLast Scientific.trailingOperator
                 (Scientific.normalizeExpression (expr st))) = Returns r ->
     r = Inf false \/ r = Inf true \/ r = NaN ->
     Scientific.calculate hostEval st = showError (str "Math error") st
     /\ expr (Scientific.calculate hostEval st) = expr st)
  /\ (forall st r,
        expr st <> [] ->
        Basic.allowedRE (Basic.normalizeExpression (expr st)) = true ->
        hostEval (stripLast Basic.trailingOther (Basic.normalizeExpression (expr st)))
        = Returns r ->
        r = Inf false \/ r = Inf true \/ r = NaN ->
        Basic.calculate hostEval st = showError (str "Math error") st
        /\ expr (Basic.calculate hostEval st) = expr st)
  /\ (forall st,
        expr st = str "10/0" ->
        hostEval (str "10/0") = Returns (div (ofZ 10) (ofZ 0)) ->
        Scientific.calculate hostEval st = showError (str "Math error") st
        /\ Basic.calculate hostEval st = showError (str "Math error") st
        /\ div (ofZ 10) (ofZ 0) = Inf false).
Proof.
  split; [|split].
  - intros st r Hne Hal Hev Hr. apply isMathError_iff in Hr.
    rewrite (calculate_returns st r Hne Hal Hev), Hr. split; reflexivity.
  - intros st r Hne Hal Hev Hr. apply isMathError_iff in Hr.
    rewrite (basic_calculate_returns st r Hne Hal Hev), Hr. split; reflexivity.
  - intros st E Hev. split; [|split; [|reflexivity]].
    + rewrite (calculate_returns st (div (ofZ 10) (ofZ 0))); [reflexivity | | |];
        rewrite E; [discriminate | reflexivity | exact Hev].
    + rewrite (basic_calculate_returns st (div (ofZ 10) (ofZ 0))); [reflexivity | | |];
        rewrite E; [discriminate | reflexivity | exact Hev].
Qed.

(** The operators a hanging occurrence of which is dropped. *)
Definition plainOperator (c : codeUnit) : bool :=
  ((c =? ch "+") || (c =? ch "-") || (c =? ch "*") || (c =? ch "/") || (c =? ch "%"))%N.

(** After any text, one hanging plain operator is dropped before the host
    is called: the host is given the normalized text alone. *)
Lemma hanging_operator_dropped (t : jsstring) (op : codeUnit) :
  plainOperator op = true ->
  stripLast Scientific.trailingOperator (Scientific.normalizeExpression (t ++ [op]))
  = Scientific.normalizeExpression t
  /\ stripLast Basic.trailingOther (Basic.normalizeExpression (t ++ [op]))
     = Basic.normalizeExpression t.
Proof.
  intros Hop.
  assert (E : mapSymbols (t ++ [op]) = mapSymbols t ++ [op]
              /\ Scientific.trailingOperator op = true
              /\ Basic.trailingOther op = true
              /\ (op =? ch "^")%N = false).
  { unfold mapSymbols. rewrite flat_map_app. unfold plainOperator in Hop.
    repeat (apply orb_true_iff in Hop as [Hop|Hop]);
      apply N.eqb_eq in Hop; subst op; repeat split; reflexivity. }
  destruct E as (E & T1 & T2 & Hc). split.
  - unfold Scientific.normalizeExpression. rewrite E, flat_map_app.
    cbn [flat_map]. rewrite Hc. cbn [app].
    now rewrite stripLast_snoc, T1.
  - unfold Basic.normalizeExpression. now rewrite E, stripLast_snoc, T2.
Qed.

(** A hanging plus is dropped: 3+ is evaluated as 3. *)
Lemma calculate_hanging_plus (st : page) :
  expr st = str "3+" ->
  hostEval (str "3") = Returns (ofZ 3) ->
  Scientific.calculate hostEval st = updateDisplay (setExpr st (str "3"))
  /\ Basic.calculate hostEval st = updateDisplay (setExpr st (str "3")).
Proof.
  intros E Hev. split.
  - rewrite (calculate_returns st (ofZ 3)); [reflexivity | | |];
      rewrite E; [discriminate | reflexivity | exact Hev].
  - rewrite (basic_calculate_returns st (ofZ 3)); [reflexivity | | |];
      rewrite E; [discriminate | reflexivity | exact Hev].
Qed.

(** C4, at the input where the code departs from it.  The carets are
    rewritten to two stars before the trailing operator is looked for, so
    of a hanging caret one star is dropped and one is left: the host is
    given 3 followed by a star, and when it throws on that text, as a
    host does on a dangling operator, [calculate] shows Error. *)
Theorem hanging_caret_reaches_host :
  Scientific.normalizeExpression (str "3^") = str "3**"
  /\ stripLast Scientific.trailingOperator (Scientific.normalizeExpression (str "3^"))
     = str "3*"
  /\ forall st,
       expr st = str "3^" ->
       hostEval (str "3*") = Throws ->
       Scientific.calculate hostEval st = showError (str "Error") st.
Proof.
  split; [reflexivity | split; [reflexivity|]].
  intros st E Hev. unfold Scientific.calculate. rewrite E.
  cbn [truthy negb].
  change (Scientific.allowedRE (Scientific.normalizeExpression (str "3^"))) with true.
  cbn [negb].
  change (stripLast Scientific.trailingOperator (Scientific.normalizeExpression (str "3^")))
    with (str "3*").
  now rewrite Hev.
Qed.

End Evaluator.

Section EvaluatorExamples.
Import JSString JSNumber Page.
Local Open Scope Z_scope.

(** A host for the examples: it evaluates a run of digits, or two runs
    of digits around one of the four operators, and throws on any other
    text. *)
Definition digitsEval (s : jsstring) : completion :=
  let (a, r) := takeDigits s in
  match a, r with
  | [], _ => Throws
  | _ :: _, [] => Returns (parseFloat a)
  | _ :: _, op :: b =>
      if truthy b && forallb isDigit b then
        if (op =? ch "+")%N then Returns (add (parseFloat a) (parseFloat b))
        else if (op =? ch "*")%N then Returns (mul (parseFloat a) (parseFloat b))
        else if (op =? ch "/")%N then Returns (div (parseFloat a) (parseFloat b))
        else Throws
      else Throws
  end.

Lemma calculate_math_error_witness :
  Scientific.calculate digitsEval (typed "10/0") = showError (str "Math error") (typed "10/0")
  /\ Basic.calculate digitsEval (typed "0/0") = showError (str "Math error") (typed "0/0").
Proof.
  destruct (calculate_math_error digitsEval) as [H1 [H2 H3]].
  split.
  - exact (proj1 (H3 (typed "10/0") eq_refl eq_refl)).
  - apply (H2 (typed "0/0") NaN); [discriminate | reflexivity | reflexivity | auto].
Defined.

Lemma hanging_caret_reaches_host_witness :
  Scientific.calculate digitsEval (typed "3^") = showError (str "Error") (typed "3^").
Proof.
  exact (proj2 (proj2 (hanging_caret_reaches_host digitsEval)) (typed "3^") eq_refl eq_refl).
Defined.

End EvaluatorExamples.

(* ================================================================== *)
(** ** Decimal digits, written and read back *)
(* ================================================================== *)

Module DecimalFacts.
Import JSString JSNumber NumberFacts RoundingFacts.
Local Open Scope Z_scope.

Lemma digitsAux_S (f : nat) (z : Z) (acc : jsstring) :
  digitsAux (S f) z acc =
  if z <? 10 then Z.to_N (48 + z mod 10) :: acc
  else digitsAux f (z / 10) (Z.to_N (48 + z mod 10) :: acc).
Proof. reflexivity. Qed.

Lemma digitsAux_acc (fuel : nat) :
  forall z acc, digitsAux fuel z acc = digitsAux fuel z [] ++ acc.
Proof.
  induction fuel as [|f IH]; intros z acc; [reflexivity|].
  rewrite !digitsAux_S. destruct (z <? 10); [reflexivity|].
  rewrite (IH (z / 10) (_ :: acc)), (IH (z / 10) [_]), <- app_assoc. reflexivity.
Qed.

Lemma valueOf_app (ds es : jsstring) :
  valueOf (ds ++ es)
  = fold_left (fun acc c => 10 * acc + digitVal c) es (valueOf ds).
Proof. unfold valueOf. apply fold_left_app. Qed.

Lemma valueOf_snoc (ds : jsstring) (c : codeUnit) :
  valueOf (ds ++ [c]) = 10 * valueOf ds + digitVal c.
Proof. now rewrite valueOf_app. Qed.

Lemma digit_code (z : Z) :
  0 <= z -> isDigit (Z.to_N (48 + z mod 10)) = true
            /\ digitVal (Z.to_N (48 + z mod 10)) = z mod 10.
Proof.
  intros Hz. pose proof (Z.mod_pos_bound z 10 ltac:(lia)) as B.
  unfold isDigit, digitVal. split.
  - apply andb_true_iff. split; apply N.leb_le; lia.
  - rewrite Z2N.id by lia. lia.
Qed.

Lemma digitsAux_value (fuel : nat) :
  forall z, 0 <= z < 10 ^ Z.of_nat fuel ->
    valueOf (digitsAux fuel z []) = z
    /\ forallb isDigit (digitsAux fuel z []) = true
    /\ (0 < z ->
        10 ^ (Z.of_nat (List.length (digitsAux fuel z [])) - 1) <= z
        < 10 ^ Z.of_nat (List.length (digitsAux fuel z []))).
Proof.
  induction fuel as [|f IH]; intros z [Hz Hf].
  - cbn in Hf. assert (z = 0) by lia. subst. repeat split; try reflexivity; lia.
  - rewrite digitsAux_S. destruct (digit_code z Hz) as [D1 D2].
    destruct (Z.ltb_spec z 10) as [Hs|Hs].
    + split; [|split; [|intros Hpos]].
      * unfold valueOf. cbn [fold_left]. rewrite D2, Z.mod_small; lia.
      * cbn [forallb]. now rewrite D1.
      * cbn [List.length Z.of_nat]. change (10 ^ (Z.pos 1 - 1)) with 1.
        change (10 ^ Z.pos 1) with 10. lia.
    + rewrite digitsAux_acc.
      assert (Hq : 0 <= z / 10 < 10 ^ Z.of_nat f).
      { split; [apply Z.div_pos; lia|].
        apply Z.div_lt_upper_bound; [lia|].
        rewrite Nat2Z.inj_succ, Z.pow_succ_r in Hf by lia. exact Hf. }
      destruct (IH (z / 10) Hq) as (V & G & Ln).
      assert (Hq1 : 0 < z / 10) by (apply Z.div_str_pos; lia).
      specialize (Ln Hq1).
      pose proof (Z.div_mod z 10 ltac:(lia)) as DM.
      pose proof (Z.mod_pos_bound z 10 ltac:(lia)) as MB.
      split; [|split; [|intros _]].
      * rewrite valueOf_snoc, V, D2. lia.
      * rewrite forallb_app, G. cbn [forallb]. now rewrite D1.
      * rewrite length_app. cbn [List.length]. rewrite Nat.add_1_r, Nat2Z.inj_succ.
        set (L := Z.of_nat (List.length (digitsAux f (z / 10) []))) in *.
        assert (HL : 1 <= L).
        { destruct (Z.le_gt_cases 1 L) as [?|HL0]; [assumption|].
          assert (L = 0) by lia.
          replace L with 0 in Ln by lia. cbn in Ln. lia. }
        replace (Z.succ L - 1) with (Z.succ (L - 1)) by lia.
        rewrite !Z.pow_succ_r by lia. lia.
Qed.

Lemma decimal_fuel (z : Z) : 0 <= z -> z < 10 ^ Z.of_nat (S (Z.to_nat (Z.log2 z))).
Proof.
  intros Hz. rewrite Nat2Z.inj_succ, Z2Nat.id by apply Z.log2_nonneg.
  destruct (Z.eq_dec z 0) as [->|Hn]; [reflexivity|].
  destruct (Z.log2_spec z ltac:(lia)) as [_ H].
  eapply Z.lt_le_trans; [exact H|].
  apply Z.pow_le_mono_l. lia.
Qed.

(** The digits of [z] read back as [z]. *)
Lemma decimal_value (z : Z) : 0 <= z -> valueOf (decimal z) = z.
Proof. intros Hz. apply digitsAux_value. split; [exact Hz | now apply decimal_fuel]. Qed.

Lemma decimal_digits (z : Z) : 0 <= z -> forallb isDigit (decimal z) = true.
Proof. intros Hz. apply digitsAux_value. split; [exact Hz | now apply decimal_fuel]. Qed.

(** The number of digits of a positive integer is its decimal size. *)
Lemma decimal_length (z : Z) :
  0 < z ->
  10 ^ (Z.of_nat (List.length (decimal z)) - 1) <= z < 10 ^ Z.of_nat (List.length (decimal z)).
Proof.
  intros Hz. apply digitsAux_value; [|exact Hz].
  split; [lia | apply decimal_fuel; lia].
Qed.

Lemma decimal_nonempty (z : Z) : decimal z <> [].
Proof.
  unfold decimal. rewrite digitsAux_S.
  destruct (z <? 10); [discriminate|].
  rewrite digitsAux_acc. intros H. apply app_eq_nil in H as [_ H]. discriminate H.
Qed.


(** *** Reading digits *)

Definition headNotDigit (rest : jsstring) : bool :=
  match rest with
  | [] => true
  | c :: _ => negb (isDigit c)
  end.

Lemma takeDigits_app (ds rest : jsstring) :
  forallb isDigit ds = true -> headNotDigit rest = true ->
  takeDigits (ds ++ rest) = (ds, rest).
Proof.
  intros Hd Hr. induction ds as [|c ds IH].
  - cbn [app]. destruct rest as [|c r]; [reflexivity|].
    cbn [headNotDigit] in Hr. cbn [takeDigits].
    apply negb_true_iff in Hr. now rewrite Hr.
  - cbn [forallb] in Hd. apply andb_true_iff in Hd as [Hc Hd].
    cbn [app takeDigits]. now rewrite Hc, (IH Hd).
Qed.

Lemma roundQ_compat (neg : bool) (q q' : Q) :
  (q == q')%Q -> roundQ neg q = roundQ neg q'.
Proof. intros E. unfold roundQ. now rewrite (Qred_complete _ _ E). Qed.

Lemma zeros_digits (j : Z) : forallb isDigit (zeros j) = true.
Proof. unfold zeros. induction (Z.to_nat j) as [|n IH]; [reflexivity|]. exact IH. Qed.

Lemma zeros_length (j : Z) : 0 <= j -> Z.of_nat (List.length (zeros j)) = j.
Proof. intros Hj. unfold zeros. rewrite repeat_length. lia. Qed.

Lemma valueOf_cons (c : codeUnit) (ds : jsstring) :
  valueOf (c :: ds) = digitVal c * 10 ^ Z.of_nat (List.length ds) + valueOf ds.
Proof.
  revert c. induction ds as [|d ds IH] using rev_ind; intros c.
  - unfold valueOf. cbn. lia.
  - rewrite app_comm_cons, !valueOf_snoc, IH, length_app. cbn [List.length].
    rewrite Nat.add_1_r, Nat2Z.inj_succ, Z.pow_succ_r by lia. ring.
Qed.

(** Zeros in front change nothing, zeros behind multiply by ten. *)
Lemma valueOf_leading_zeros (j : Z) (ds : jsstring) :
  valueOf (zeros j ++ ds) = valueOf ds.
Proof.
  unfold zeros. induction (Z.to_nat j) as [|n IH]; [reflexivity|].
  cbn [repeat app]. rewrite valueOf_cons, IH. reflexivity.
Qed.

Lemma valueOf_trailing_zeros (j : Z) (ds : jsstring) :
  0 <= j -> valueOf (ds ++ zeros j) = valueOf ds * 10 ^ j.
Proof.
  intros Hj. rewrite <- (Z2Nat.id j Hj) at 2. unfold zeros.
  induction (Z.to_nat j) as [|n IH]; [rewrite app_nil_r; cbn; lia|].
  replace (repeat (ch "0") (S n)) with (repeat (ch "0") n ++ [ch "0"])
    by (rewrite <- repeat_cons; reflexivity).
  rewrite app_assoc, valueOf_snoc, IH, Nat2Z.inj_succ, Z.pow_succ_r by lia.
  change (digitVal (ch "0")) with 0. ring.
Qed.

Lemma digit_not_space (c : codeUnit) : isDigit c = true -> isWhiteSpace c = false.
Proof.
  unfold isDigit, isWhiteSpace. intros H. apply andb_true_iff in H as [H1 H2].
  apply N.leb_le in H1, H2.
  repeat match goal with
  | |- context [(c =? ?k)%N] => destruct (N.eqb_spec c k); [lia|]
  end.
  destruct (N.leb_spec 8192 c); [lia | reflexivity].
Qed.

Definition signText (neg : bool) : jsstring := if neg then [ch "-"] else [].

(** A sign, then a text that starts with a digit. *)
Lemma parseFloat_signed (neg : bool) (c : codeUnit) (t : jsstring) :
  isDigit c = true ->
  parseFloat (signText neg ++ c :: t) = strUnsignedDecimalLiteral neg (c :: t).
Proof.
  intros Hc. unfold parseFloat. destruct neg; cbn [signText app].
  - reflexivity.
  - cbn [trimStart]. rewrite (digit_not_space c Hc).
    assert (c <> ch "-" /\ c <> ch "+") as [H1 H2].
    { split; intros ->; discriminate Hc. }
    destruct (N.eqb_spec c (ch "-")); [contradiction|].
    destruct (N.eqb_spec c (ch "+")); [contradiction|]. reflexivity.
Qed.

(** Digits alone, or digits and an exponent part. *)
Lemma literal_integer (neg : bool) (ip rest : jsstring) :
  ip <> [] -> forallb isDigit ip = true ->
  headNotDigit rest = true -> startsWith [ch "."] rest = false ->
  strUnsignedDecimalLiteral neg (ip ++ rest)
  = roundQ neg (scale10 (valueOf ip) (exponentPart rest)).
Proof.
  intros Hne Hd Hr Hdot. unfold strUnsignedDecimalLiteral.
  destruct ip as [|c ip']; [contradiction|].
  cbn [app]. rewrite digit_not_I
    by (cbn [forallb] in Hd; now apply andb_true_iff in Hd).
  change (c :: ip' ++ rest) with ((c :: ip') ++ rest).
  rewrite (takeDigits_app _ _ Hd Hr).
  destruct rest as [|d r]; [reflexivity|].
  cbn [startsWith] in Hdot. rewrite andb_true_r, N.eqb_sym in Hdot.
  now rewrite Hdot.
Qed.

(** Digits, a dot, digits, and possibly an exponent part. *)
Lemma literal_fraction (neg : bool) (ip fp rest : jsstring) :
  ip <> [] -> forallb isDigit ip = true -> forallb isDigit fp = true ->
  headNotDigit rest = true ->
  strUnsignedDecimalLiteral neg (ip ++ ch "." :: fp ++ rest)
  = roundQ neg (scale10 (valueOf (ip ++ fp))
                        (exponentPart rest - Z.of_nat (List.length fp))).
Proof.
  intros Hne Hi Hf Hr. unfold strUnsignedDecimalLiteral.
  destruct ip as [|c ip']; [contradiction|].
  cbn [app]. rewrite digit_not_I
    by (cbn [forallb] in Hi; now apply andb_true_iff in Hi).
  change (c :: ip' ++ ch "." :: fp ++ rest) with ((c :: ip') ++ ch "." :: fp ++ rest).
  rewrite (takeDigits_app _ _ Hi) by reflexivity.
  rewrite N.eqb_refl, (takeDigits_app _ _ Hf Hr). reflexivity.
Qed.

(** The exponent part the layout writes reads back as the exponent. *)
Lemma exponentPart_written (x : Z) :
  exponentPart ([ch "e"; if x <? 0 then ch "-" else ch "+"] ++ decimal (Z.abs x)) = x.
Proof.
  cbn [app exponentPart]. rewrite N.eqb_refl. cbn [orb].
  unfold signedInteger.
  assert (T : takeDigits (decimal (Z.abs x)) = (decimal (Z.abs x), [])).
  { rewrite <- (app_nil_r (decimal (Z.abs x))) at 1.
    apply takeDigits_app; [apply decimal_digits; lia | reflexivity]. }
  pose proof (decimal_nonempty (Z.abs x)) as Hne.
  pose proof (decimal_value (Z.abs x) ltac:(lia)) as V.
  destruct (Z.ltb_spec x 0).
  - replace ((ch "-" =? ch "+")%N) with false by reflexivity.
    rewrite N.eqb_refl, T. cbn [fst].
    destruct (decimal (Z.abs x)); [contradiction|]. rewrite V. lia.
  - rewrite N.eqb_refl, T. cbn [fst].
    destruct (decimal (Z.abs x)); [contradiction|]. rewrite V. lia.
Qed.


(** *** The layout of [toString], read back *)

Lemma scale10_nonneg (v p : Z) : 0 <= p -> scale10 v p = inject_Z (v * 10 ^ p).
Proof. intros Hp. unfold scale10. destruct (Z.leb_spec 0 p); [reflexivity | lia]. Qed.

Lemma firstn_digits (n : nat) (ds : jsstring) :
  forallb isDigit ds = true -> forallb isDigit (firstn n ds) = true.
Proof.
  revert n. induction ds as [|c ds IH]; intros [|n] H; try reflexivity.
  cbn [forallb] in H. apply andb_true_iff in H as [Hc Hd].
  cbn [firstn forallb]. now rewrite Hc, IH.
Qed.

Lemma skipn_digits (n : nat) (ds : jsstring) :
  forallb isDigit ds = true -> forallb isDigit (skipn n ds) = true.
Proof.
  revert n. induction ds as [|c ds IH]; intros [|n] H; try reflexivity; [exact H|].
  cbn [forallb] in H. apply andb_true_iff in H as [Hc Hd].
  cbn [skipn]. now apply IH.
Qed.

Lemma layout_parse (neg : bool) (ds : jsstring) (p : Z) :
  ds <> [] -> forallb isDigit ds = true ->
  strUnsignedDecimalLiteral neg (layout ds (p + Z.of_nat (List.length ds)))
  = roundQ neg (scale10 (valueOf ds) p).
Proof.
  intros Hne Hd. unfold layout.
  set (k := Z.of_nat (List.length ds)).
  assert (Hk : 1 <= k).
  { unfold k. destruct ds; [contradiction | cbn [List.length]; lia]. }
  destruct ((-6 <? p + k) && (p + k <=? 21)) eqn:Range.
  - destruct (Z.leb_spec k (p + k)) as [Hp|Hp].
    + (* digits and zeros *)
      replace (p + k - k) with p by lia.
      rewrite <- (app_nil_r (ds ++ zeros p)).
      rewrite literal_integer; try reflexivity.
      * cbn [exponentPart]. rewrite valueOf_trailing_zeros by lia.
        rewrite !scale10_nonneg by lia. now rewrite Z.pow_0_r, Z.mul_1_r.
      * intros H. apply app_eq_nil in H as [H _]. contradiction.
      * now rewrite forallb_app, Hd, zeros_digits.
    + destruct (Z.ltb_spec 0 (p + k)) as [Hn|Hn].
      * (* digits, dot, digits *)
        cbn [app].
        rewrite <- (app_nil_r (skipn (Z.to_nat (p + k)) ds)).
        rewrite literal_fraction; try reflexivity.
        -- rewrite firstn_skipn. cbn [exponentPart]. f_equal. f_equal.
           rewrite length_skipn. fold k. unfold k in *. lia.
        -- destruct ds as [|c ds']; [contradiction|].
           destruct (Z.to_nat (p + k)) eqn:E; [lia | discriminate].
        -- now apply firstn_digits.
        -- now apply skipn_digits.
      * (* zero, dot, zeros, digits *)
        replace ([ch "0"; ch "."] ++ zeros (- (p + k)) ++ ds)
          with ([ch "0"] ++ ch "." :: (zeros (- (p + k)) ++ ds) ++ [])
          by (now rewrite app_nil_r).
        rewrite literal_fraction; try reflexivity; try discriminate.
        -- cbn [exponentPart app]. rewrite valueOf_cons, valueOf_leading_zeros.
           change (digitVal (ch "0")) with 0. rewrite Z.mul_0_l, Z.add_0_l.
           f_equal. f_equal. rewrite length_app, Nat2Z.inj_add, zeros_length by lia.
           fold k. lia.
        -- now rewrite forallb_app, zeros_digits, Hd.
  - (* exponent notation *)
    set (ex := [ch "e"; if p + k - 1 <? 0 then ch "-" else ch "+"]
               ++ decimal (Z.abs (p + k - 1))).
    assert (Hex : exponentPart ex = p + k - 1) by apply exponentPart_written.
    assert (Hhead : headNotDigit ex = true) by reflexivity.
    destruct ds as [|d [|d' ds']]; [contradiction | |].
    + (* one digit *)
      rewrite literal_integer; try reflexivity; try discriminate; [|exact Hd].
      rewrite Hex. f_equal. f_equal. unfold k. cbn [List.length]. lia.
    + (* one digit, dot, the other digits *)
      cbn [forallb] in Hd. apply andb_true_iff in Hd as [Hd1 Hd2].
      change ([d; ch "."] ++ (d' :: ds') ++ ex)
        with ([d] ++ ch "." :: (d' :: ds') ++ ex).
      rewrite literal_fraction; try reflexivity; try discriminate.
      * rewrite Hex. f_equal. f_equal. unfold k. cbn [List.length]. lia.
      * cbn [forallb]. now rewrite Hd1.
      * exact Hd2.
Qed.

Lemma layout_head (ds : jsstring) (n : Z) :
  ds <> [] -> forallb isDigit ds = true ->
  exists c t, layout ds n = c :: t /\ isDigit c = true.
Proof.
  intros Hne Hd. destruct ds as [|d ds']; [contradiction|].
  cbn [forallb] in Hd. apply andb_true_iff in Hd as [Hd1 Hd2].
  unfold layout.
  destruct ((-6 <? n) && (n <=? 21)).
  - destruct (Z.of_nat (List.length (d :: ds')) <=? n).
    + exists d. eexists. split; [reflexivity | exact Hd1].
    + destruct (Z.ltb_spec 0 n).
      * destruct (Z.to_nat n) eqn:E; [lia|].
        exists d. eexists. split; [reflexivity | exact Hd1].
      * exists (ch "0"). eexists. split; reflexivity.
  - destruct ds'; exists d; eexists; (split; [reflexivity | exact Hd1]).
Qed.

(** A positive number written by [toString] and read by [parseFloat]:
    the digits [s] at the power [p], rounded. *)
Lemma parse_written (neg : bool) (s p : Z) :
  0 <= s ->
  parseFloat (signText neg
              ++ layout (decimal s) (p + Z.of_nat (List.length (decimal s))))
  = roundQ neg (scale10 s p).
Proof.
  intros Hs.
  destruct (layout_head (decimal s) (p + Z.of_nat (List.length (decimal s)))
              (decimal_nonempty s) (decimal_digits s Hs)) as (c & t & E & Hc).
  rewrite E, (parseFloat_signed neg c t Hc), <- E.
  rewrite layout_parse by (auto using decimal_nonempty, decimal_digits).
  now rewrite decimal_value.
Qed.


(** *** The digit search is sound *)

Lemma pow10_pos (k : Z) : 0 <= k -> 0 < 10 ^ k.
Proof. intros H. apply Z.pow_pos_nonneg; lia. Qed.

Lemma scale10_shift (v p j : Z) :
  0 <= j -> (scale10 (v * 10 ^ j) p == scale10 v (p + j))%Q.
Proof.
  intros Hj. unfold scale10.
  destruct (Z.leb_spec 0 p) as [Hp|Hp]; destruct (Z.leb_spec 0 (p + j)) as [Hq|Hq];
    try lia; unfold Qeq, inject_Z; cbn [Qnum Qden].
  - rewrite Z.pow_add_r by lia. ring.
  - rewrite Z2Pos.id by (apply pow10_pos; lia).
    replace (v * 10 ^ (p + j) * 10 ^ (- p)) with (v * (10 ^ (p + j) * 10 ^ (- p))) by ring.
    rewrite <- Z.pow_add_r by lia. replace (p + j + - p) with j by lia. ring.
  - rewrite !Z2Pos.id by (apply pow10_pos; lia).
    replace (v * 10 ^ j * 10 ^ (- (p + j))) with (v * (10 ^ j * 10 ^ (- (p + j)))) by ring.
    rewrite <- Z.pow_add_r by lia. replace (j + - (p + j)) with (- p) by lia. reflexivity.
Qed.

Lemma sameValue_eq (x y : number) : sameValue x y = true -> x = y.
Proof.
  destruct x as [|a|a m e], y as [|b|b m' e']; cbn [sameValue]; try discriminate;
    try reflexivity.
  - intros H. apply eqb_prop in H. now subst.
  - intros H. apply andb_true_iff in H as [H He]. apply andb_true_iff in H as [Hs Hm].
    apply eqb_prop in Hs. apply Z.eqb_eq in Hm, He. now subst.
Qed.

Lemma roundsTo_sound (m e s p : Z) :
  roundsTo m e s p = true -> roundQ false (scale10 s p) = Fin false m e.
Proof. apply sameValue_eq. Qed.

Lemma digitsAt_sound (m e a b nx k s p : Z) :
  0 <= k -> 0 <= a -> 0 < b ->
  digitsAt m e a b nx k = Some (s, p) ->
  roundQ false (scale10 s p) = Fin false m e /\ 0 <= s.
Proof.
  intros Hk Ha Hb. unfold digitsAt.
  set (P := nx - k).
  set (N := a * 10 ^ Z.max 0 (- P)). set (D := b * 10 ^ Z.max 0 P).
  assert (HD : 0 < D) by (apply Z.mul_pos_pos; [exact Hb | apply pow10_pos; lia]).
  assert (HN : 0 <= N).
  { apply Z.mul_nonneg_nonneg; [exact Ha | apply Z.lt_le_incl, pow10_pos; lia]. }
  assert (Hlo : 0 <= N / D) by (apply Z.div_pos; assumption).
  destruct (roundsTo m e (N / D) P) eqn:OkLo;
    destruct (roundsTo m e (N / D + 1) P) eqn:OkHi; cbn [andb].
  - destruct ((D <? 2 * (N mod D)) || (D =? 2 * (N mod D)) && Z.odd (N / D)).
    + destruct (Z.eqb_spec (N / D + 1) (10 ^ k)) as [E|_]; intros [= <- <-].
      * split; [|lia]. apply roundsTo_sound in OkHi. rewrite <- OkHi.
        apply roundQ_compat. rewrite E.
        rewrite <- (Z.mul_1_l (10 ^ k)), scale10_shift by lia.
        unfold P. now replace (nx - k + k) with nx by lia.
      * split; [now apply roundsTo_sound | lia].
    + intros [= <- <-]. split; [now apply roundsTo_sound | lia].
  - intros [= <- <-]. split; [now apply roundsTo_sound | lia].
  - destruct (Z.eqb_spec (N / D + 1) (10 ^ k)) as [E|_]; intros [= <- <-].
    + split; [|lia]. apply roundsTo_sound in OkHi. rewrite <- OkHi.
      apply roundQ_compat. rewrite E.
      rewrite <- (Z.mul_1_l (10 ^ k)), scale10_shift by lia.
      unfold P. now replace (nx - k + k) with nx by lia.
    + split; [now apply roundsTo_sound | lia].
  - discriminate.
Qed.

Lemma stripZeros_sound (fuel : nat) :
  forall s p s' p', 0 < s -> stripZeros fuel s p = (s', p') ->
    (scale10 s' p' == scale10 s p)%Q /\ 0 < s'.
Proof.
  induction fuel as [|f IH]; intros s p s' p' Hs; cbn [stripZeros].
  - intros [= <- <-]. split; [reflexivity | exact Hs].
  - destruct (Z.eqb_spec (s mod 10) 0) as [E|_]; cbn [andb].
    + destruct (Z.eqb_spec s 0); [lia|]. cbn [negb]. intros H.
      pose proof (Z.div_mod s 10 ltac:(lia)) as DM.
      assert (Hq : 0 < s / 10) by lia.
      destruct (IH _ _ _ _ Hq H) as [E' Hs']. split; [|exact Hs'].
      rewrite E'. rewrite <- scale10_shift by lia.
      change (10 ^ 1) with 10. replace (s / 10 * 10) with s by lia. reflexivity.
    + intros [= <- <-]. split; [reflexivity | exact Hs].
Qed.

Lemma exactDigits_sound (m e s p : Z) :
  canonical m e = true -> 0 < m -> exactDigits m e = (s, p) ->
  roundQ false (scale10 s p) = Fin false m e /\ 0 <= s.
Proof.
  intros Hc Hm. unfold exactDigits. intros H.
  set (s0 := if 0 <=? e then m * 2 ^ e else m * 5 ^ (- e)) in *.
  assert (Hs0 : 0 < s0).
  { unfold s0. destruct (Z.leb_spec 0 e); apply Z.mul_pos_pos; try exact Hm;
      apply Z.pow_pos_nonneg; lia. }
  destruct (stripZeros_sound _ _ _ _ _ Hs0 H) as [E Hs]. split; [|lia].
  rewrite <- (roundQ_exact false m e Hc Hm).
  apply roundQ_compat. rewrite E. unfold s0, scale10, mag.
  destruct (Z.leb_spec 0 e) as [He|He].
  - rewrite (Z.min_l 0 e) by lia. cbn [Z.leb Z.compare].
    rewrite (Z.max_r 0 e), (Z.max_l 0 (- e)) by lia.
    unfold Qeq, inject_Z. cbn [Qnum Qden]. cbn. ring.
  - rewrite (Z.min_r 0 e) by lia.
    destruct (Z.leb_spec 0 e); [lia|].
    rewrite (Z.max_l 0 e), (Z.max_r 0 (- e)) by lia.
    unfold Qeq. cbn [Qnum Qden].
    rewrite !Z2Pos.id by (apply Z.pow_pos_nonneg; lia).
    rewrite Z.pow_0_r, Z.mul_1_r.
    replace 10 with (5 * 2) by reflexivity. rewrite Z.pow_mul_l. ring.
Qed.

Lemma shortestFrom_sound (fuel : nat) :
  forall m e a b nx k s p,
    canonical m e = true -> 0 < m -> 0 <= k -> 0 <= a -> 0 < b ->
    shortestFrom fuel m e a b nx k = (s, p) ->
    roundQ false (scale10 s p) = Fin false m e /\ 0 <= s.
Proof.
  induction fuel as [|f IH]; intros m e a b nx k s p Hc Hm Hk Ha Hb; cbn [shortestFrom].
  - now apply exactDigits_sound.
  - destruct (digitsAt m e a b nx k) as [[s1 p1]|] eqn:E.
    + intros [= <- <-]. now apply (digitsAt_sound m e a b nx k).
    + apply IH; auto; lia.
Qed.

(** The digits [toString] picks round back to the number. *)
Lemma shortest_sound (m e s p : Z) :
  canonical m e = true -> 0 < m -> shortest m e = (s, p) ->
  roundQ false (scale10 s p) = Fin false m e /\ 0 <= s.
Proof.
  intros Hc Hm. unfold shortest.
  apply shortestFrom_sound; try assumption; try lia; try reflexivity.
  pose proof (mag_pos m e Hm) as P. rewrite <- (Qred_correct (mag m e)) in P.
  unfold Qlt in P. cbn [Qnum Qden] in P. lia.
Qed.

Lemma roundQ_sign (neg : bool) (q : Q) (m e : Z) :
  roundQ false q = Fin false m e -> roundQ neg q = Fin neg m e.
Proof. apply roundPos_sign. Qed.

(** Round trip: a double written by [toString] is read back by
    [parseFloat] as the same double (the zeros as [+0]). *)
Lemma toString_parseFloat (neg : bool) (m e : Z) :
  canonical m e = true ->
  parseFloat (toString (Fin neg m e))
  = if m =? 0 then Fin false 0 emin else Fin neg m e.
Proof.
  intros Hc. cbn [toString].
  destruct (Z.eqb_spec m 0) as [_|Hne]; [reflexivity|].
  assert (Hm : 0 < m) by (apply canonical_elim in Hc; lia).
  destruct (shortest m e) as [s p] eqn:E.
  destruct (shortest_sound m e s p Hc Hm E) as [R Hs].
  change (if neg then [ch "-"] else []) with (signText neg).
  rewrite parse_written by exact Hs.
  now apply roundQ_sign.
Qed.


(** *** [parseFloat] gives doubles *)

Lemma takeDigits_digits (s : jsstring) : forallb isDigit (fst (takeDigits s)) = true.
Proof.
  induction s as [|c r IH]; [reflexivity|].
  cbn [takeDigits]. destruct (isDigit c) eqn:Hc; [|reflexivity].
  destruct (takeDigits r) as [d t]. cbn [fst forallb] in *. now rewrite Hc.
Qed.

Lemma valueOf_nonneg (ds : jsstring) : forallb isDigit ds = true -> 0 <= valueOf ds.
Proof.
  induction ds as [|c ds IH] using rev_ind; [intros _; reflexivity|].
  rewrite forallb_app, valueOf_snoc. cbn [forallb]. intros H.
  apply andb_true_iff in H as [Hd Hc]. rewrite andb_true_r in Hc.
  specialize (IH Hd). unfold isDigit in Hc. apply andb_true_iff in Hc as [H1 H2].
  apply N.leb_le in H1, H2. unfold digitVal. lia.
Qed.

Lemma scale10_nonneg_value (v p : Z) : 0 <= v -> (0 <= scale10 v p)%Q.
Proof.
  intros Hv. unfold scale10. destruct (0 <=? p).
  - unfold Qle, inject_Z. cbn [Qnum Qden]. rewrite Z.mul_0_l, Z.mul_1_r.
    apply Z.mul_nonneg_nonneg; [exact Hv|]. apply Z.pow_nonneg. lia.
  - unfold Qle. cbn [Qnum Qden]. lia.
Qed.

Lemma literal_double (neg : bool) (s : jsstring) :
  isDouble (strUnsignedDecimalLiteral neg s) = true.
Proof.
  unfold strUnsignedDecimalLiteral.
  destruct (startsWith (str "Infinity") s); [reflexivity|].
  pose proof (takeDigits_digits s) as Hi.
  destruct (takeDigits s) as [ip r1]. cbn [fst] in Hi.
  destruct r1 as [|c r2].
  - destruct ip; [reflexivity|].
    apply roundQ_double, scale10_nonneg_value, valueOf_nonneg, Hi.
  - destruct (c =? ch ".")%N.
    + pose proof (takeDigits_digits r2) as Hf.
      destruct (takeDigits r2) as [fp r3]. cbn [fst] in Hf.
      destruct (ip ++ fp) eqn:E; [reflexivity|]. rewrite <- E.
      apply roundQ_double, scale10_nonneg_value, valueOf_nonneg.
      now rewrite forallb_app, Hi, Hf.
    + destruct ip; [reflexivity|].
      apply roundQ_double, scale10_nonneg_value, valueOf_nonneg, Hi.
Qed.

(** Whatever the text, [parseFloat] answers NaN, an infinity or a
    double. *)
Lemma parseFloat_double (s : jsstring) : isDouble (parseFloat s) = true.
Proof.
  unfold parseFloat. destruct (trimStart s) as [|c r]; [reflexivity|].
  destruct (c =? ch "-")%N; [apply literal_double|].
  destruct (c =? ch "+")%N; apply literal_double.
Qed.

(** *** The text of [toFixed] parses *)

Lemma toFixed_parses (neg : bool) (m e f : Z) :
  canonical m e = true -> 0 <= f ->
  isNaN (parseFloat (toFixed (Fin neg m e) f)) = false.
Proof.
  intros Hc Hf. cbn [toFixed].
  set (a := Qnum (Qred (mag m e))). set (b := Z.pos (Qden (Qred (mag m e)))).
  change (if neg && negb (m =? 0) then [ch "-"] else [])
    with (signText (neg && negb (m =? 0))).
  set (sg := neg && negb (m =? 0)).
  destruct (10 ^ 21 * b <=? a).
  - unfold sg. cbn [toString].
    destruct (Z.eqb_spec m 0) as [_|Hm]; [now rewrite andb_false_r|].
    destruct (shortest m e) as [s p] eqn:E.
    assert (Hm' : 0 < m) by (apply canonical_elim in Hc; lia).
    destruct (shortest_sound m e s p Hc Hm' E) as [_ Hs].
    cbn [app]. rewrite parse_written by exact Hs. apply roundQ_number.
  - set (n := (2 * a * 10 ^ f + b) / (2 * b)).
    assert (Hn : 0 <= n).
    { apply Z.div_pos; [|unfold b; lia].
      assert (0 <= a).
      { unfold a. destruct (Z.eq_dec m 0) as [->|Hm]; [reflexivity|].
        apply canonical_elim in Hc.
        pose proof (mag_pos m e ltac:(lia)) as P.
        rewrite <- (Qred_correct (mag m e)) in P.
        unfold Qlt in P. cbn [Qnum Qden] in P. lia. }
      pose proof (pow10_pos f Hf). unfold b. nia. }
    pose proof (decimal_digits n Hn) as Dn.
    pose proof (decimal_nonempty n) as Nn.
    destruct (Z.eqb_spec f 0) as [->|Hf0].
    + destruct (decimal n) as [|c t] eqn:E; [contradiction|].
      cbn [forallb] in Dn. apply andb_true_iff in Dn as [Dc Dt].
      rewrite parseFloat_signed by exact Dc.
      rewrite <- (app_nil_r (c :: t)).
      rewrite literal_integer; try reflexivity; try discriminate.
      * apply roundQ_number.
      * cbn [forallb]. now rewrite Dc.
    + set (padded := if Z.of_nat (List.length (decimal n)) <=? f
                     then zeros (f + 1 - Z.of_nat (List.length (decimal n))) ++ decimal n
                     else decimal n).
      assert (Dp : forallb isDigit padded = true).
      { unfold padded. destruct (Z.of_nat (List.length (decimal n)) <=? f); [|exact Dn].
        now rewrite forallb_app, zeros_digits. }
      assert (Lp : f < Z.of_nat (List.length padded)).
      { unfold padded. destruct (Z.leb_spec (Z.of_nat (List.length (decimal n))) f); [|lia].
        rewrite length_app, Nat2Z.inj_add, zeros_length; lia. }
      set (ip := firstn (Z.to_nat (Z.of_nat (List.length padded) - f)) padded).
      set (fp := skipn (Z.to_nat (Z.of_nat (List.length padded) - f)) padded).
      assert (Di : forallb isDigit ip = true) by (now apply firstn_digits).
      assert (Dfp : forallb isDigit fp = true) by (now apply skipn_digits).
      assert (Ni : ip <> []).
      { unfold ip. destruct padded as [|c t]; [cbn in Lp; lia|].
        destruct (Z.to_nat (Z.of_nat (List.length (c :: t)) - f)) eqn:E; [lia | discriminate]. }
      destruct ip as [|c t] eqn:Eip; [contradiction|].
      cbn [forallb] in Di. apply andb_true_iff in Di as [Dc Dt].
      cbn [app]. rewrite parseFloat_signed by exact Dc.
      change (c :: t ++ ch "." :: fp) with ((c :: t) ++ ch "." :: fp).
      rewrite <- (app_nil_r fp).
      rewrite literal_fraction; try reflexivity; try discriminate.
      * apply roundQ_number.
      * cbn [forallb]. now rewrite Dc.
      * exact Dfp.
Qed.


(** *** Integers below [10^21] are written with digits only *)

Lemma decimal_count (z k : Z) :
  1 <= k -> 10 ^ (k - 1) <= z < 10 ^ k -> Z.of_nat (List.length (decimal z)) = k.
Proof.
  intros Hk [H1 H2].
  assert (Hz : 0 < z) by (pose proof (pow10_pos (k - 1)); lia).
  destruct (decimal_length z Hz) as [L1 L2].
  set (L := Z.of_nat (List.length (decimal z))) in *.
  assert (HL : 0 <= L) by (unfold L; lia).
  destruct (Z.lt_trichotomy L k) as [C|[C|C]]; [|exact C|].
  - assert (10 ^ L <= 10 ^ (k - 1)) by (apply Z.pow_le_mono_r; lia). lia.
  - assert (10 ^ k <= 10 ^ (L - 1)) by (apply Z.pow_le_mono_r; lia). lia.
Qed.

Lemma isInteger_value (neg : bool) (m e : Z) :
  0 <= m -> isInteger (Fin neg m e) = true ->
  exists V, 0 <= V /\ (mag m e == inject_Z V)%Q.
Proof.
  intros Hm. cbn [isInteger]. intros H. apply orb_true_iff in H as [H|H].
  - apply Z.leb_le in H. exists (m * 2 ^ e). split.
    + apply Z.mul_nonneg_nonneg; [exact Hm | apply Z.pow_nonneg; lia].
    + unfold mag, Qeq, inject_Z. cbn [Qnum Qden].
      rewrite (Z.max_r 0 e), (Z.max_l 0 (- e)) by lia. cbn. ring.
  - apply Z.eqb_eq in H.
    destruct (Z.le_gt_cases 0 e) as [He|He].
    + exists (m * 2 ^ e). split.
      * apply Z.mul_nonneg_nonneg; [exact Hm | apply Z.pow_nonneg; lia].
      * unfold mag, Qeq, inject_Z. cbn [Qnum Qden].
        rewrite (Z.max_r 0 e), (Z.max_l 0 (- e)) by lia. cbn. ring.
    + exists (m / 2 ^ (- e)).
      assert (P : 0 < 2 ^ (- e)) by (apply pow2_pos; lia).
      split; [apply Z.div_pos; lia|].
      unfold mag, Qeq, inject_Z. cbn [Qnum Qden].
      rewrite (Z.max_l 0 e), (Z.max_r 0 (- e)) by lia.
      rewrite Z2Pos.id by exact P. rewrite Z.pow_0_r, !Z.mul_1_r.
      pose proof (Z.div_mod m (2 ^ (- e)) ltac:(lia)) as DM. lia.
Qed.

Lemma decExponent_integer (V : Z) :
  0 < V -> decExponent V 1 = Z.of_nat (List.length (decimal V)).
Proof.
  intros HV. unfold decExponent.
  change (List.length (decimal 1)) with 1%nat.
  destruct (decimal_length V HV) as [L1 L2].
  set (L := Z.of_nat (List.length (decimal V))) in *.
  assert (HL : 1 <= L).
  { unfold L. pose proof (decimal_nonempty V). destruct (decimal V); [contradiction|].
    cbn [List.length]. lia. }
  change (Z.of_nat 1) with 1.
  rewrite (Z.max_l 0 (- (L - 1))), (Z.max_r 0 (L - 1)) by lia.
  rewrite Z.pow_0_r, Z.mul_1_r, Z.mul_1_l.
  destruct (Z.ltb_spec V (10 ^ (L - 1))); lia.
Qed.

Section IntegerDigits.

Variables m e V : Z.
Hypothesis Hc : canonical m e = true.
Hypothesis Hm : 0 < m.
Hypothesis HV : 0 < V < 10 ^ 21.
Hypothesis Hval : (mag m e == inject_Z V)%Q.

Let L := Z.of_nat (List.length (decimal V)).

Lemma integer_size : 1 <= L <= 21 /\ 10 ^ (L - 1) <= V < 10 ^ L.
Proof.
  destruct (decimal_length V ltac:(lia)) as [L1 L2]. fold L in L1, L2.
  assert (HL : 0 <= L) by (unfold L; lia).
  split; [|split; assumption]. split.
  - destruct (Z.le_gt_cases 1 L); [assumption|].
    replace L with 0 in L2 by lia. cbn in L2. lia.
  - destruct (Z.le_gt_cases L 21); [assumption|].
    assert (10 ^ 21 <= 10 ^ (L - 1)) by (apply Z.pow_le_mono_r; lia). lia.
Qed.

Lemma integer_rounds : roundQ false (inject_Z V) = Fin false m e.
Proof. rewrite <- (roundQ_exact false m e Hc Hm). apply roundQ_compat. now rewrite Hval. Qed.

Lemma not_ten_to_21 : roundQ false (inject_Z (10 ^ 21)) <> Fin false m e.
Proof.
  intros H. vm_compute in H. injection H as <- <-.
  assert (E : (inject_Z (10 ^ 21) == inject_Z V)%Q) by (rewrite <- Hval; reflexivity).
  apply (proj1 (inject_Z_injective _ _)) in E. lia.
Qed.

Lemma digitsAt_integer (k s p : Z) :
  1 <= k <= L ->
  digitsAt m e V 1 L k = Some (s, p) ->
  0 <= p /\ p + Z.of_nat (List.length (decimal s)) <= 21.
Proof.
  intros Hk. destruct integer_size as [[HL1 HL21] [V1 V2]].
  unfold digitsAt.
  set (P := L - k).
  rewrite (Z.max_l 0 (- P)), (Z.max_r 0 P) by (unfold P; lia).
  rewrite Z.pow_0_r, Z.mul_1_r, Z.mul_1_l.
  assert (HP : 0 < 10 ^ P) by (apply pow10_pos; unfold P; lia).
  assert (Hlo : 10 ^ (k - 1) <= V / 10 ^ P < 10 ^ k).
  { split.
    - apply Z.div_le_lower_bound; [exact HP|].
      rewrite <- Z.pow_add_r by (unfold P; lia).
      now replace (P + (k - 1)) with (L - 1) by (unfold P; lia).
    - apply Z.div_lt_upper_bound; [exact HP|].
      rewrite <- Z.pow_add_r by (unfold P; lia).
      now replace (P + k) with L by (unfold P; lia). }
  assert (Clo : Z.of_nat (List.length (decimal (V / 10 ^ P))) = k)
    by (apply decimal_count; lia).
  assert (Chi : V / 10 ^ P + 1 <> 10 ^ k ->
                Z.of_nat (List.length (decimal (V / 10 ^ P + 1))) = k).
  { intros Hne. apply decimal_count; lia. }
  assert (Bump : roundsTo m e (V / 10 ^ P + 1) P = true ->
                 V / 10 ^ P + 1 = 10 ^ k -> L + 1 <= 21).
  { intros Ok E. destruct (Z.eq_dec L 21) as [E21|]; [|lia]. exfalso.
    apply roundsTo_sound in Ok. apply not_ten_to_21. rewrite <- Ok.
    apply roundQ_compat. rewrite E.
    rewrite <- (Z.mul_1_l (10 ^ k)), scale10_shift by lia.
    unfold P. replace (L - k + k) with 21 by lia.
    rewrite scale10_nonneg, Z.mul_1_l by lia. apply Qeq_refl. }
  destruct (roundsTo m e (V / 10 ^ P) P) eqn:OkLo;
    destruct (roundsTo m e (V / 10 ^ P + 1) P) eqn:OkHi; cbn [andb].
  - destruct ((10 ^ P <? 2 * (V mod 10 ^ P))
              || (10 ^ P =? 2 * (V mod 10 ^ P)) && Z.odd (V / 10 ^ P)).
    + destruct (Z.eqb_spec (V / 10 ^ P + 1) (10 ^ k)) as [E|NE]; intros [= <- <-].
      * change (List.length (decimal 1)) with 1%nat. specialize (Bump eq_refl E). lia.
      * rewrite (Chi NE). unfold P. lia.
    + intros [= <- <-]. rewrite Clo. unfold P. lia.
  - intros [= <- <-]. rewrite Clo. unfold P. lia.
  - destruct (Z.eqb_spec (V / 10 ^ P + 1) (10 ^ k)) as [E|NE]; intros [= <- <-].
    + change (List.length (decimal 1)) with 1%nat. specialize (Bump eq_refl E). lia.
    + rewrite (Chi NE). unfold P. lia.
  - discriminate.
Qed.

Lemma digitsAt_integer_last : digitsAt m e V 1 L L <> None.
Proof.
  unfold digitsAt. replace (L - L) with 0 by lia.
  cbn [Z.max Z.opp Z.pow Z.pow_pos Pos.iter]. rewrite !Z.mul_1_r, Z.div_1_r.
  assert (Ok : roundsTo m e V 0 = true).
  { unfold roundsTo. rewrite scale10_nonneg by lia.
    rewrite Z.pow_0_r, Z.mul_1_r, integer_rounds. cbn [sameValue].
    now rewrite !Z.eqb_refl. }
  rewrite Ok. cbn [andb].
  destruct (roundsTo m e (V + 1) 0).
  - destruct ((1 <? 2 * (V mod 1)) || (1 =? 2 * (V mod 1)) && Z.odd V); discriminate.
  - discriminate.
Qed.

Lemma shortestFrom_integer (fuel : nat) :
  forall k s p,
    1 <= k <= L -> L - k < Z.of_nat fuel ->
    shortestFrom fuel m e V 1 L k = (s, p) ->
    0 <= p /\ p + Z.of_nat (List.length (decimal s)) <= 21.
Proof.
  induction fuel as [|f IH]; intros k s p Hk Hf; [lia|].
  cbn [shortestFrom].
  destruct (digitsAt m e V 1 L k) as [[s1 p1]|] eqn:E.
  - intros [= <- <-]. now apply (digitsAt_integer k).
  - destruct (Z.eq_dec k L) as [->|Hne].
    + now elim digitsAt_integer_last.
    + apply IH; lia.
Qed.

Lemma shortest_integer (s p : Z) :
  shortest m e = (s, p) ->
  0 <= p /\ p + Z.of_nat (List.length (decimal s)) <= 21.
Proof.
  unfold shortest.
  assert (E : Qred (mag m e) = inject_Z V).
  { rewrite <- Qred_inject_Z. now apply Qred_complete. }
  rewrite E. cbn [inject_Z Qnum Qden].
  rewrite decExponent_integer by lia. fold L.
  destruct integer_size as [[HL1 HL21] _].
  apply shortestFrom_integer; lia.
Qed.

End IntegerDigits.

(** An integer below [10^21] in magnitude is written as a run of decimal
    digits, after a minus sign when it is negative. *)
Lemma toString_integer (neg : bool) (m e : Z) :
  canonical m e = true ->
  isInteger (Fin neg m e) = true ->
  ltb (Fin false m e) (ofZ (10 ^ 21)) = true ->
  exists ds, ds <> [] /\ forallb isDigit ds = true
             /\ toString (Fin neg m e) = (if neg && negb (m =? 0) then [ch "-"] else []) ++ ds.
Proof.
  intros Hc Hi Hlt. cbn [toString].
  destruct (Z.eqb_spec m 0) as [_|Hne].
  - exists [ch "0"]. rewrite andb_false_r. repeat split. discriminate.
  - rewrite andb_true_r.
    assert (Hm : 0 < m) by (apply canonical_elim in Hc; lia).
    destruct (isInteger_value neg m e ltac:(lia) Hi) as (V & HV0 & Hval).
    assert (HV : 0 < V < 10 ^ 21).
    { split.
      - pose proof (mag_pos m e Hm) as P. rewrite Hval in P.
        unfold Qlt, inject_Z in P. cbn [Qnum Qden] in P. lia.
      - replace (ofZ (10 ^ 21)) with (Fin false 7629394531250000 17) in Hlt
          by (vm_compute; reflexivity).
        cbn [ltb toQ] in Hlt. apply negb_true_iff in Hlt.
        destruct (Z.lt_ge_cases V (10 ^ 21)) as [?|Hge]; [assumption|]. exfalso.
        assert (Q : Qle_bool (mag 7629394531250000 17) (mag m e) = true).
        { apply Qle_bool_iff. rewrite Hval.
          assert (M21 : (mag 7629394531250000 17 == inject_Z (10 ^ 21))%Q)
            by (vm_compute; reflexivity).
          rewrite M21, <- Zle_Qle. exact Hge. }
        congruence. }
    destruct (shortest m e) as [s p] eqn:E.
    destruct (shortest_sound m e s p Hc Hm E) as [_ Hs].
    destruct (shortest_integer m e V Hc Hm HV Hval s p E) as [Hp Hn].
    exists (decimal s ++ zeros p). split; [|split].
    + intros H. apply app_eq_nil in H as [H _]. now apply decimal_nonempty in H.
    + now rewrite forallb_app, decimal_digits, zeros_digits.
    + f_equal. unfold layout.
      pose proof (decimal_nonempty s) as Hne'.
      set (k := Z.of_nat (List.length (decimal s))) in *.
      assert (Hk : 1 <= k).
      { unfold k. destruct (decimal s); [contradiction | cbn [List.length]; lia]. }
      destruct (Z.ltb_spec (-6) (p + k)); [|lia].
      destruct (Z.leb_spec (p + k) 21); [|lia]. cbn [andb].
      destruct (Z.leb_spec k (p + k)); [|lia].
      now replace (p + k - k) with p by lia.
Qed.

End DecimalFacts.

(* ================================================================== *)
(** ** The digits of [toString] are the fewest *)
(* ================================================================== *)

Module ShortestFacts.
Import JSString JSNumber NumberFacts RoundingFacts DecimalFacts.
Local Open Scope Z_scope.

(** [a / b] is below [10^nx] for [nx = decExponent a b]: the first level
    of the search has a one-digit floor. *)
Lemma decExponent_upper (a b : Z) :
  0 < a -> 0 < b ->
  let P := decExponent a b - 1 in
  a * 10 ^ Z.max 0 (- P) < 10 * (b * 10 ^ Z.max 0 P).
Proof.
  intros Ha Hb. unfold decExponent.
  destruct (decimal_length a Ha) as [_ A2].
  destruct (decimal_length b Hb) as [B1 _].
  set (da := Z.of_nat (List.length (decimal a))) in *.
  set (db := Z.of_nat (List.length (decimal b))) in *.
  assert (Hda : 0 <= da) by (unfold da; lia).
  assert (Hdb : 1 <= db).
  { unfold db. pose proof (decimal_nonempty b). destruct (decimal b); [contradiction|].
    cbn [List.length]. lia. }
  set (l := da - db).
  destruct (Z.ltb_spec (a * 10 ^ Z.max 0 (- l)) (b * 10 ^ Z.max 0 l)) as [T|T]; cbv zeta.
  - destruct (Z.le_gt_cases 1 l) as [Hl|Hl].
    + rewrite (Z.max_l 0 (- l)), (Z.max_r 0 l) in T by lia.
      rewrite (Z.max_l 0 (- (l - 1))), (Z.max_r 0 (l - 1)) by lia.
      assert (E : 10 ^ l = 10 * 10 ^ (l - 1)).
      { rewrite <- Z.pow_succ_r by lia. f_equal. lia. }
      rewrite Z.pow_0_r in *. lia.
    + rewrite (Z.max_r 0 (- l)), (Z.max_l 0 l) in T by lia.
      rewrite (Z.max_r 0 (- (l - 1))), (Z.max_l 0 (l - 1)) by lia.
      assert (E : 10 ^ (- (l - 1)) = 10 * 10 ^ (- l)).
      { rewrite <- Z.pow_succ_r by lia. f_equal. lia. }
      rewrite Z.pow_0_r in *. lia.
  - replace (l + 1 - 1) with l by lia.
    destruct (Z.le_gt_cases 0 l) as [Hl|Hl].
    + rewrite (Z.max_l 0 (- l)), (Z.max_r 0 l) by lia. rewrite Z.pow_0_r, Z.mul_1_r.
      assert (E : 10 ^ da = 10 * (10 ^ (db - 1) * 10 ^ l)).
      { rewrite <- Z.pow_add_r, <- Z.pow_succ_r by lia. f_equal. unfold l. lia. }
      pose proof (pow10_pos l Hl). nia.
    + rewrite (Z.max_r 0 (- l)), (Z.max_l 0 l) by lia. rewrite Z.pow_0_r, Z.mul_1_r.
      assert (E : 10 ^ da * 10 ^ (- l) = 10 * 10 ^ (db - 1)).
      { rewrite <- Z.pow_add_r, <- Z.pow_succ_r by lia. f_equal. unfold l. lia. }
      pose proof (pow10_pos (- l) ltac:(lia)). nia.
Qed.


(** What a level of the search answers: the digit 1 for a power of ten
    above the floor, or one of the two candidates, which rounds to the
    number. *)
Lemma digitsAt_cases (m e a b nx k s p : Z) :
  digitsAt m e a b nx k = Some (s, p) ->
  let P := nx - k in
  let lo := a * 10 ^ Z.max 0 (- P) / (b * 10 ^ Z.max 0 P) in
  (s = 1 /\ p = nx)
  \/ (p = P /\ (s = lo \/ s = lo + 1) /\ roundsTo m e s P = true).
Proof.
  unfold digitsAt. cbv zeta.
  set (P := nx - k).
  set (N := a * 10 ^ Z.max 0 (- P)). set (D := b * 10 ^ Z.max 0 P).
  destruct (roundsTo m e (N / D) P) eqn:OkLo;
    destruct (roundsTo m e (N / D + 1) P) eqn:OkHi; cbn [andb].
  - destruct ((D <? 2 * (N mod D)) || (D =? 2 * (N mod D)) && Z.odd (N / D)).
    + destruct (N / D + 1 =? 10 ^ k); intros [= <- <-]; auto.
    + intros [= <- <-]. auto.
  - intros [= <- <-]. auto.
  - destruct (N / D + 1 =? 10 ^ k); intros [= <- <-]; auto.
  - discriminate.
Qed.

Lemma digitsAt_some (m e a b nx k : Z) :
  let P := nx - k in
  let lo := a * 10 ^ Z.max 0 (- P) / (b * 10 ^ Z.max 0 P) in
  roundsTo m e lo P = true \/ roundsTo m e (lo + 1) P = true ->
  digitsAt m e a b nx k <> None.
Proof.
  unfold digitsAt. cbv zeta.
  set (P := nx - k).
  set (N := a * 10 ^ Z.max 0 (- P)). set (D := b * 10 ^ Z.max 0 P).
  intros H.
  destruct (roundsTo m e (N / D) P) eqn:OkLo;
    destruct (roundsTo m e (N / D + 1) P) eqn:OkHi; cbn [andb].
  - destruct ((D <? 2 * (N mod D)) || (D =? 2 * (N mod D)) && Z.odd (N / D));
      [destruct (N / D + 1 =? 10 ^ k)|]; discriminate.
  - discriminate.
  - destruct (N / D + 1 =? 10 ^ k); discriminate.
  - destruct H; discriminate.
Qed.

(** One digit fewer: the floor is the floor divided by ten. *)
Lemma floor_down (a b P : Z) :
  0 <= a -> 0 < b ->
  a * 10 ^ Z.max 0 (- (P + 1)) / (b * 10 ^ Z.max 0 (P + 1))
  = a * 10 ^ Z.max 0 (- P) / (b * 10 ^ Z.max 0 P) / 10.
Proof.
  intros Ha Hb. destruct (Z.le_gt_cases 0 P) as [HP|HP].
  - rewrite (Z.max_l 0 (- (P + 1))), (Z.max_l 0 (- P)) by lia.
    rewrite (Z.max_r 0 (P + 1)), (Z.max_r 0 P) by lia.
    rewrite Z.pow_0_r, Z.mul_1_r.
    replace (P + 1) with (Z.succ P) by lia. rewrite Z.pow_succ_r by lia.
    pose proof (pow10_pos P HP).
    rewrite Z.div_div by nia. f_equal. ring.
  - rewrite (Z.max_r 0 (- (P + 1))), (Z.max_r 0 (- P)) by lia.
    rewrite (Z.max_l 0 (P + 1)), (Z.max_l 0 P) by lia.
    rewrite Z.pow_0_r, Z.mul_1_r.
    replace (- P) with (Z.succ (- (P + 1))) by lia. rewrite Z.pow_succ_r by lia.
    rewrite Z.div_div by lia.
    replace (a * (10 * 10 ^ (- (P + 1)))) with (a * 10 ^ (- (P + 1)) * 10) by ring.
    now rewrite Z.div_mul_cancel_r by lia.
Qed.

(** A candidate ending in zero was a candidate with one digit fewer. *)
Lemma digitsAt_down (m e a b nx k s p : Z) :
  0 <= a -> 0 < b ->
  digitsAt m e a b nx k = Some (s, p) ->
  s mod 10 = 0 ->
  digitsAt m e a b nx (k - 1) <> None.
Proof.
  intros Ha Hb H Hs.
  destruct (digitsAt_cases _ _ _ _ _ _ _ _ H) as [[-> _]|(-> & Hc & Ok)];
    [discriminate Hs|].
  apply digitsAt_some. cbv zeta.
  replace (nx - (k - 1)) with (nx - k + 1) by lia.
  rewrite floor_down by assumption.
  set (P := nx - k) in *.
  set (lo := a * 10 ^ Z.max 0 (- P) / (b * 10 ^ Z.max 0 P)) in *.
  pose proof (Z.div_mod s 10 ltac:(lia)) as DM. rewrite Hs, Z.add_0_r in DM.
  assert (R : roundsTo m e (s / 10) (P + 1) = true).
  { unfold roundsTo in *.
    rewrite (roundQ_compat false (scale10 (s / 10) (P + 1)) (scale10 s P)); [exact Ok|].
    rewrite <- scale10_shift by lia. change (10 ^ 1) with 10.
    now replace (s / 10 * 10) with s by lia. }
  destruct Hc as [E|E].
  - left. now rewrite <- E.
  - right. replace (lo / 10 + 1) with (s / 10); [exact R|].
    assert (lo = 10 * (s / 10) - 1) by lia.
    pose proof (Z.div_mod lo 10 ltac:(lia)) as DL.
    pose proof (Z.mod_pos_bound lo 10 ltac:(lia)). lia.
Qed.

Lemma roundsTo_zero (m e P : Z) : 0 < m -> roundsTo m e 0 P = false.
Proof.
  intros Hm. unfold roundsTo.
  rewrite (roundQ_compat false (scale10 0 P) 0).
  - change (roundQ false 0) with (Fin false 0 emin). cbn [sameValue].
    destruct (Z.eqb_spec 0 m); [lia|]. reflexivity.
  - unfold scale10. destruct (0 <=? P); reflexivity.
Qed.

(** The first level answers a digit from 1 to 9. *)
Lemma digitsAt_first (m e a b s p : Z) :
  0 < m -> 0 < a -> 0 < b ->
  digitsAt m e a b (decExponent a b) 1 = Some (s, p) ->
  s mod 10 <> 0.
Proof.
  intros Hm Ha Hb H.
  pose proof H as H'.
  destruct (digitsAt_cases _ _ _ _ _ _ _ _ H) as [[-> _]|(-> & Hc & Ok)];
    [discriminate|].
  pose proof (decExponent_upper a b Ha Hb) as U. cbv zeta in U.
  set (P := decExponent a b - 1) in *.
  set (N := a * 10 ^ Z.max 0 (- P)) in *. set (D := b * 10 ^ Z.max 0 P) in *.
  assert (HD : 0 < D) by (apply Z.mul_pos_pos; [exact Hb | apply pow10_pos; lia]).
  assert (HN : 0 <= N).
  { apply Z.mul_nonneg_nonneg; [lia | apply Z.lt_le_incl, pow10_pos; lia]. }
  assert (Hlo : 0 <= N / D < 10).
  { split; [apply Z.div_pos; lia | apply Z.div_lt_upper_bound; lia]. }
  assert (Hs0 : s <> 0).
  { intros ->. rewrite roundsTo_zero in Ok by exact Hm. discriminate. }
  assert (Hs10 : s <> 10).
  { intros ->. destruct Hc as [E|E]; [lia|].
    unfold digitsAt in H'. cbv zeta in H'. fold P N D in H'.
    rewrite <- E in H'. change (10 =? 10 ^ 1) with true in H'.
    destruct (roundsTo m e (N / D) P) eqn:OkLo; rewrite Ok in H'; cbn [andb] in H'.
    - destruct ((D <? 2 * (N mod D)) || (D =? 2 * (N mod D)) && Z.odd (N / D));
        injection H'; intros; lia.
    - injection H'; intros; lia. }
  rewrite Z.mod_small; lia.
Qed.

Lemma stripZeros_last (fuel : nat) :
  forall s p s' p',
    0 < s < 10 ^ Z.of_nat fuel -> stripZeros fuel s p = (s', p') -> s' mod 10 <> 0.
Proof.
  induction fuel as [|f IH]; intros s p s' p' Hs; [cbn in Hs; lia|].
  cbn [stripZeros].
  destruct (Z.eqb_spec (s mod 10) 0) as [E|NE]; cbn [andb].
  - destruct (Z.eqb_spec s 0); [lia|]. cbn [negb].
    pose proof (Z.div_mod s 10 ltac:(lia)) as DM.
    apply IH. rewrite Nat2Z.inj_succ, Z.pow_succ_r in Hs by lia.
    split; [lia|]. apply Z.div_lt_upper_bound; lia.
  - intros [= <- <-]. exact NE.
Qed.

Lemma exactDigits_last (m e s p : Z) :
  0 < m -> exactDigits m e = (s, p) -> s mod 10 <> 0.
Proof.
  intros Hm. unfold exactDigits.
  set (s0 := if 0 <=? e then m * 2 ^ e else m * 5 ^ (- e)).
  assert (Hs0 : 0 < s0).
  { unfold s0. destruct (Z.leb_spec 0 e); apply Z.mul_pos_pos; try exact Hm;
      apply Z.pow_pos_nonneg; lia. }
  apply stripZeros_last. split; [exact Hs0 | apply decimal_length, Hs0].
Qed.

Lemma shortestFrom_last (fuel : nat) :
  forall m e a b k s p,
    0 < m -> 0 < a -> 0 < b ->
    k = 1 \/ (2 <= k /\ digitsAt m e a b (decExponent a b) (k - 1) = None) ->
    shortestFrom fuel m e a b (decExponent a b) k = (s, p) ->
    s mod 10 <> 0.
Proof.
  induction fuel as [|f IH]; intros m e a b k s p Hm Ha Hb Hk; cbn [shortestFrom].
  - now apply exactDigits_last.
  - destruct (digitsAt m e a b (decExponent a b) k) as [[s1 p1]|] eqn:E.
    + intros [= <- <-]. destruct Hk as [->|[Hk Hprev]].
      * now apply (digitsAt_first m e a b s1 p1).
      * intros Hz.
        apply (digitsAt_down m e a b (decExponent a b) k s1 p1) in Hz; auto; lia.
    + apply IH; auto. right. split; [destruct Hk; lia|].
      now replace (k + 1 - 1) with k by lia.
Qed.

(** The digits [toString] writes do not end in zero: none of them can be
    left out. *)
Lemma shortest_last (m e s p : Z) :
  0 < m -> shortest m e = (s, p) -> s mod 10 <> 0.
Proof.
  intros Hm. unfold shortest.
  apply shortestFrom_last; auto; [|reflexivity].
  pose proof (mag_pos m e Hm) as P. rewrite <- (Qred_correct (mag m e)) in P.
  unfold Qlt in P. cbn [Qnum Qden] in P. lia.
Qed.


(** *** No trailing zero, no trailing point *)

(** The text before the exponent part. *)
Fixpoint mantissaText (t : jsstring) : jsstring :=
  match t with
  | [] => []
  | c :: r => if (c =? ch "e")%N then [] else c :: mantissaText r
  end.

Definition hasPoint (t : jsstring) : bool := existsb (N.eqb (ch ".")) t.

(** The mantissa ends in a digit, and not in a zero when it has a
    decimal point. *)
Definition trimmed (t : jsstring) : bool :=
  match rev (mantissaText t) with
  | c :: _ => isDigit c && (negb (hasPoint (mantissaText t)) || negb (c =? ch "0")%N)
  | [] => false
  end.

Import TrailingFacts.

Lemma tokenChar_not_e (c : codeUnit) : isTokenChar c = true -> (c =? ch "e")%N = false.
Proof.
  intros H. destruct (N.eqb_spec c (ch "e")) as [->|]; [discriminate H | reflexivity].
Qed.

Lemma mantissaText_app (u rest : jsstring) :
  forallb isTokenChar u = true -> startsWith [ch "e"] rest = true \/ rest = [] ->
  mantissaText (u ++ rest) = u.
Proof.
  intros Hu Hr. induction u as [|c u IH].
  - cbn [app]. destruct Hr as [Hr| ->]; [|reflexivity].
    destruct rest as [|d r]; [discriminate Hr|].
    cbn [startsWith] in Hr. rewrite andb_true_r, N.eqb_sym in Hr.
    cbn [mantissaText]. now rewrite Hr.
  - cbn [forallb] in Hu. apply andb_true_iff in Hu as [Hc Hu].
    cbn [app mantissaText]. now rewrite (tokenChar_not_e c Hc), IH.
Qed.

Lemma hasPoint_app (u v : jsstring) : hasPoint (u ++ v) = hasPoint u || hasPoint v.
Proof. apply existsb_app. Qed.

Lemma hasPoint_digit (c : codeUnit) : isDigit c = true -> hasPoint [c] = false.
Proof.
  intros Hc. unfold hasPoint. cbn [existsb]. rewrite orb_false_r.
  destruct (N.eqb_spec (ch ".") c) as [<-|]; [discriminate Hc | reflexivity].
Qed.

Lemma trimmed_intro (pre : jsstring) (c : codeUnit) (rest : jsstring) :
  forallb isTokenChar pre = true -> isDigit c = true ->
  hasPoint pre = false \/ c <> ch "0" ->
  startsWith [ch "e"] rest = true \/ rest = [] ->
  trimmed ((pre ++ [c]) ++ rest) = true.
Proof.
  intros Hp Hc Hz Hr. unfold trimmed.
  rewrite mantissaText_app; [|rewrite forallb_app, Hp; cbn [forallb];
    unfold isTokenChar, isNumChar; now rewrite Hc | exact Hr].
  rewrite rev_app_distr. cbn [rev app]. rewrite Hc. cbn [andb].
  destruct Hz as [Hz|Hz].
  - now rewrite hasPoint_app, Hz, (hasPoint_digit c Hc).
  - destruct (N.eqb_spec c (ch "0")); [contradiction|]. now rewrite orb_true_r.
Qed.

Lemma digit_tokenChars (ds : jsstring) :
  forallb isDigit ds = true -> forallb isTokenChar ds = true.
Proof. intros H. now apply numChar_tokenChar, digit_numChar. Qed.

Lemma digits_no_point (ds : jsstring) :
  forallb isDigit ds = true -> hasPoint ds = false.
Proof.
  unfold hasPoint. induction ds as [|c ds IH]; [reflexivity|].
  cbn [forallb existsb]. intros H. apply andb_true_iff in H as [Hc Hd].
  rewrite (IH Hd), orb_false_r.
  destruct (N.eqb_spec (ch ".") c) as [<-|]; [discriminate Hc | reflexivity].
Qed.

(** The last digit written for [z] is that of [z mod 10]. *)
Lemma decimal_last (z : Z) :
  0 <= z ->
  exists init, decimal z = init ++ [Z.to_N (48 + z mod 10)]
               /\ forallb isDigit init = true.
Proof.
  intros Hz. pose proof (decimal_digits z Hz) as D. unfold decimal in *.
  rewrite digitsAux_S in *. destruct (z <? 10).
  - now exists [].
  - rewrite digitsAux_acc in *. eexists. split; [reflexivity|].
    rewrite forallb_app in D. now apply andb_true_iff in D.
Qed.

Lemma last_digit_nonzero (z : Z) :
  0 <= z -> z mod 10 <> 0 ->
  isDigit (Z.to_N (48 + z mod 10)) = true /\ Z.to_N (48 + z mod 10) <> ch "0".
Proof.
  intros Hz Hn. split; [apply digit_code, Hz|].
  pose proof (Z.mod_pos_bound z 10 ltac:(lia)).
  change (ch "0") with 48%N. lia.
Qed.

(** Every layout of digits that do not end in zero is trimmed. *)
Lemma layout_trimmed (sg init : jsstring) (c : codeUnit) (n : Z) :
  sg = [] \/ sg = [ch "-"] ->
  forallb isDigit init = true -> isDigit c = true -> c <> ch "0" ->
  trimmed (sg ++ layout (init ++ [c]) n) = true.
Proof.
  intros Hsg Hi Hc Hz.
  assert (Tsg : forallb isTokenChar sg = true) by (destruct Hsg as [-> | ->]; reflexivity).
  assert (Psg : hasPoint sg = false) by (destruct Hsg as [-> | ->]; reflexivity).
  assert (Ti : forallb isTokenChar init = true) by (now apply digit_tokenChars).
  unfold layout.
  set (k := Z.of_nat (List.length (init ++ [c]))).
  assert (Hk : k = Z.of_nat (List.length init) + 1).
  { unfold k. rewrite length_app. cbn [List.length]. lia. }
  destruct ((-6 <? n) && (n <=? 21)).
  - destruct (Z.leb_spec k n) as [Hn|Hn].
    + (* digits and zeros: no point at all *)
      assert (D : forallb isDigit ((init ++ [c]) ++ zeros (n - k)) = true).
      { rewrite !forallb_app, Hi, zeros_digits. cbn [forallb]. now rewrite Hc. }
      destruct (exists_last (l := (init ++ [c]) ++ zeros (n - k))) as (pre & d & E).
      { intros H. apply app_eq_nil in H as [H _]. apply app_eq_nil in H as [_ H].
        discriminate H. }
      rewrite E in *. rewrite forallb_app in D. apply andb_true_iff in D as [Dp Dd].
      cbn [forallb] in Dd. rewrite andb_true_r in Dd.
      rewrite app_assoc, <- (app_nil_r ((sg ++ pre) ++ [d])).
      apply trimmed_intro; auto.
      * now rewrite forallb_app, Tsg, digit_tokenChars.
      * left. now rewrite hasPoint_app, Psg, (digits_no_point pre Dp).
    + destruct (Z.ltb_spec 0 n) as [Hp|Hp].
      * (* digits, point, digits *)
        rewrite skipn_app.
        replace (Z.to_nat n - List.length init)%nat with 0%nat by lia.
        cbn [skipn].
        replace (sg ++ firstn (Z.to_nat n) (init ++ [c]) ++ [ch "."]
                 ++ skipn (Z.to_nat n) init ++ [c])
          with (((sg ++ firstn (Z.to_nat n) (init ++ [c]) ++ [ch "."]
                  ++ skipn (Z.to_nat n) init) ++ [c]) ++ [])
          by (rewrite app_nil_r, <- !app_assoc; reflexivity).
        apply trimmed_intro; auto.
        rewrite !forallb_app, Tsg. cbn [forallb andb].
        rewrite (digit_tokenChars (firstn _ _)), (digit_tokenChars (skipn _ _)); auto.
        -- now apply skipn_digits.
        -- apply firstn_digits. rewrite forallb_app, Hi. cbn [forallb]. now rewrite Hc.
      * (* zero, point, zeros, digits *)
        replace (sg ++ [ch "0"; ch "."] ++ zeros (- n) ++ init ++ [c])
          with (((sg ++ [ch "0"; ch "."] ++ zeros (- n) ++ init) ++ [c]) ++ [])
          by (rewrite app_nil_r, <- !app_assoc; reflexivity).
        apply trimmed_intro; auto.
        rewrite !forallb_app, Tsg, Ti, (digit_tokenChars (zeros _)) by apply zeros_digits.
        reflexivity.
  - (* exponent notation *)
    set (ex := [ch "e"; if n - 1 <? 0 then ch "-" else ch "+"] ++ decimal (Z.abs (n - 1))).
    assert (Hex : startsWith [ch "e"] ex = true \/ ex = []) by (left; reflexivity).
    destruct init as [|d init'].
    + cbn [app]. change (sg ++ c :: ex) with (sg ++ [c] ++ ex). rewrite app_assoc.
      apply trimmed_intro; auto.
    + cbn [app].
      destruct (init' ++ [c]) as [|x y] eqn:E.
      { apply app_eq_nil in E as [_ E]. discriminate E. }
      rewrite <- E.
      cbn [forallb] in Hi. apply andb_true_iff in Hi as [Hd Hi'].
      assert (Eq : sg ++ d :: ch "." :: (init' ++ [c]) ++ ex
                   = ((sg ++ [d; ch "."] ++ init') ++ [c]) ++ ex)
        by (rewrite <- !app_assoc; reflexivity).
      rewrite Eq. apply trimmed_intro; auto.
      rewrite !forallb_app, Tsg, (digit_tokenChars init' Hi'). cbn [forallb andb].
      unfold isTokenChar, isNumChar. now rewrite Hd.
Qed.

(** Whatever finite double is written, the text has no trailing point and
    no trailing zero after a point. *)
Lemma toString_trimmed (neg : bool) (m e : Z) :
  canonical m e = true -> trimmed (toString (Fin neg m e)) = true.
Proof.
  intros Hc. cbn [toString].
  destruct (Z.eqb_spec m 0) as [_|Hne]; [reflexivity|].
  assert (Hm : 0 < m) by (apply canonical_elim in Hc; lia).
  destruct (shortest m e) as [s p] eqn:E.
  destruct (shortest_sound m e s p Hc Hm E) as [_ Hs].
  pose proof (shortest_last m e s p Hm E) as Hl.
  destruct (decimal_last s Hs) as (init & Ed & Di).
  destruct (last_digit_nonzero s Hs Hl) as [Dc Nz].
  rewrite Ed. apply layout_trimmed; auto.
  destruct neg; auto.
Qed.


(** *** What the fixed notation parses to *)

(** The integer nearest to [m * 2^e * 10^f], the larger one on a tie. *)
Definition nearestScaled (m e f : Z) : Z :=
  let q := Qred (mag m e) in
  (2 * Qnum q * 10 ^ f + Z.pos (Qden q)) / (2 * Z.pos (Qden q)).

Lemma nonInteger_bound (neg : bool) (m e : Z) :
  canonical m e = true -> isInteger (Fin neg m e) = false ->
  0 < m /\ 0 < Qnum (Qred (mag m e)) < 2 ^ 53 * Z.pos (Qden (Qred (mag m e))).
Proof.
  intros Hc Hi. apply canonical_elim in Hc as ([M1 M2] & _ & _).
  cbn [isInteger] in Hi. apply orb_false_iff in Hi as [He Hmod].
  apply Z.leb_gt in He. apply Z.eqb_neq in Hmod.
  assert (Hm : 0 < m).
  { destruct (Z.eq_dec m 0) as [->|]; [|lia]. now rewrite Z.mod_0_l in Hmod by lia. }
  split; [exact Hm|].
  pose proof (Qred_correct (mag m e)) as E.
  pose proof (mag_pos m e Hm) as P. rewrite <- E in P.
  destruct (Qred (mag m e)) as [a b]. cbn [Qnum Qden] in *.
  unfold Qlt in P. cbn [Qnum Qden] in P.
  unfold Qeq, mag in E. cbn [Qnum Qden] in E.
  rewrite Z2Pos.id in E by (apply pow2_pos; lia).
  rewrite (Z.max_l 0 e), (Z.max_r 0 (- e)) in E by lia.
  rewrite Z.pow_0_r, Z.mul_1_r in E.
  assert (P2 : 2 <= 2 ^ (- e)).
  { change 2 with (2 ^ 1) at 1. apply Z.pow_le_mono_r; lia. }
  assert (B : 0 < Z.pos b) by reflexivity.
  split; [lia | nia].
Qed.

Lemma nonInteger_small (neg : bool) (m e : Z) :
  canonical m e = true -> isInteger (Fin neg m e) = false ->
  (10 ^ 21 * Z.pos (Qden (Qred (mag m e))) <=? Qnum (Qred (mag m e))) = false.
Proof.
  intros Hc Hi. destruct (nonInteger_bound neg m e Hc Hi) as [_ [_ B]].
  apply Z.leb_gt. assert (2 ^ 53 < 10 ^ 21) by reflexivity.
  assert (0 < Z.pos (Qden (Qred (mag m e)))) by reflexivity. nia.
Qed.

(** The fixed notation of a number below 10^21, parsed: the nearest
    integer of the scaled number, divided by the power of ten again, and
    rounded to a double. *)
Lemma toFixed_value (neg : bool) (m e f : Z) :
  canonical m e = true -> 0 < f ->
  (10 ^ 21 * Z.pos (Qden (Qred (mag m e))) <=? Qnum (Qred (mag m e))) = false ->
  parseFloat (toFixed (Fin neg m e) f)
  = roundQ (neg && negb (m =? 0)) (scale10 (nearestScaled m e f) (- f)).
Proof.
  intros Hc Hf Hsmall. cbn [toFixed]. rewrite Hsmall.
  unfold nearestScaled. cbv zeta.
  set (a := Qnum (Qred (mag m e))). set (b := Z.pos (Qden (Qred (mag m e)))).
  change (if neg && negb (m =? 0) then [ch "-"] else [])
    with (signText (neg && negb (m =? 0))).
  set (sg := neg && negb (m =? 0)).
  set (n := (2 * a * 10 ^ f + b) / (2 * b)).
  assert (Hn : 0 <= n).
  { apply Z.div_pos; [|unfold b; lia].
    assert (0 <= a).
    { unfold a. destruct (Z.eq_dec m 0) as [->|Hm]; [reflexivity|].
      apply canonical_elim in Hc.
      pose proof (mag_pos m e ltac:(lia)) as P.
      rewrite <- (Qred_correct (mag m e)) in P.
      unfold Qlt in P. cbn [Qnum Qden] in P. lia. }
    pose proof (pow10_pos f ltac:(lia)). unfold b. nia. }
  pose proof (decimal_digits n Hn) as Dn.
  destruct (Z.eqb_spec f 0); [lia|].
  set (padded := if Z.of_nat (List.length (decimal n)) <=? f
                 then zeros (f + 1 - Z.of_nat (List.length (decimal n))) ++ decimal n
                 else decimal n).
  assert (Dp : forallb isDigit padded = true).
  { unfold padded. destruct (Z.of_nat (List.length (decimal n)) <=? f); [|exact Dn].
    now rewrite forallb_app, zeros_digits. }
  assert (Vp : valueOf padded = n).
  { unfold padded. destruct (Z.of_nat (List.length (decimal n)) <=? f).
    - now rewrite valueOf_leading_zeros, decimal_value.
    - now apply decimal_value. }
  assert (Lp : f < Z.of_nat (List.length padded)).
  { unfold padded. destruct (Z.leb_spec (Z.of_nat (List.length (decimal n))) f); [|lia].
    rewrite length_app, Nat2Z.inj_add, zeros_length; lia. }
  set (cut := Z.to_nat (Z.of_nat (List.length padded) - f)).
  assert (Ni : firstn cut padded <> []).
  { unfold cut. destruct padded as [|c t]; [cbn in Lp; lia|].
    destruct (Z.to_nat (Z.of_nat (List.length (c :: t)) - f)) eqn:E; [lia | discriminate]. }
  pose proof (firstn_digits cut padded Dp) as Di.
  pose proof (skipn_digits cut padded Dp) as Dfp.
  destruct (firstn cut padded) as [|c t] eqn:Eip; [contradiction|].
  pose proof Di as Di'. cbn [forallb] in Di'. apply andb_true_iff in Di' as [Dc _].
  cbn [app]. rewrite parseFloat_signed by exact Dc.
  change (c :: t ++ ch "." :: skipn cut padded)
    with ((c :: t) ++ ch "." :: skipn cut padded).
  rewrite <- (app_nil_r (skipn cut padded)).
  rewrite literal_fraction; try reflexivity; try discriminate; auto.
  rewrite <- Eip, firstn_skipn, Vp. cbn [exponentPart].
  f_equal. f_equal. rewrite length_skipn. unfold cut. lia.
Qed.


(** Rounding a rational below [2^1000] gives a finite double. *)
Lemma roundPos_finite (neg : bool) (a b : Z) :
  0 <= a -> 0 < b -> a < b * 2 ^ 1000 ->
  exists m e, roundPos neg a b = Fin neg m e /\ canonical m e = true.
Proof.
  intros Ha Hb Hlt.
  pose proof (roundPos_double neg a b Ha Hb) as D. revert D.
  unfold roundPos.
  destruct (Z.eqb_spec a 0) as [_|Hne]; [intros D; now exists 0, emin|].
  destruct (ilog2_spec a b ltac:(lia) Hb) as [S1 _].
  assert (HL : ilog2 a b < 1000).
  { destruct (Z.lt_ge_cases (ilog2 a b) 1000) as [?|Hge]; [assumption|]. exfalso.
    apply (scaledLe_mono b a 1000) in S1; [|exact Hb | lia].
    unfold scaledLe in S1.
    replace (Z.max 0 1000) with 1000 in S1 by reflexivity.
    replace (Z.max 0 (Z.opp 1000)) with 0 in S1 by reflexivity.
    rewrite Z.pow_0_r in S1. lia. }
  set (e := Z.max (ilog2 a b - 52) emin).
  assert (He : e + 1 <= emax) by (unfold e, emin, emax; lia).
  match goal with
  | |- context [if ?c =? 2 ^ 53 then _ else _] => destruct (c =? 2 ^ 53)
  end.
  - destruct (Z.ltb_spec emax (e + 1)); [lia|]. intros D. now exists (2 ^ 52), (e + 1).
  - destruct (Z.ltb_spec emax e); [lia|]. intros D. eexists _, e. split; [reflexivity | exact D].
Qed.

(** The rounded value of a number that is not an integer is a finite
    double. *)
Lemma fixed_finite (neg : bool) (m e f : Z) :
  canonical m e = true -> isInteger (Fin neg m e) = false -> 0 < f ->
  exists m' e', parseFloat (toFixed (Fin neg m e) f) = Fin neg m' e'
                /\ canonical m' e' = true.
Proof.
  intros Hc Hi Hf.
  destruct (nonInteger_bound neg m e Hc Hi) as [Hm [A1 A2]].
  rewrite (toFixed_value neg m e f Hc Hf (nonInteger_small neg m e Hc Hi)).
  replace (neg && negb (m =? 0)) with neg
    by (destruct (Z.eqb_spec m 0); [lia | now rewrite andb_true_r]).
  unfold nearestScaled. cbv zeta.
  set (a := Qnum (Qred (mag m e))) in *. set (b := Z.pos (Qden (Qred (mag m e)))) in *.
  assert (Hb : 0 < b) by reflexivity.
  pose proof (pow10_pos f ltac:(lia)) as P10.
  set (n := (2 * a * 10 ^ f + b) / (2 * b)).
  assert (Hn0 : 0 <= n) by (apply Z.div_pos; nia).
  assert (Hn : n * (2 * b) <= 2 * a * 10 ^ f + b).
  { rewrite Z.mul_comm. apply Z.mul_div_le. lia. }
  assert (Hn' : n < 2 ^ 54 * 10 ^ f) by nia.
  unfold roundQ, scale10. destruct (Z.leb_spec 0 (- f)); [lia|].
  pose proof (Qred_correct (n # Z.to_pos (10 ^ (- - f)))) as E.
  destruct (Qred (n # Z.to_pos (10 ^ (- - f)))) as [x y]. cbn [Qnum Qden].
  unfold Qeq in E. cbn [Qnum Qden] in E.
  rewrite Z.opp_involutive, Z2Pos.id in E by exact P10.
  assert (Hy : 0 < Z.pos y) by reflexivity.
  apply roundPos_finite; [nia | exact Hy |].
  assert (2 ^ 54 < 2 ^ 1000) by reflexivity. nia.
Qed.

End ShortestFacts.

(* ================================================================== *)
(** ** The result formatter *)
(* ================================================================== *)

Section Formatter.
Import JSString JSNumber Page NumberFacts RoundingFacts DecimalFacts ShortestFacts.
Local Open Scope Z_scope.

Lemma strictEq_refl (neg : bool) (m e : Z) :
  strictEq (Fin neg m e) (Fin neg m e) = true.
Proof. cbn [strictEq]. apply Qeq_bool_iff. reflexivity. Qed.

(** What [parseFloat] reads from what [toString] wrote is the number
    written, for every double and both infinities. *)
Lemma parseFloat_toString (x : number) :
  isDouble x = true -> isNaN x = false ->
  strictEq (parseFloat (toString x)) x = true.
Proof.
  destruct x as [|neg|neg m e]; [discriminate | |].
  - intros _ _. destruct neg; reflexivity.
  - cbn [isDouble]. intros Hc _. rewrite (toString_parseFloat neg m e Hc).
    destruct (Z.eqb_spec m 0) as [->|_]; [|apply strictEq_refl].
    apply canonical_elim in Hc as (_ & _ & [H| ->]); [lia|].
    destruct neg; reflexivity.
Qed.

(** The value [formatResult] writes: the number itself when it is an
    integer, the re-parsed fixed notation otherwise. *)
Definition roundedValue (f : Z) (n : number) : number :=
  if isInteger n then n else parseFloat (toFixed n f).

Lemma roundedValue_double (f : Z) (neg : bool) (m e : Z) :
  canonical m e = true -> 0 <= f ->
  isDouble (roundedValue f (Fin neg m e)) = true
  /\ isNaN (roundedValue f (Fin neg m e)) = false.
Proof.
  intros Hc Hf. unfold roundedValue. destruct (isInteger (Fin neg m e)).
  - split; [exact Hc | reflexivity].
  - split; [apply parseFloat_double | now apply toFixed_parses].
Qed.

Lemma formatResult_rounded :
  (forall n, Scientific.formatResult n = toString (roundedValue 12 n))
  /\ (forall n, Basic.formatResult n = toString (roundedValue 10 n)).
Proof.
  split; intros n; unfold Scientific.formatResult, Basic.formatResult, roundedValue;
    destruct (isInteger n); reflexivity.
Qed.

Lemma roundedValue_trimmed (f : Z) (neg : bool) (m e : Z) :
  canonical m e = true -> 0 < f ->
  trimmed (toString (roundedValue f (Fin neg m e))) = true.
Proof.
  intros Hc Hf. unfold roundedValue.
  destruct (isInteger (Fin neg m e)) eqn:Hi.
  - now apply toString_trimmed.
  - destruct (fixed_finite neg m e f Hc Hi Hf) as (m' & e' & -> & Hc').
    now apply toString_trimmed.
Qed.

Lemma formatResult_trimmed (neg : bool) (m e : Z) :
  canonical m e = true ->
  trimmed (Scientific.formatResult (Fin neg m e)) = true
  /\ trimmed (Basic.formatResult (Fin neg m e)) = true.
Proof.
  intros Hc. destruct formatResult_rounded as [E1 E2]. rewrite E1, E2.
  split; apply roundedValue_trimmed; auto; lia.
Qed.

(** C9 (as amended).  For a finite double [n]:
    - an integer below 10^21 in magnitude is written as a run of decimal
      digits after its sign, with no decimal point and no exponent (from
      10^21 on [toString] uses the exponent notation);
    - a number that is not an integer is rounded to 12 decimals in the
      scientific variant and 10 in the basic one (the nearest integer of
      the number scaled by the power of ten, scaled back and rounded to a
      finite double), and that rounded value is written by [toString];
    - the text has no trailing decimal point and no trailing zero after a
      decimal point;
    - the text, parsed, is the rounded value it was produced from. *)
Theorem formatResult_rendering (neg : bool) (m e : Z) :
  canonical m e = true ->
  (isInteger (Fin neg m e) = true ->
   ltb (abs (Fin neg m e)) (ofZ (10 ^ 21)) = true ->
   exists ds, ds <> [] /\ forallb isDigit ds = true
              /\ Scientific.formatResult (Fin neg m e)
                 = (if neg && negb (m =? 0) then [ch "-"] else []) ++ ds
              /\ Basic.formatResult (Fin neg m e)
                 = (if neg && negb (m =? 0) then [ch "-"] else []) ++ ds)
  /\ (isInteger (Fin neg m e) = false ->
      Scientific.formatResult (Fin neg m e) = toString (roundedValue 12 (Fin neg m e))
      /\ roundedValue 12 (Fin neg m e)
         = roundQ neg (scale10 (nearestScaled m e 12) (- 12))
      /\ Basic.formatResult (Fin neg m e) = toString (roundedValue 10 (Fin neg m e))
      /\ roundedValue 10 (Fin neg m e)
         = roundQ neg (scale10 (nearestScaled m e 10) (- 10)))
  /\ trimmed (Scientific.formatResult (Fin neg m e)) = true
  /\ trimmed (Basic.formatResult (Fin neg m e)) = true
  /\ strictEq (parseFloat (Scientific.formatResult (Fin neg m e)))
              (roundedValue 12 (Fin neg m e)) = true
  /\ strictEq (parseFloat (Basic.formatResult (Fin neg m e)))
              (roundedValue 10 (Fin neg m e)) = true.
Proof.
  intros Hc. split; [|split; [|split; [|split; [|split]]]].
  - intros Hi Hlt. cbn [abs] in Hlt.
    destruct (toString_integer neg m e Hc Hi Hlt) as (ds & Hne & Hd & E).
    exists ds. unfold Scientific.formatResult, Basic.formatResult. rewrite Hi.
    repeat split; assumption.
  - intros Hi. unfold Scientific.formatResult, Basic.formatResult, roundedValue.
    rewrite Hi.
    destruct (nonInteger_bound neg m e Hc Hi) as [Hm _].
    pose proof (nonInteger_small neg m e Hc Hi) as Hs.
    rewrite !(toFixed_value neg m e _ Hc) by (assumption || lia).
    replace (neg && negb (m =? 0)) with neg
      by (destruct (Z.eqb_spec m 0); [lia | now rewrite andb_true_r]).
    repeat split; reflexivity.
  - now apply formatResult_trimmed.
  - now apply formatResult_trimmed.
  - destruct formatResult_rounded as [E _]. rewrite E.
    destruct (roundedValue_double 12 neg m e Hc ltac:(lia)) as [D N].
    now apply parseFloat_toString.
  - destruct formatResult_rounded as [_ E]. rewrite E.
    destruct (roundedValue_double 10 neg m e Hc ltac:(lia)) as [D N].
    now apply parseFloat_toString.
Qed.

Lemma formatResult_rendering_witness :
  (exists ds, ds <> [] /\ forallb isDigit ds = true
              /\ Scientific.formatResult (Fin true 8444249301319680 (-46)) = [ch "-"] ++ ds
              /\ Basic.formatResult (Fin true 8444249301319680 (-46)) = [ch "-"] ++ ds)
  /\ Scientific.formatResult (Fin false 5404319552844596 (-54))
     = toString (roundedValue 12 (Fin false 5404319552844596 (-54)))
  /\ roundedValue 12 (Fin false 5404319552844596 (-54))
     = roundQ false (scale10 (nearestScaled 5404319552844596 (-54) 12) (- 12))
  /\ trimmed (Scientific.formatResult (Fin false 5404319552844596 (-54))) = true
  /\ strictEq (parseFloat (Scientific.formatResult (Fin false 5404319552844596 (-54))))
              (roundedValue 12 (Fin false 5404319552844596 (-54))) = true
  /\ strictEq (parseFloat (Basic.formatResult (Fin false 5404319552844596 (-54))))
              (roundedValue 10 (Fin false 5404319552844596 (-54))) = true.
Proof.
  destruct (formatResult_rendering true 8444249301319680 (-46) eq_refl) as [H1 _].
  destruct (formatResult_rendering false 5404319552844596 (-54) eq_refl)
    as [_ [H2 [H3 [_ [H5 H6]]]]].
  destruct (H2 eq_refl) as [E1 [E2 _]].
  split; [exact (H1 eq_refl eq_refl)|]. repeat split; assumption.
Defined.

(** The doubles of the example above: -120, and 0.1 + 0.2, which is
    written 0.3. *)
Example formatResult_examples :
  ofZ (-120) = Fin true 8444249301319680 (-46)
  /\ Scientific.formatResult (ofZ (-120)) = str "-120"
  /\ add (parseFloat (str "0.1")) (parseFloat (str "0.2"))
     = Fin false 5404319552844596 (-54)
  /\ toString (Fin false 5404319552844596 (-54)) = str "0.30000000000000004"
  /\ Scientific.formatResult (Fin false 5404319552844596 (-54)) = str "0.3"
  /\ Basic.formatResult (div (ofZ 2) (ofZ 3)) = str "0.6666666667".
Proof. repeat split; vm_compute; reflexivity. Qed.

(** C9 as the specification states it fails: 1.5e21 is an integer, and
    its text has a decimal point. *)
Lemma formatResult_integer_counterexample :
  ~ (forall n : number,
       isDouble n = true -> isInteger n = true ->
       existsb (N.eqb (ch ".")) (Scientific.formatResult n) = false).
Proof.
  intros H.
  specialize (H (parseFloat (str "1.5e21")) eq_refl eq_refl).
  vm_compute in H. discriminate H.
Qed.

Example formatResult_large_integers :
  Scientific.formatResult (parseFloat (str "1.5e21")) = str "1.5e+21"
  /\ Basic.formatResult (parseFloat (str "1.5e21")) = str "1.5e+21"
  /\ isInteger (parseFloat (str "1.5e21")) = true.
Proof. repeat split; vm_compute; reflexivity. Qed.

End Formatter.

(* ================================================================== *)
(** ** Editing: backspace, and the sign without a number *)
(* ================================================================== *)

Section Editing.
Import JSString JSNumber Page TrailingFacts.

Lemma symbol_single (c : codeUnit) (v : jsstring) :
  lookup [c] symbolMap = Some v ->
  exists x, v = [x] /\ lookup [x] symbolMap = None /\ x <> ch "^"
            /\ Scientific.allowedChar x = true /\ Basic.allowedChar x = true.
Proof.
  cbn [lookup symbolMap streq].
  repeat match goal with
  | |- context [(c =? ?k)%N] =>
      destruct (N.eqb_spec c k);
      [intros [= <-]; eexists; repeat split; discriminate|]
  end.
  discriminate.
Qed.

Lemma expr_deleteLast (st : page) : expr (deleteLast st) = removelast (expr st).
Proof. reflexivity. Qed.

Lemma expr_appendValue (st : page) (c : codeUnit) :
  expr (appendValue [c] st)
  = if streq (expr st) [ch "0"] && isDigit c then [c] else expr st ++ canonicalKey c.
Proof.
  unfold appendValue, canonicalKey.
  destruct (lookup [c] symbolMap) as [v|] eqn:L.
  - rewrite (symbol_not_digit c v L), andb_false_r.
    destruct (isDigit c) eqn:D; [|now rewrite andb_false_r].
    rewrite (digit_not_symbol c D) in L. discriminate L.
  - cbn [isSingleDigit]. destruct (streq (expr st) [ch "0"] && isDigit c); reflexivity.
Qed.

(** X1.  Backspace after a typed key gives the expression back, except
    after a digit typed on the expression 0: the digit took the place of
    the zero, and backspace leaves the expression empty. *)
Theorem deleteLast_after_appendValue (st : page) (c : codeUnit) :
  expr (deleteLast (appendValue [c] st))
  = (if streq (expr st) [ch "0"] && isDigit c then [] else expr st)
  /\ textContent (deleteLast (appendValue [c] st))
     = (if streq (expr st) [ch "0"] && isDigit c then [ch "0"]
        else if truthy (expr st) then expr st else [ch "0"]).
Proof.
  assert (E : expr (deleteLast (appendValue [c] st))
              = (if streq (expr st) [ch "0"] && isDigit c then [] else expr st)).
  { rewrite expr_deleteLast, expr_appendValue.
    destruct (streq (expr st) [ch "0"] && isDigit c); [reflexivity|].
    unfold canonicalKey. destruct (lookup [c] symbolMap) as [v|] eqn:L.
    - destruct (symbol_single c v L) as (x & -> & _). apply removelast_last.
    - apply removelast_last. }
  split; [exact E|].
  change (textContent (deleteLast (appendValue [c] st)))
    with (if truthy (expr (deleteLast (appendValue [c] st)))
          then expr (deleteLast (appendValue [c] st)) else [ch "0"]).
  rewrite E. destruct (streq (expr st) [ch "0"] && isDigit c); reflexivity.
Qed.

Lemma removelast_firstn_le (A : Type) (k : nat) (l : list A) :
  (k <= List.length l)%nat -> removelast (firstn k l) = firstn (k - 1) l.
Proof.
  destruct k as [|k]; [reflexivity|]. intros H.
  replace (S k - 1)%nat with k by lia. apply removelast_firstn. lia.
Qed.

Lemma iter_deleteLast (n : nat) (st : page) :
  expr (Nat.iter n deleteLast st) = firstn (List.length (expr st) - n) (expr st)
  /\ timers (Nat.iter n deleteLast st) = timers st
  /\ angleMode (Nat.iter n deleteLast st) = angleMode st.
Proof.
  induction n as [|n [IH1 [IH2 IH3]]].
  - change (Nat.iter 0 deleteLast st) with st. rewrite Nat.sub_0_r, firstn_all. auto.
  - change (Nat.iter (S n) deleteLast st) with (deleteLast (Nat.iter n deleteLast st)).
    rewrite expr_deleteLast, IH1. split; [|split; assumption].
    rewrite removelast_firstn_le by lia. f_equal. lia.
Qed.

(** X2.  [n] backspaces leave the first characters of the expression,
    all but [n] of them; once nothing is left (and one backspace at least
    was made) the page is the one [clearAll] gives. *)
Theorem deleteLast_repeated (st : page) (n : nat) :
  expr (Nat.iter n deleteLast st) = firstn (List.length (expr st) - n) (expr st)
  /\ ((1 <= n)%nat -> (List.length (expr st) <= n)%nat ->
      Nat.iter n deleteLast st = clearAll st).
Proof.
  split; [apply iter_deleteLast|]. intros H1 Hn.
  destruct n as [|n]; [lia|].
  change (Nat.iter (S n) deleteLast st) with (deleteLast (Nat.iter n deleteLast st)).
  destruct (iter_deleteLast n st) as (E & T & A).
  revert E T A. generalize (Nat.iter n deleteLast st). intros s E T A.
  unfold deleteLast, clearAll, updateDisplay, setExpr, setText, setError, sliceDropLast.
  cbn [expr textContent errorClass timers angleMode].
  rewrite E, T, A, removelast_firstn_le by lia.
  replace (List.length (expr st) - n - 1)%nat with 0%nat by lia.
  reflexivity.
Qed.

Lemma deleteLast_repeated_witness :
  Nat.iter 3 deleteLast (typed "2+7") = clearAll (typed "2+7")
  /\ expr (Nat.iter 2 deleteLast (typed "12+7")) = str "12".
Proof.
  split.
  - apply (proj2 (deleteLast_repeated (typed "2+7") 3)); cbn; lia.
  - exact (proj1 (deleteLast_repeated (typed "12+7") 2)).
Defined.

(** Where no number ends the expression, the pattern captures all of it
    and an empty number. *)
Lemma matchTrailing_no_number (s : jsstring) :
  existsb isLineTerminator s = false ->
  s = [] \/ (exists q c, s = q ++ [c] /\ isTokenChar c = false) ->
  matchTrailing s = Some (s, []).
Proof.
  intros HT H.
  rewrite <- (app_nil_r s) at 1.
  apply matchTrailing_first; [exact HT | reflexivity |].
  intros q1 c q2 E. rewrite app_nil_r.
  destruct H as [-> | (q & d & -> & Hd)].
  - destruct q1; discriminate E.
  - destruct (exists_last (l := c :: q2)) as (u & x & Eu); [discriminate|].
    rewrite Eu in E |- *. rewrite app_assoc in E.
    apply app_inj_tail in E as [_ <-].
    apply (other_char_not_number u d [] Hd).
Qed.

Lemma matchTrailing_bare_minus (s : jsstring) :
  existsb isLineTerminator s = false ->
  matchTrailing (s ++ [ch "-"]) = Some (s, [ch "-"]).
Proof.
  intros HT. apply matchTrailing_first; [exact HT | reflexivity |].
  intros q1 c q2 _. apply (minus_inside_not_number c q2 []).
Qed.

(** X3.  On an expression that is empty or ends in a character no number
    contains (an operator other than minus, a parenthesis), the negate key
    puts a bare minus at the end, and pressed again takes it away. *)
Theorem negate_without_number (st : page) :
  existsb isLineTerminator (expr st) = false ->
  expr st = [] \/ (exists q c, expr st = q ++ [c] /\ isTokenChar c = false) ->
  matchTrailing (expr st) = Some (expr st, [])
  /\ negateLastNumber st = updateDisplay (setExpr st (expr st ++ [ch "-"]))
  /\ expr (negateLastNumber (negateLastNumber st)) = expr st
  /\ textContent (negateLastNumber (negateLastNumber st))
     = (if truthy (expr st) then expr st else [ch "0"]).
Proof.
  intros HT H. pose proof (matchTrailing_no_number _ HT H) as Hm.
  assert (E1 : negateLastNumber st = updateDisplay (setExpr st (expr st ++ [ch "-"]))).
  { unfold negateLastNumber. rewrite Hm. reflexivity. }
  assert (E2 : expr (negateLastNumber (negateLastNumber st)) = expr st).
  { rewrite (negate_expr _ (expr st) [ch "-"]).
    - cbn [truthy startsWith slice1 tl]. rewrite N.eqb_refl. cbn [andb]. apply app_nil_r.
    - rewrite E1. apply (matchTrailing_bare_minus _ HT). }
  split; [exact Hm | split; [exact E1 | split; [exact E2|]]].
  rewrite <- E2.
  generalize (negateLastNumber st). intros s. unfold negateLastNumber.
  destruct (matchTrailing (expr s)) as [[p l]|] eqn:M.
  - destruct (truthy l); reflexivity.
  - destruct (matchTrailing_total (expr s)) as (p & l & M' & _). congruence.
Qed.

Lemma negate_without_number_witness :
  expr (negateLastNumber (typed "5*(")) = str "5*(-"
  /\ expr (negateLastNumber (negateLastNumber (typed "5*("))) = str "5*("
  /\ expr (negateLastNumber initial) = str "-".
Proof.
  destruct (negate_without_number (typed "5*(") eq_refl) as (_ & H1 & H2 & _).
  { right. exists (str "5*"), (ch "("). split; reflexivity. }
  destruct (negate_without_number initial eq_refl (or_introl eq_refl)) as (_ & H3 & _).
  split; [now rewrite H1 | split; [exact H2 | now rewrite H3]].
Defined.

End Editing.

(* ================================================================== *)
(** ** Normalization, validation and the text handed to the host *)
(* ================================================================== *)

Section Validation.
Import JSString JSNumber Page TrailingFacts.

(** A key of the table of visual symbols. *)
Definition isVisual (c : codeUnit) : bool :=
  match lookup [c] symbolMap with Some _ => true | None => false end.

(** What one character of the expression becomes in the scientific
    page's normalized text. *)
Definition caret (c : codeUnit) : jsstring :=
  if (c =? ch "^")%N then [ch "*"; ch "*"] else [c].

Definition sciChar (c : codeUnit) : jsstring := flat_map caret (canonicalKey c).

Lemma forallb_flat_map (f : codeUnit -> bool) (g : codeUnit -> jsstring) (s : jsstring) :
  forallb f (flat_map g s) = forallb (fun c => forallb f (g c)) s.
Proof.
  induction s as [|c r IH]; [reflexivity|].
  cbn [flat_map forallb]. now rewrite forallb_app, IH.
Qed.

Lemma forallb_pointwise (f g : codeUnit -> bool) (s : jsstring) :
  (forall c, f c = g c) -> forallb f s = forallb g s.
Proof.
  intros H. induction s as [|c r IH]; [reflexivity|].
  cbn [forallb]. now rewrite H, IH.
Qed.

Lemma flat_map_fixed (g : codeUnit -> jsstring) (ok : codeUnit -> bool) (s : jsstring) :
  (forall c, ok c = true -> g c = [c]) ->
  forallb ok s = true -> flat_map g s = s.
Proof.
  intros Hg. induction s as [|c r IH]; [reflexivity|].
  cbn [flat_map forallb]. intros H. apply andb_true_iff in H as [Hc Hr].
  now rewrite (Hg c Hc), IH.
Qed.

Lemma truthy_flat_map (g : codeUnit -> jsstring) (s : jsstring) :
  (forall c, g c <> []) -> truthy (flat_map g s) = truthy s.
Proof.
  intros Hg. destruct s as [|c r]; [reflexivity|].
  cbn [flat_map]. specialize (Hg c). destruct (g c); [contradiction | reflexivity].
Qed.

Lemma mapSymbols_canonical (s : jsstring) : mapSymbols s = flat_map canonicalKey s.
Proof. reflexivity. Qed.

Lemma normalize_sciChar (s : jsstring) :
  Scientific.normalizeExpression s = flat_map sciChar s.
Proof.
  change (flat_map caret (flat_map canonicalKey s) = flat_map sciChar s).
  induction s as [|c r IH]; [reflexivity|].
  change (flat_map canonicalKey (c :: r)) with (canonicalKey c ++ flat_map canonicalKey r).
  change (flat_map sciChar (c :: r)) with (sciChar c ++ flat_map sciChar r).
  now rewrite flat_map_app, IH.
Qed.

(** Neither a visual symbol nor a caret. *)
Definition plain (c : codeUnit) : bool := negb (isVisual c) && negb (c =? ch "^")%N.

Lemma canonicalKey_cases (c : codeUnit) :
  (isVisual c = true /\ exists x, canonicalKey c = [x] /\ isVisual x = false
                                  /\ (x =? ch "^")%N = false
                                  /\ Scientific.allowedChar x = true
                                  /\ Basic.allowedChar x = true)
  \/ (isVisual c = false /\ canonicalKey c = [c]).
Proof.
  unfold isVisual, canonicalKey. destruct (lookup [c] symbolMap) as [v|] eqn:L.
  - left. split; [reflexivity|].
    destruct (symbol_single c v L) as (x & -> & Lx & Hx & A1 & A2).
    exists x. rewrite Lx. repeat split; auto. now apply N.eqb_neq.
  - right. split; reflexivity.
Qed.

Lemma sciChar_cases (c : codeUnit) :
  (isVisual c = true /\ (c =? ch "^")%N = false
   /\ exists x, canonicalKey c = [x] /\ sciChar c = [x] /\ isVisual x = false
                /\ (x =? ch "^")%N = false /\ Scientific.allowedChar x = true)
  \/ (isVisual c = false /\ c = ch "^" /\ canonicalKey c = [c]
      /\ sciChar c = [ch "*"; ch "*"])
  \/ (isVisual c = false /\ (c =? ch "^")%N = false /\ canonicalKey c = [c]
      /\ sciChar c = [c]).
Proof.
  unfold sciChar. destruct (canonicalKey_cases c) as [(V & x & E & Vx & Cx & A & _) | (V & E)].
  - left. split; [exact V|]. split.
    + destruct (N.eqb_spec c (ch "^")) as [->|]; [discriminate V | reflexivity].
    + exists x. rewrite E. cbn [flat_map]. unfold caret. rewrite Cx. repeat split; auto.
  - right. rewrite E. cbn [flat_map]. unfold caret.
    destruct (N.eqb_spec c (ch "^")) as [->|Hc].
    + left. repeat split; auto.
    + right. apply N.eqb_neq in Hc. repeat split; auto.
Qed.

Lemma sciChar_plain (c : codeUnit) : forallb plain (sciChar c) = true.
Proof.
  destruct (sciChar_cases c) as [(_ & _ & x & _ & -> & Vx & Cx & _) | [(_ & _ & _ & ->) | (V & C & _ & ->)]];
    [cbn [forallb]; unfold plain; now rewrite Vx, Cx | reflexivity
    | cbn [forallb]; unfold plain; now rewrite V, C].
Qed.

Lemma sciChar_fixed (c : codeUnit) : plain c = true -> sciChar c = [c].
Proof.
  unfold plain. intros H. apply andb_true_iff in H as [V C].
  apply negb_true_iff in V, C.
  destruct (sciChar_cases c) as [(V' & _) | [(_ & -> & _) | (_ & _ & _ & E)]];
    [congruence | discriminate C | exact E].
Qed.

Lemma canonicalKey_fixed (c : codeUnit) : negb (isVisual c) = true -> canonicalKey c = [c].
Proof.
  intros V. apply negb_true_iff in V.
  destruct (canonicalKey_cases c) as [(V' & _) | (_ & E)]; [congruence | exact E].
Qed.

Lemma canonicalKey_plain (c : codeUnit) :
  forallb (fun x => negb (isVisual x)) (canonicalKey c) = true.
Proof.
  destruct (canonicalKey_cases c) as [(_ & x & -> & Vx & _) | (V & ->)];
    cbn [forallb]; [now rewrite Vx | now rewrite V].
Qed.

Lemma normalize_plain (s : jsstring) :
  forallb plain (Scientific.normalizeExpression s) = true.
Proof.
  rewrite normalize_sciChar, forallb_flat_map.
  apply forallb_forall. intros c _. apply sciChar_plain.
Qed.

Lemma mapSymbols_plain (s : jsstring) :
  forallb (fun c => negb (isVisual c)) (Basic.normalizeExpression s) = true.
Proof.
  unfold Basic.normalizeExpression. rewrite mapSymbols_canonical, forallb_flat_map.
  apply forallb_forall. intros c _. apply canonicalKey_plain.
Qed.

(** X4.  The normalized text holds no visual symbol (and, on the
    scientific page, no caret), and normalizing it again changes
    nothing. *)
Theorem normalizeExpression_idempotent (s : jsstring) :
  forallb plain (Scientific.normalizeExpression s) = true
  /\ Scientific.normalizeExpression (Scientific.normalizeExpression s)
     = Scientific.normalizeExpression s
  /\ forallb (fun c => negb (isVisual c)) (Basic.normalizeExpression s) = true
  /\ Basic.normalizeExpression (Basic.normalizeExpression s) = Basic.normalizeExpression s.
Proof.
  pose proof (normalize_plain s) as P. pose proof (mapSymbols_plain s) as Q.
  split; [exact P | split; [|split; [exact Q|]]].
  - rewrite (normalize_sciChar (Scientific.normalizeExpression s)).
    apply (flat_map_fixed sciChar plain _ sciChar_fixed P).
  - unfold Basic.normalizeExpression at 1. rewrite mapSymbols_canonical.
    apply (flat_map_fixed canonicalKey _ _ canonicalKey_fixed Q).
Qed.

Lemma sciChar_allowed (c : codeUnit) :
  forallb Scientific.allowedChar (sciChar c) = Scientific.allowedChar c || isVisual c.
Proof.
  destruct (sciChar_cases c) as [(V & _ & x & _ & -> & _ & _ & A) | [(V & -> & _ & ->) | (V & _ & _ & ->)]].
  - cbn [forallb]. now rewrite A, V, orb_true_r.
  - reflexivity.
  - cbn [forallb]. now rewrite V, andb_true_r, orb_false_r.
Qed.

Lemma canonicalKey_allowed (c : codeUnit) :
  forallb Basic.allowedChar (canonicalKey c) = Basic.allowedChar c || isVisual c.
Proof.
  destruct (canonicalKey_cases c) as [(V & x & -> & _ & _ & _ & A) | (V & ->)];
    cbn [forallb]; rewrite V.
  - now rewrite A, orb_true_r.
  - now rewrite andb_true_r, orb_false_r.
Qed.

Lemma sciChar_nonempty (c : codeUnit) : sciChar c <> [].
Proof.
  destruct (sciChar_cases c) as [(_ & _ & x & _ & -> & _) | [(_ & _ & _ & ->) | (_ & _ & _ & ->)]];
    discriminate.
Qed.

Lemma canonicalKey_nonempty (c : codeUnit) : canonicalKey c <> [].
Proof.
  destruct (canonicalKey_cases c) as [(_ & x & -> & _) | (_ & ->)]; discriminate.
Qed.

Lemma allowedRE_scientific (s : jsstring) :
  Scientific.allowedRE (Scientific.normalizeExpression s)
  = truthy s && forallb (fun c => Scientific.allowedChar c || isVisual c) s.
Proof.
  unfold Scientific.allowedRE. rewrite normalize_sciChar.
  rewrite (truthy_flat_map sciChar s sciChar_nonempty), forallb_flat_map.
  f_equal. apply forallb_pointwise. intros c. apply sciChar_allowed.
Qed.

Lemma allowedRE_basic (s : jsstring) :
  Basic.allowedRE (Basic.normalizeExpression s)
  = truthy s && forallb (fun c => Basic.allowedChar c || isVisual c) s.
Proof.
  unfold Basic.allowedRE, Basic.normalizeExpression. rewrite mapSymbols_canonical.
  rewrite (truthy_flat_map canonicalKey s canonicalKey_nonempty), forallb_flat_map.
  f_equal. apply forallb_pointwise. intros c. apply canonicalKey_allowed.
Qed.

(** What [calculate] does with the host's answer. *)
Definition finish (format : number -> jsstring) (st : page) (r : completion) : page :=
  match r with
  | Returns x =>
      if isMathError x then showError (str "Math error") st
      else updateDisplay (setExpr st (format x))
  | _ => showError (str "Error") st
  end.

Section Host.
Variable hostEval : jsstring -> completion.

(** X5.  [calculate] leaves an empty expression alone; it shows Invalid
    characters, without asking the host, exactly when some character of
    the expression is neither in the allowed class nor a visual symbol
    (on the basic page a caret is such a character); otherwise the host
    is asked. *)
Theorem calculate_validation (st : page) :
  Scientific.calculate hostEval st
  = (if negb (truthy (expr st)) then st
     else if forallb (fun c => Scientific.allowedChar c || isVisual c) (expr st)
     then finish Scientific.formatResult st
            (hostEval (stripLast Scientific.trailingOperator
                         (Scientific.normalizeExpression (expr st))))
     else showError (str "Invalid characters") st)
  /\ Basic.calculate hostEval st
     = (if negb (truthy (expr st)) then st
        else if forallb (fun c => Basic.allowedChar c || isVisual c) (expr st)
        then finish Basic.formatResult st
               (hostEval (stripLast Basic.trailingOther
                            (Basic.normalizeExpression (expr st))))
        else showError (str "Invalid characters") st)
  /\ (In (ch "^") (expr st) ->
      Basic.calculate hostEval st = showError (str "Invalid characters") st).
Proof.
  assert (B : Basic.calculate hostEval st
     = (if negb (truthy (expr st)) then st
        else if forallb (fun c => Basic.allowedChar c || isVisual c) (expr st)
        then finish Basic.formatResult st
               (hostEval (stripLast Basic.trailingOther
                            (Basic.normalizeExpression (expr st))))
        else showError (str "Invalid characters") st)).
  { unfold Basic.calculate. rewrite allowedRE_basic.
    destruct (truthy (expr st)); [|reflexivity]. cbn [negb andb].
    destruct (forallb _ (expr st)); cbn [negb]; [|reflexivity].
    unfold finish. destruct (hostEval _); reflexivity. }
  split; [|split; [exact B|]].
  - clear B. unfold Scientific.calculate. rewrite allowedRE_scientific.
    destruct (truthy (expr st)); [|reflexivity]. cbn [negb andb].
    destruct (forallb _ (expr st)); cbn [negb]; [|reflexivity].
    unfold finish. destruct (hostEval _); reflexivity.
  - intros H. rewrite B.
    destruct (expr st) as [|c r] eqn:E; [contradiction|]. cbn [truthy negb].
    destruct (forallb _ (c :: r)) eqn:F; [|reflexivity].
    rewrite forallb_forall in F. specialize (F _ H). discriminate F.
Qed.

End Host.

Lemma calculate_validation_witness :
  Basic.calculate digitsEval (typed "2^3") = showError (str "Invalid characters") (typed "2^3").
Proof.
  apply (proj2 (proj2 (calculate_validation digitsEval (typed "2^3")))).
  cbn. tauto.
Defined.

Lemma stripLast_forallb (f cls : codeUnit -> bool) (s : jsstring) :
  forallb f s = true -> forallb f (stripLast cls s) = true.
Proof.
  intros H. destruct (stripLast_one cls s) as [(t & c & -> & _ & ->) | [-> _]]; [|exact H].
  rewrite forallb_app in H. now apply andb_true_iff in H.
Qed.

Lemma plain_allowed_basic (c : codeUnit) :
  Scientific.allowedChar c = true -> plain c = true -> Basic.allowedChar c = true.
Proof.
  unfold Scientific.allowedChar, Basic.allowedChar, plain.
  intros A P. apply andb_true_iff in P as [_ P]. apply negb_true_iff in P.
  rewrite P in A. rewrite !orb_false_r in A.
  destruct (isDigit c); [reflexivity|]. destruct (isWhiteSpace c); [now rewrite orb_true_r|].
  rewrite !orb_false_l, !orb_false_r in *.
  repeat match type of A with
  | (_ || _) = true => apply orb_true_iff in A as [A|A]
  end; rewrite A; repeat (rewrite ?orb_true_r, ?orb_true_l); reflexivity.
Qed.

(** X6.  The text [calculate] hands to the host is made of digits, the
    operators + - * / %, dots, parentheses and white space only: two hosts
    that agree on such texts give the same page, on both pages. *)
Theorem host_sees_safe_text (h1 h2 : jsstring -> completion) (st : page) :
  (forall t, forallb Basic.allowedChar t = true -> h1 t = h2 t) ->
  Scientific.calculate h1 st = Scientific.calculate h2 st
  /\ Basic.calculate h1 st = Basic.calculate h2 st.
Proof.
  intros H. split.
  - unfold Scientific.calculate.
    destruct (truthy (expr st)); [|reflexivity]. cbn [negb].
    destruct (Scientific.allowedRE _) eqn:A; [|reflexivity]. cbn [negb].
    rewrite H; [reflexivity|].
    apply stripLast_forallb.
    unfold Scientific.allowedRE in A. apply andb_true_iff in A as [_ A].
    pose proof (normalize_plain (expr st)) as P.
    rewrite forallb_forall in A, P. apply forallb_forall. intros c Hc.
    apply plain_allowed_basic; auto.
  - unfold Basic.calculate.
    destruct (truthy (expr st)); [|reflexivity]. cbn [negb].
    destruct (Basic.allowedRE _) eqn:A; [|reflexivity]. cbn [negb].
    rewrite H; [reflexivity|].
    apply stripLast_forallb.
    unfold Basic.allowedRE in A. now apply andb_true_iff in A as [_ A].
Qed.

(** A host that tells apart the texts holding any other character. *)
Definition pickyEval (t : jsstring) : completion :=
  if forallb Basic.allowedChar t then digitsEval t else Returns (ofZ 1).

Lemma host_sees_safe_text_witness :
  Scientific.calculate digitsEval (typed "2^3+") = Scientific.calculate pickyEval (typed "2^3+")
  /\ Basic.calculate digitsEval (typed "12/4") = Basic.calculate pickyEval (typed "12/4").
Proof.
  assert (H : forall t, forallb Basic.allowedChar t = true -> digitsEval t = pickyEval t).
  { intros t Ht. unfold pickyEval. now rewrite Ht. }
  split.
  - exact (proj1 (host_sees_safe_text digitsEval pickyEval (typed "2^3+") H)).
  - exact (proj2 (host_sees_safe_text digitsEval pickyEval (typed "12/4") H)).
Defined.

(** X7.  The character dropped before the host is asked.  The basic
    page drops the last character of the normalized text unless it is a
    digit, a dot or a closing parenthesis (so a hanging opening
    parenthesis goes too); the scientific page drops a hanging
    + - * / % only, and of a hanging caret, by then two stars, the second
    star. *)
Theorem trailing_character_dropped (t : jsstring) (c : codeUnit) :
  stripLast Basic.trailingOther (Basic.normalizeExpression (t ++ [c]))
  = (if forallb (fun x => isDigit x || (x =? ch ".")%N || (x =? ch ")")%N) (canonicalKey c)
     then Basic.normalizeExpression (t ++ [c])
     else Basic.normalizeExpression t)
  /\ stripLast Scientific.trailingOperator (Scientific.normalizeExpression (t ++ [c]))
     = (if (c =? ch "^")%N then Scientific.normalizeExpression t ++ [ch "*"]
        else if forallb plainOperator (canonicalKey c)
        then Scientific.normalizeExpression t
        else Scientific.normalizeExpression (t ++ [c])).
Proof.
  split.
  - unfold Basic.normalizeExpression. rewrite !mapSymbols_canonical, flat_map_app.
    cbn [flat_map]. rewrite app_nil_r.
    destruct (canonicalKey_cases c) as [(_ & x & -> & _) | (_ & ->)];
      rewrite stripLast_snoc; unfold Basic.trailingOther; cbn [forallb];
      rewrite andb_true_r;
      match goal with |- context [negb ?b] => destruct b end; reflexivity.
  - rewrite !normalize_sciChar, flat_map_app. cbn [flat_map]. rewrite app_nil_r.
    assert (Ops : forall x, (x =? ch "^")%N = false ->
                    Scientific.trailingOperator x = plainOperator x).
    { intros x Cx. unfold Scientific.trailingOperator, plainOperator. rewrite Cx.
      destruct (x =? ch "+")%N, (x =? ch "-")%N, (x =? ch "*")%N,
               (x =? ch "/")%N, (x =? ch "%")%N; reflexivity. }
    destruct (sciChar_cases c)
      as [(_ & Cc & x & -> & -> & _ & Cx & _) | [(_ & -> & _ & ->) | (_ & Cc & -> & ->)]].
    + rewrite Cc, stripLast_snoc, (Ops x Cx). cbn [forallb]. rewrite andb_true_r.
      destruct (plainOperator x); reflexivity.
    + replace (flat_map sciChar t ++ [ch "*"; ch "*"])
        with ((flat_map sciChar t ++ [ch "*"]) ++ [ch "*"])
        by (now rewrite <- app_assoc).
      now rewrite stripLast_snoc.
    + rewrite Cc, stripLast_snoc, (Ops c Cc). cbn [forallb]. rewrite andb_true_r.
      destruct (plainOperator c); reflexivity.
Qed.

End Validation.

(* ================================================================== *)
(** ** The page under any sequence of events *)
(* ================================================================== *)

Section Machine.
Import JSString JSNumber Page Handlers.

(** What the display shows for the expression [e]. *)
Definition display (e : jsstring) : jsstring := if truthy e then e else [ch "0"].

(** What a handler does to the page: nothing; or it sets the expression
    and redraws it, keeping or removing the error class; or it shows a
    message and schedules a reset. *)
Inductive effect (st : page) : page -> Prop :=
| Untouched : effect st st
| Redrawn (e : jsstring) (cls : bool) :
    cls = errorClass st \/ cls = false ->
    effect st (mkPage e (display e) cls (timers st) (angleMode st))
| Failed (msg : jsstring) : effect st (showError msg st).

Lemma effect_updateDisplay (st : page) (e : jsstring) :
  effect st (updateDisplay (setExpr st e)).
Proof. apply (Redrawn st e (errorClass st)). now left. Qed.

Lemma effect_appendValue (val : jsstring) (st : page) : effect st (appendValue val st).
Proof.
  unfold appendValue.
  destruct (streq (expr st) [ch "0"] && isSingleDigit _); apply effect_updateDisplay.
Qed.

Lemma effect_clearAll (st : page) : effect st (clearAll st).
Proof. apply (Redrawn st [] false). now right. Qed.

Lemma effect_deleteLast (st : page) : effect st (deleteLast st).
Proof. apply (Redrawn st (sliceDropLast (expr st)) false). now right. Qed.

Lemma effect_negateLastNumber (st : page) : effect st (negateLastNumber st).
Proof.
  unfold negateLastNumber. destruct (matchTrailing (expr st)) as [[p l]|]; [|constructor].
  destruct (negb (truthy l)); apply effect_updateDisplay.
Qed.

Lemma effect_percentLastNumber (st : page) : effect st (percentLastNumber st).
Proof.
  unfold percentLastNumber. destruct (matchTrailing (expr st)) as [[p l]|]; [|constructor].
  destruct (negb (truthy l)); [constructor|].
  destruct (isNaN (parseFloat l)); [constructor | apply effect_updateDisplay].
Qed.

Lemma effect_calculate (v : variant) (hostEval : jsstring -> completion) (st : page) :
  effect st (calculate v hostEval st).
Proof.
  destruct v; cbn [calculate]; [unfold Scientific.calculate | unfold Basic.calculate];
    (destruct (negb (truthy (expr st))); [constructor|]);
    match goal with |- context [if negb ?b then _ else _] => destruct b end;
    cbn [negb]; try constructor;
    match goal with |- context [match ?h with Throws => _ | _ => _ end] => destruct h as [|r|] end;
    try constructor;
    (destruct (isMathError r); [constructor | apply effect_updateDisplay]).
Qed.

Lemma effect_some (st : page) (s st' : page) :
  effect st s -> Some s = Some st' -> effect st st'.
Proof. intros E [= <-]. exact E. Qed.

Lemma effect_sciSwitch (M : Scientific.MathHost) (fuel : nat) (fn : jsstring)
    (st : page) (num : number) (sh : page) :
  Scientific.sciSwitch M fuel fn st num = Some (Scientific.Shown sh) -> effect st sh.
Proof.
  unfold Scientific.sciSwitch.
  repeat lazymatch goal with
  | |- (if streq fn ?n then Some (Scientific.Result _) else _) = _ -> _ =>
      destruct (streq fn n); [discriminate|]
  end.
  destruct (streq fn (str "reciprocal")).
  { destruct (strictEq num (ofZ 0)); [|discriminate]. intros [= <-]. constructor. }
  destruct (streq fn (str "factorial")); [|discriminate].
  destruct (ltb num (ofZ 0) || negb (isInteger num)).
  - intros [= <-]. constructor.
  - destruct (Scientific.factorial fuel num); discriminate.
Qed.

Lemma effect_applySciFunction (M : Scientific.MathHost) (fuel : nat) (fn : jsstring)
    (st st' : page) :
  Scientific.applySciFunction M fuel fn st = Some st' -> effect st st'.
Proof.
  unfold Scientific.applySciFunction. cbv zeta.
  destruct (streq fn (str "pow")).
  { match goal with |- (if ?b then _ else _) = _ -> _ => destruct b end;
      apply effect_some, effect_updateDisplay. }
  destruct (streq fn (str "pi")); [apply effect_some, effect_updateDisplay|].
  destruct (streq fn (str "e")); [apply effect_some, effect_updateDisplay|].
  destruct (streq fn (str "percent")); [apply effect_some, effect_percentLastNumber|].
  destruct (streq fn (str "negate")); [apply effect_some, effect_negateLastNumber|].
  match goal with |- (if negb ?b then _ else _) = _ -> _ => destruct b end;
    cbn [negb]; [|apply effect_some; constructor].
  match goal with |- (if isNaN ?x then _ else _) = _ -> _ => destruct (isNaN x) end;
    [apply effect_some; constructor|].
  match goal with |- match ?s with Some _ => _ | None => _ end = _ -> _ =>
    destruct s as [[r|sh|]|] eqn:S end; [| | |discriminate].
  - destruct (isMathError r); apply effect_some; [constructor | apply effect_updateDisplay].
  - apply effect_some. exact (effect_sciSwitch _ _ _ _ _ _ S).
  - apply effect_some. constructor.
Qed.

Lemma effect_onKeysClick (v : variant) (hostEval : jsstring -> completion)
    (target : option button) (st st' : page) :
  onKeysClick v hostEval target st = Some st' -> effect st st'.
Proof.
  unfold onKeysClick. destruct target as [[val action]|]; [|apply effect_some; constructor].
  cbn [dataValue dataAction]. destruct val as [val|].
  { destruct (inherited val); [discriminate | apply effect_some, effect_appendValue]. }
  destruct action as [action|]; [|apply effect_some; constructor].
  destruct (streq action (str "clear")); [apply effect_some, effect_clearAll|].
  destruct (streq action (str "delete")); [apply effect_some, effect_deleteLast|].
  destruct (streq action (str "negate")); [apply effect_some, effect_negateLastNumber|].
  destruct (streq action (str "percent")); [apply effect_some, effect_percentLastNumber|].
  destruct (streq action (str "calculate")); [apply effect_some, effect_calculate|].
  apply effect_some. constructor.
Qed.

Lemma effect_pair (st s st' : page) (b b' : bool) :
  effect st s -> (b = false -> s = st) ->
  Some (s, b) = Some (st', b') -> effect st st' /\ (b' = false -> st' = st).
Proof. intros E H [= <- <-]. now split. Qed.

Lemma effect_onKeydown (v : variant) (hostEval : jsstring -> completion)
    (e : keyboardEvent) (st st' : page) (b : bool) :
  onKeydown v hostEval e st = Some (st', b) ->
  effect st st' /\ (b = false -> st' = st).
Proof.
  unfold onKeydown. cbv zeta.
  destruct (streq (key e) (str "Enter"));
    [apply effect_pair; [apply effect_calculate | discriminate]|].
  destruct (streq (key e) (str "Backspace"));
    [apply effect_pair; [apply effect_deleteLast | discriminate]|].
  destruct (streq (key e) (str "Escape"));
    [apply effect_pair; [apply effect_clearAll | discriminate]|].
  destruct (inherited (key e)); [discriminate|].
  destruct (lookup (key e) (keyMap v));
    [apply effect_pair; [apply effect_appendValue | discriminate]|].
  destruct (isSingleDigit (key e));
    [apply effect_pair; [apply effect_appendValue | discriminate]|].
  assert (S : forall r,
    (if streq (key e) [215%N] then Some (appendValue [ch "*"] st, true)
     else if streq (key e) [247%N] then Some (appendValue [ch "/"] st, true)
     else Some (st, false)) = Some r ->
    effect st (fst r) /\ (snd r = false -> fst r = st)).
  { intros [s b'].
    destruct (streq (key e) [215%N]);
      [apply effect_pair; [apply effect_appendValue | discriminate]|].
    destruct (streq (key e) [247%N]);
      [apply effect_pair; [apply effect_appendValue | discriminate]|].
    apply effect_pair; [constructor | reflexivity]. }
  destruct (truthy (code e) && startsWith (str "Numpad") (code e)); [|exact (S (st', b))].
  destruct (streq (code e) (str "NumpadDecimal"));
    [apply effect_pair; [apply effect_appendValue | discriminate] | exact (S (st', b))].
Qed.

Lemma effect_onSciPanelClick (M : Scientific.MathHost) (fuel : nat)
    (target : option (option jsstring)) (st st' : page) :
  onSciPanelClick M fuel target st = Some st' -> effect st st'.
Proof.
  unfold onSciPanelClick. destruct target as [[fn|]|]; try (intros [= <-]; constructor).
  destruct (truthy fn); [apply effect_applySciFunction | intros [= <-]; constructor].
Qed.

(** The two facts every handler keeps. *)
Definition sound (st : page) : Prop :=
  (errorClass st = false -> textContent st = display (expr st))
  /\ (errorClass st = true -> (1 <= timers st)%nat).

Lemma sound_effect (st st' : page) : sound st -> effect st st' -> sound st'.
Proof.
  intros [H1 H2] E. destruct E as [|e cls Hc|msg]; [now split | |].
  - split; cbn [errorClass textContent expr timers]; [reflexivity|].
    intros ->. destruct Hc as [Hc|Hc]; [now apply H2 | discriminate].
  - split; cbn [showError errorClass timers]; [discriminate | lia].
Qed.

Lemma angleMode_effect (st st' : page) : effect st st' -> angleMode st' = angleMode st.
Proof. intros E. destruct E; reflexivity. Qed.

Lemma sound_reset (st : page) : sound (resetAfterError st).
Proof. split; [reflexivity | discriminate]. Qed.

Lemma sound_load (stored : option jsstring) (text : jsstring) (cls : bool) (t : toggle) :
  sound (fst (load stored text cls t)).
Proof. split; [reflexivity | discriminate]. Qed.

Variable v : variant.
Variable hostEval : jsstring -> completion.
Variable M : Scientific.MathHost.
Variable fuel : nat.

(** What one event does to the page: a handler's effect, a reset, or a
    change of the angle mode alone. *)
Lemma step_cases (ev : event) (st st' : page) (t t' : toggle) :
  step v hostEval M fuel ev (st, t) = Some (st', t') ->
  (effect st st' /\ t' = t)
  \/ (ev = ResetTimer /\ st' = resetAfterError st /\ t' = t)
  \/ (ev = DegToggleClick /\ v = ScientificPage /\ (st', t') = onDegToggleClick (st, t)).
Proof.
  destruct ev as [target|e| |target|]; cbn [step].
  - destruct (onKeysClick v hostEval target st) as [s|] eqn:E; [|discriminate].
    intros [= <- <-]. left. split; [now apply (effect_onKeysClick _ _ _ _ _ E) | reflexivity].
  - destruct (onKeydown v hostEval e st) as [[s b]|] eqn:E; [|discriminate].
    intros [= <- <-]. left. split; [now apply (effect_onKeydown _ _ _ _ _ _ E) | reflexivity].
  - destruct (timers st); [discriminate|]. intros [= <- <-]. right. left. auto.
  - destruct v; [|discriminate].
    destruct (onSciPanelClick M fuel target st) as [s|] eqn:E; [|discriminate].
    intros [= <- <-]. left. split; [now apply (effect_onSciPanelClick _ _ _ _ _ E) | reflexivity].
  - destruct v; [|discriminate]. intros H. right. right. now injection H as <- <-.
Qed.

Lemma sound_step (ev : event) (st st' : page) (t t' : toggle) :
  step v hostEval M fuel ev (st, t) = Some (st', t') -> sound st -> sound st'.
Proof.
  intros H S. destruct (step_cases _ _ _ _ _ H) as [[E _] | [(_ & -> & _) | (_ & _ & E)]].
  - now apply (sound_effect st).
  - apply sound_reset.
  - cbn [onDegToggleClick] in E. injection E as -> _. exact S.
Qed.

Lemma sound_run (evs : list event) :
  forall st t st' t',
    run v hostEval M fuel evs (st, t) = Some (st', t') -> sound st -> sound st'.
Proof.
  induction evs as [|ev rest IH]; intros st t st' t'; cbn [run].
  - now intros [= <- <-].
  - destruct (step v hostEval M fuel ev (st, t)) as [[s1 t1]|] eqn:E; [|discriminate].
    intros H S. apply (IH _ _ _ _ H). now apply (sound_step _ _ _ _ _ E).
Qed.

(** X8.  After any sequence of clicks, key presses, resets and toggle
    clicks on the freshly loaded page: while the display element has no
    error class it shows the expression (0 for the empty one), and while
    it has the error class a reset is pending. *)
Theorem display_shows_expression
    (evs : list event) (stored : option jsstring) (text : jsstring) (cls : bool)
    (t0 : toggle) (st : page) (t : toggle) :
  run v hostEval M fuel evs (load stored text cls t0) = Some (st, t) ->
  (errorClass st = false ->
   textContent st = (if truthy (expr st) then expr st else [ch "0"]))
  /\ (errorClass st = true -> (1 <= timers st)%nat).
Proof.
  intros H. apply (sound_run evs _ _ _ _ H). apply (sound_load stored text cls t0).
Qed.

(** *** The angle mode *)

(** The toggle button and the session agree with the page's angle mode. *)
Definition angleShown (s : page * toggle) : Prop :=
  label (snd s) = (if streq (angleMode (fst s)) (str "deg") then str "deg" else str "rad")
  /\ ariaPressed (snd s)
     = (if streq (angleMode (fst s)) (str "deg") then str "true" else str "false")
  /\ orElse (session (snd s)) (str "deg") = angleMode (fst s).

Lemma angleShown_load (stored : option jsstring) (text : jsstring) (cls : bool) (t : toggle) :
  angleShown (load stored text cls t).
Proof. repeat split. Qed.

Lemma angleShown_toggle (s : page * toggle) : angleShown (onDegToggleClick s).
Proof.
  destruct s as [st t]. unfold onDegToggleClick, angleShown.
  cbn [fst snd updateDegToggleUI setAngleMode angleMode label ariaPressed session].
  destruct (streq (angleMode st) (str "deg")); repeat split.
Qed.

Lemma angleShown_step (ev : event) (s s' : page * toggle) :
  step v hostEval M fuel ev s = Some s' -> angleShown s -> angleShown s'.
Proof.
  destruct s as [st t], s' as [st' t']. intros H A.
  destruct (step_cases _ _ _ _ _ H) as [[E ->] | [(_ & -> & ->) | (_ & _ & ->)]].
  - unfold angleShown in *. cbn [fst snd] in *. now rewrite (angleMode_effect _ _ E).
  - exact A.
  - apply angleShown_toggle.
Qed.

Lemma angleShown_run (evs : list event) :
  forall s s', run v hostEval M fuel evs s = Some s' -> angleShown s -> angleShown s'.
Proof.
  induction evs as [|ev rest IH]; intros s s'; cbn [run].
  - now intros [= <-].
  - destruct (step v hostEval M fuel ev s) as [s1|] eqn:E; [|discriminate].
    intros H A. apply (IH _ _ H). now apply (angleShown_step _ _ _ E).
Qed.

(** X9.  After any sequence of events on the freshly loaded page, the
    toggle button is labelled deg exactly when the trigonometric
    functions convert from degrees (and rad otherwise), and loading the
    page again in the same session gives the same angle mode; a mode
    other than deg found in the session counts as radians, and the first
    click on the toggle turns it into deg. *)
Theorem angle_mode_shown_and_kept
    (evs : list event) (stored : option jsstring) (text : jsstring) (cls : bool)
    (t0 : toggle) (st : page) (t : toggle) :
  run v hostEval M fuel evs (load stored text cls t0) = Some (st, t) ->
  label t = (if Scientific.isDeg st then str "deg" else str "rad")
  /\ ariaPressed t = (if Scientific.isDeg st then str "true" else str "false")
  /\ (forall text' cls' t', angleMode (fst (load (session t) text' cls' t')) = angleMode st)
  /\ (Scientific.isDeg st = false ->
      angleMode (fst (onDegToggleClick (st, t))) = str "deg")
  /\ (Scientific.isDeg st = true ->
      angleMode (fst (onDegToggleClick (st, t))) = str "rad").
Proof.
  intros H.
  destruct (angleShown_run evs _ _ H (angleShown_load stored text cls t0)) as (L & P & S).
  cbn [fst snd] in L, P, S. unfold Scientific.isDeg.
  split; [exact L | split; [exact P | split; [intros; exact S|]]].
  unfold onDegToggleClick. cbn [fst setAngleMode angleMode].
  split; intros ->; reflexivity.
Qed.

End Machine.

Section MachineExamples.
Import JSString JSNumber Page Handlers.

Lemma display_shows_expression_witness :
  (errorClass (mkPage (str "7/0") (str "Math error") true 1 (str "deg")) = false ->
   textContent (mkPage (str "7/0") (str "Math error") true 1 (str "deg"))
   = (if truthy (expr (mkPage (str "7/0") (str "Math error") true 1 (str "deg")))
      then expr (mkPage (str "7/0") (str "Math error") true 1 (str "deg")) else [ch "0"]))
  /\ (errorClass (mkPage (str "7/0") (str "Math error") true 1 (str "deg")) = true ->
      (1 <= timers (mkPage (str "7/0") (str "Math error") true 1 (str "deg")))%nat).
Proof.
  exact (display_shows_expression ScientificPage digitsEval noMath 5
           [Keydown (mkKey (str "7") (str "Digit7")); KeysClick (Some (mkButton (Some [247%N]) None));
            Keydown (mkKey (str "0") (str "Numpad0"));
            KeysClick (Some (mkButton None (Some (str "calculate"))))]
           None (str "12") true (mkToggle None [] [])
           (mkPage (str "7/0") (str "Math error") true 1 (str "deg"))
           (mkToggle None (str "true") (str "deg")) eq_refl).
Defined.

Lemma angle_mode_shown_and_kept_witness :
  label (mkToggle (Some (str "deg")) (str "true") (str "deg"))
  = (if Scientific.isDeg (mkPage [] [ch "0"] false 0 (str "deg")) then str "deg" else str "rad")
  /\ angleMode (fst (load (Some (str "deg")) [] false (mkToggle None [] []))) = str "deg".
Proof.
  destruct (angle_mode_shown_and_kept ScientificPage digitsEval noMath 5
              [DegToggleClick]
              (Some (str "grad")) [] false (mkToggle None [] [])
              (mkPage [] [ch "0"] false 0 (str "deg"))
              (mkToggle (Some (str "deg")) (str "true") (str "deg")))
    as (H1 & _ & H2 & _).
  - reflexivity.
  - split; [exact H1 | exact (H2 [] false (mkToggle None [] []))].
Defined.

End MachineExamples.

(* ================================================================== *)
(** ** The keyboard *)
(* ================================================================== *)

Section Keyboard.
Import JSString JSNumber Page Handlers.

(** The characters the keydown listener can put into the expression. *)
Definition typeable (v : variant) (c : codeUnit) : bool :=
  isDigit c
  || ((c =? ch "/") || (c =? ch "*") || (c =? ch "+") || (c =? ch "-") || (c =? ch ".")
      || (c =? ch "%") || (c =? ch "(") || (c =? ch ")"))%N
  || match v with
     | ScientificPage => (c =? ch "^")%N
     | BasicPage => false
     end.

(** The validation of [calculate], on the expression as it stands. *)
Definition validates (v : variant) (s : jsstring) : bool :=
  match v with
  | ScientificPage => Scientific.allowedRE (Scientific.normalizeExpression s)
  | BasicPage => Basic.allowedRE (Basic.normalizeExpression s)
  end.

Ltac char_cases H :=
  repeat match type of H with
  | (_ || _) = true => apply orb_true_iff in H as [H|H]
  end.

Lemma typeable_cases (v : variant) (c : codeUnit) :
  typeable v c = true ->
  isVisual c = false
  /\ match v with
     | ScientificPage => Scientific.allowedChar c
     | BasicPage => Basic.allowedChar c
     end = true.
Proof.
  unfold typeable. intros H.
  apply orb_true_iff in H as [H|H]; [apply orb_true_iff in H as [H|H]|].
  - split.
    + unfold isVisual. now rewrite (digit_not_symbol c H).
    + destruct v; unfold Scientific.allowedChar, Basic.allowedChar; now rewrite H.
  - char_cases H; apply N.eqb_eq in H; subst c; split; try reflexivity; destruct v; reflexivity.
  - destruct v; [|discriminate]. apply N.eqb_eq in H. subst c. split; reflexivity.
Qed.

Lemma typeable_appendValue (v : variant) (c : codeUnit) (st : page) :
  typeable v c = true ->
  forallb (typeable v) (expr st) = true ->
  forallb (typeable v) (expr (appendValue [c] st)) = true.
Proof.
  intros Hc Hs. rewrite expr_appendValue.
  destruct (streq (expr st) [ch "0"] && isDigit c).
  - cbn [forallb]. now rewrite Hc.
  - rewrite canonicalKey_fixed by (now rewrite (proj1 (typeable_cases v c Hc))).
    rewrite forallb_app, Hs. cbn [forallb]. now rewrite Hc.
Qed.

Lemma keyMap_typeable (v : variant) (k val : jsstring) :
  lookup k (keyMap v) = Some val -> exists c, val = [c] /\ typeable v c = true.
Proof.
  unfold keyMap. destruct v; cbn [app lookup];
    repeat match goal with
    | |- (if streq k ?n then _ else _) = _ -> _ =>
        destruct (streq k n); [intros [= <-]; eexists; split; reflexivity|]
    end; discriminate.
Qed.

Lemma isSingleDigit_digit (k : jsstring) :
  isSingleDigit k = true -> exists c, k = [c] /\ isDigit c = true.
Proof.
  destruct k as [|c [|d r]]; try discriminate. intros H. now exists c.
Qed.

Lemma digit_typeable (v : variant) (c : codeUnit) : isDigit c = true -> typeable v c = true.
Proof. intros H. unfold typeable. now rewrite H. Qed.

Lemma typeable_removelast (v : variant) (s : jsstring) :
  forallb (typeable v) s = true -> forallb (typeable v) (removelast s) = true.
Proof.
  induction s as [|c r IH]; [reflexivity|].
  intros H. cbn [forallb] in H. apply andb_true_iff in H as [Hc Hr].
  destruct r as [|d r']; [reflexivity|].
  change (removelast (c :: d :: r')) with (c :: removelast (d :: r')).
  cbn [forallb]. now rewrite Hc, IH.
Qed.

Variable v : variant.
Variable hostEval : jsstring -> completion.

Lemma typeable_onKeydown (e : keyboardEvent) (st st' : page) (b : bool) :
  streq (key e) (str "Enter") = false ->
  onKeydown v hostEval e st = Some (st', b) ->
  forallb (typeable v) (expr st) = true ->
  forallb (typeable v) (expr st') = true.
Proof.
  intros HE H Hs. revert H. unfold onKeydown. cbv zeta. rewrite HE.
  destruct (streq (key e) (str "Backspace")).
  { intros [= <- _]. now apply typeable_removelast. }
  destruct (streq (key e) (str "Escape")); [intros [= <- _]; reflexivity|].
  destruct (inherited (key e)); [discriminate|].
  destruct (lookup (key e) (keyMap v)) as [val|] eqn:L.
  { destruct (keyMap_typeable _ _ _ L) as (c & -> & Hc).
    intros [= <- _]. now apply typeable_appendValue. }
  destruct (isSingleDigit (key e)) eqn:D.
  { destruct (isSingleDigit_digit _ D) as (c & -> & Hc).
    intros [= <- _]. apply typeable_appendValue; [now apply digit_typeable | exact Hs]. }
  assert (S : forall r,
    (if streq (key e) [215%N] then Some (appendValue [ch "*"] st, true)
     else if streq (key e) [247%N] then Some (appendValue [ch "/"] st, true)
     else Some (st, false)) = Some r ->
    forallb (typeable v) (expr (fst r)) = true).
  { intros [s b'].
    destruct (streq (key e) [215%N]);
      [intros [= <- _]; apply typeable_appendValue; [now destruct v | exact Hs]|].
    destruct (streq (key e) [247%N]);
      [intros [= <- _]; apply typeable_appendValue; [now destruct v | exact Hs]|].
    now intros [= <- _]. }
  destruct (truthy (code e) && startsWith (str "Numpad") (code e)); [|exact (S (st', b))].
  destruct (streq (code e) (str "NumpadDecimal")); [|exact (S (st', b))].
  intros [= <- _]. apply typeable_appendValue; [now destruct v | exact Hs].
Qed.

Variable M : Scientific.MathHost.
Variable fuel : nat.

Lemma typeable_run (es : list keyboardEvent) :
  forall st t st' t',
    forallb (fun e => negb (streq (key e) (str "Enter"))) es = true ->
    run v hostEval M fuel (List.map Keydown es) (st, t) = Some (st', t') ->
    forallb (typeable v) (expr st) = true ->
    forallb (typeable v) (expr st') = true.
Proof.
  induction es as [|e rest IH]; intros st t st' t'; cbn [List.map run forallb].
  - now intros _ [= <- <-].
  - intros HE. apply andb_true_iff in HE as [He Hr]. apply negb_true_iff in He.
    cbn [step]. destruct (onKeydown v hostEval e st) as [[s b]|] eqn:K; [|discriminate].
    intros H Hs. apply (IH _ _ _ _ Hr H). now apply (typeable_onKeydown _ _ _ _ He K).
Qed.

Lemma typeable_validates (s : jsstring) :
  forallb (typeable v) s = true -> validates v s = truthy s.
Proof.
  intros H. unfold validates.
  destruct v; [rewrite allowedRE_scientific | rewrite allowedRE_basic];
    (replace (forallb _ s) with true; [apply andb_true_r|]);
    symmetry; apply forallb_forall; intros c Hc;
    rewrite forallb_forall in H; specialize (H c Hc);
    pose proof (typeable_cases _ c H) as [_ A]; cbn in A; now rewrite A.
Qed.

(** X10.  Keys pressed on the keyboard, Enter apart, put only digits,
    the operators / * + - %, dots and parentheses (and, on the scientific
    page, carets) into the expression.  An expression typed that way on
    the fresh page, when it is not empty, passes the validation of
    [calculate]: Enter asks the host, and never shows Invalid
    characters. *)
Theorem keyboard_typing_validates
    (es : list keyboardEvent) (st : page) (t : toggle) (st' : page) (t' : toggle) :
  forallb (fun e => negb (streq (key e) (str "Enter"))) es = true ->
  forallb (typeable v) (expr st) = true ->
  run v hostEval M fuel (List.map Keydown es) (st, t) = Some (st', t') ->
  forallb (typeable v) (expr st') = true
  /\ validates v (expr st') = truthy (expr st')
  /\ (expr st' <> [] ->
      calculate v hostEval st'
      = match v with
        | ScientificPage =>
            finish Scientific.formatResult st'
              (hostEval (stripLast Scientific.trailingOperator
                           (Scientific.normalizeExpression (expr st'))))
        | BasicPage =>
            finish Basic.formatResult st'
              (hostEval (stripLast Basic.trailingOther
                           (Basic.normalizeExpression (expr st'))))
        end).
Proof.
  intros HE Hs H. pose proof (typeable_run es _ _ _ _ HE H Hs) as T.
  pose proof (typeable_validates _ T) as V.
  split; [exact T | split; [exact V|]]. intros Hne.
  assert (Tr : truthy (expr st') = true) by (destruct (expr st'); [contradiction | reflexivity]).
  rewrite Tr in V. unfold validates in V.
  destruct v; cbn [calculate]; [unfold Scientific.calculate | unfold Basic.calculate];
    rewrite Tr, V; cbn [negb]; unfold finish;
    match goal with |- context [hostEval ?x] => destruct (hostEval x) end; reflexivity.
Qed.

End Keyboard.

Section KeyboardExamples.
Import JSString JSNumber Page Handlers.

Lemma keyboard_typing_validates_witness :
  validates BasicPage (str "(2+3)*4") = true
  /\ validates ScientificPage (str "2^.5/") = true.
Proof.
  split.
  - exact (proj1 (proj2 (keyboard_typing_validates BasicPage digitsEval noMath 0
             (List.map (fun c => mkKey [c] []) (str "(2+a3)*4"))
             initial (mkToggle None [] [])
             (typed "(2+3)*4") (mkToggle None [] []) eq_refl eq_refl eq_refl))).
  - exact (proj1 (proj2 (keyboard_typing_validates ScientificPage digitsEval noMath 0
             [mkKey (str "2") []; mkKey (str "^") []; mkKey (str ",") (str "NumpadDecimal");
              mkKey (str "5") (str "Numpad5"); mkKey (str "9") []; mkKey (str "Backspace") [];
              mkKey [247%N] []]
             initial (mkToggle None [] [])
             (typed "2^.5/") (mkToggle None [] []) eq_refl eq_refl eq_refl))).
Defined.

End KeyboardExamples.

(* ================================================================== *)
(** ** The theme switcher under selections and system changes *)
(* ================================================================== *)

Section ThemeFacts.
Import JSString Handlers Theme.

(** The theme of the system's scheme. *)
Definition scheme (light : bool) : jsstring := if light then str "light" else str "dark".

(** The theme the root element is to carry for the choice [val]. *)
Definition resolved (light : bool) (val : jsstring) : jsstring :=
  if streq val (str "system") then scheme light else val.

Definition themeRun (evs : list themeEvent) (t : themeState) : themeState :=
  fold_left (fun t ev => themeStep ev t) evs t.

(** A choice is stored, the root element carries its theme, and the
    listener is registered exactly for the choice system. *)
Definition settled (t : themeState) : Prop :=
  exists val, stored t = Some val
              /\ listening t = streq val (str "system")
              /\ dataTheme t = Some (resolved (matches t) val).

Lemma settled_select (val : jsstring) (t : themeState) : settled (onThemeChange val t).
Proof.
  exists val. unfold onThemeChange, applyTheme, resolved, scheme, setDataTheme.
  destruct (streq val (str "system")); repeat split.
Qed.

Lemma settled_step (ev : themeEvent) (t : themeState) : settled t -> settled (themeStep ev t).
Proof.
  destruct ev as [val|light]; [intros _; apply settled_select|].
  intros (val & S & L & D). cbn [themeStep listening].
  destruct (listening t) eqn:Lt.
  - unfold handleSystemChange. cbn [stored]. rewrite S, <- L.
    exists val. unfold applyTheme, setDataTheme, resolved.
    cbn [stored matches listening dataTheme]. rewrite <- L.
    replace (streq (str "system") (str "system")) with true by reflexivity.
    repeat split; assumption.
  - exists val. cbn [stored matches listening dataTheme]. repeat split; try assumption.
    rewrite D. unfold resolved. now rewrite <- L.
Qed.

Lemma settled_run (evs : list themeEvent) :
  forall t, settled t -> settled (themeRun evs t).
Proof.
  induction evs as [|ev rest IH]; intros t H; [exact H|].
  apply (IH (themeStep ev t)). now apply settled_step.
Qed.

Lemma settled_load (val : jsstring) (light : bool) :
  truthy val = true -> settled (loadTheme (Some val) light).
Proof.
  intros H. exists val. unfold loadTheme, initTheme, orElse. cbn [stored]. rewrite H.
  unfold applyTheme, setDataTheme, resolved, scheme.
  destruct (streq val (str "system")); repeat split.
Qed.

(** X11.  Once a theme is stored (selected on this page, or found
    stored and not empty at load), then after any sequence of selections
    and system changes the root element carries the stored theme, or,
    for the choice system, the theme of the system's present scheme;
    and the page listens to the system exactly for that choice. *)
Theorem theme_follows_choice (evs : list themeEvent) (t0 : themeState) :
  (exists val t, t0 = onThemeChange val t)
  \/ (exists val light, truthy val = true /\ t0 = loadTheme (Some val) light) ->
  exists val,
    stored (themeRun evs t0) = Some val
    /\ dataTheme (themeRun evs t0)
       = Some (if streq val (str "system")
               then (if matches (themeRun evs t0) then str "light" else str "dark")
               else val)
    /\ listening (themeRun evs t0) = streq val (str "system").
Proof.
  intros H.
  assert (S : settled t0).
  { destruct H as [(val & t & ->) | (val & light & Hv & ->)];
      [apply settled_select | now apply settled_load]. }
  destruct (settled_run evs t0 S) as (val & E1 & E2 & E3).
  exists val. repeat split; assumption.
Qed.

Lemma theme_follows_choice_witness :
  exists val,
    stored (themeRun [SystemChange true; Select (str "system"); SystemChange false]
              (loadTheme (Some (str "ocean")) false)) = Some val
    /\ dataTheme (themeRun [SystemChange true; Select (str "system"); SystemChange false]
                    (loadTheme (Some (str "ocean")) false))
       = Some (if streq val (str "system")
               then (if matches (themeRun [SystemChange true; Select (str "system");
                                           SystemChange false]
                                   (loadTheme (Some (str "ocean")) false))
                     then str "light" else str "dark")
               else val)
    /\ listening (themeRun [SystemChange true; Select (str "system"); SystemChange false]
                    (loadTheme (Some (str "ocean")) false))
       = streq val (str "system").
Proof.
  apply (theme_follows_choice
           [SystemChange true; Select (str "system"); SystemChange false]
           (loadTheme (Some (str "ocean")) false)).
  right. exists (str "ocean"), false. split; reflexivity.
Defined.

Lemma last_cons_default (A : Type) (d : A) (r : list A) (a b : A) :
  last (d :: r) a = last (a :: d :: r) b.
Proof.
  change (last (a :: d :: r) b) with (last (d :: r) b).
  revert d. induction r as [|x r IH]; intros d; [reflexivity|].
  change (last (d :: x :: r) a) with (last (x :: r) a).
  change (last (d :: x :: r) b) with (last (x :: r) b). apply IH.
Qed.

Lemma unsaved_step (saved : option jsstring) (light0 light : bool) (t : themeState) :
  orElse saved (str "system") = str "system" ->
  saved <> Some (str "system") ->
  stored t = saved /\ dataTheme t = Some (scheme light0) /\ listening t = true ->
  stored (themeStep (SystemChange light) t) = saved
  /\ dataTheme (themeStep (SystemChange light) t) = Some (scheme light0)
  /\ listening (themeStep (SystemChange light) t) = true.
Proof.
  intros _ Hs (S & D & L). cbn [themeStep listening]. rewrite L.
  unfold handleSystemChange. cbn [stored]. rewrite S.
  destruct saved as [s|]; [|cbn [stored dataTheme listening]; auto].
  destruct (streq s (str "system")) eqn:E.
  - apply streq_eq in E. subst s. contradiction.
  - cbn [stored dataTheme listening]. auto.
Qed.

(** X12.  With no theme stored (or an empty one), the page loads with
    the theme of the system's scheme and registers its listener; but the
    listener looks for the stored choice system, finds none, and leaves
    the theme as it was at load however the system's scheme changes. *)
Theorem theme_unsaved_ignores_system
    (saved : option jsstring) (light0 : bool) (changes : list bool) :
  saved = None \/ saved = Some [] ->
  dataTheme (loadTheme saved light0) = Some (if light0 then str "light" else str "dark")
  /\ listening (loadTheme saved light0) = true
  /\ dataTheme (themeRun (List.map SystemChange changes) (loadTheme saved light0))
     = Some (if light0 then str "light" else str "dark")
  /\ matches (themeRun (List.map SystemChange changes) (loadTheme saved light0))
     = last changes light0.
Proof.
  intros Hs.
  assert (H0 : orElse saved (str "system") = str "system"
               /\ saved <> Some (str "system")).
  { destruct Hs as [-> | ->]; split; try reflexivity; discriminate. }
  destruct H0 as [Ho Hn].
  assert (L0 : stored (loadTheme saved light0) = saved
               /\ dataTheme (loadTheme saved light0) = Some (scheme light0)
               /\ listening (loadTheme saved light0) = true
               /\ matches (loadTheme saved light0) = light0).
  { unfold loadTheme, initTheme. cbn [stored]. rewrite Ho.
    replace (streq (str "system") (str "system")) with true by reflexivity.
    unfold applyTheme.
    replace (streq (str "system") (str "system")) with true by reflexivity.
    repeat split. }
  destruct L0 as (S0 & D0 & Li0 & M0).
  split; [exact D0 | split; [exact Li0|]].
  revert S0 D0 Li0 M0. generalize (loadTheme saved light0) as t.
  assert (G : forall changes t m,
            stored t = saved -> dataTheme t = Some (scheme light0) -> listening t = true ->
            matches t = m ->
            dataTheme (themeRun (List.map SystemChange changes) t) = Some (scheme light0)
            /\ matches (themeRun (List.map SystemChange changes) t) = last changes m).
  { clear changes. induction changes as [|c rest IH]; intros t m S D L Mt; [now split|].
    change (themeRun (List.map SystemChange (c :: rest)) t)
      with (themeRun (List.map SystemChange rest) (themeStep (SystemChange c) t)).
    destruct (unsaved_step saved light0 c t Ho Hn (conj S (conj D L))) as (S' & D' & L').
    destruct (IH (themeStep (SystemChange c) t) c S' D' L') as [I1 I2].
    { cbn [themeStep listening]. rewrite L. unfold handleSystemChange. cbn [stored].
      rewrite S. destruct saved as [s|]; [|reflexivity].
      destruct (streq s (str "system")); reflexivity. }
    split; [exact I1|]. rewrite I2. destruct rest; [reflexivity | apply last_cons_default]. }
  intros t S D L Mt. exact (G changes t light0 S D L Mt).
Qed.

Lemma theme_unsaved_ignores_system_witness :
  dataTheme (themeRun (List.map SystemChange [true]) (loadTheme None false)) = Some (str "dark")
  /\ matches (themeRun (List.map SystemChange [true]) (loadTheme None false)) = true.
Proof.
  exact (proj2 (proj2 (theme_unsaved_ignores_system None false [true] (or_introl eq_refl)))).
Defined.

End ThemeFacts.

(* ================================================================== *)
(** ** The scientific functions on the expression *)
(* ================================================================== *)

Section Applicator.
Import JSString JSNumber Page Scientific TrailingFacts NumberFacts DecimalFacts Handlers.
Local Open Scope Z_scope.

Variable M : MathHost.

Lemma sciSwitch_shown (fuel : nat) (fn : jsstring) (st : page) (num : number) (sh : page) :
  sciSwitch M fuel fn st num = Some (Shown sh) ->
  exists msg, sh = showError msg st.
Proof.
  unfold sciSwitch.
  repeat lazymatch goal with
  | |- (if streq fn ?n then Some (Result _) else _) = _ -> _ =>
      destruct (streq fn n); [discriminate|]
  end.
  destruct (streq fn (str "reciprocal")).
  { destruct (strictEq num (ofZ 0)); [|discriminate]. intros [= <-]. now eexists. }
  destruct (streq fn (str "factorial")); [|discriminate].
  destruct (ltb num (ofZ 0) || negb (isInteger num)).
  - intros [= <-]. now eexists.
  - destruct (factorial fuel num); discriminate.
Qed.

Lemma percent_keeps_prefix (st : page) (p l : jsstring) :
  matchTrailing (expr st) = Some (p, l) -> expr st = p ++ l ->
  exists t, expr (percentLastNumber st) = p ++ t.
Proof.
  intros Hm E. unfold percentLastNumber. rewrite Hm.
  destruct (negb (truthy l)); [now exists l|].
  destruct (isNaN (parseFloat l)); [now exists l|].
  now exists (toString (div (parseFloat l) (ofZ 100))).
Qed.

Lemma negate_keeps_prefix (st : page) (p l : jsstring) :
  matchTrailing (expr st) = Some (p, l) -> expr st = p ++ l ->
  exists t, expr (negateLastNumber st) = p ++ t.
Proof.
  intros Hm E. unfold negateLastNumber. rewrite Hm.
  destruct (negb (truthy l)).
  - exists (l ++ [ch "-"]). cbn [updateDisplay setExpr setText expr]. now rewrite E, app_assoc.
  - now exists (if startsWith [ch "-"] l then slice1 l else [ch "-"] ++ l).
Qed.

Lemma keeps_some (p : jsstring) (s st' : page) :
  (exists t, expr s = p ++ t) -> Some s = Some st' -> exists t, expr st' = p ++ t.
Proof. intros H [= <-]. exact H. Qed.

Lemma keeps_updateDisplay (st : page) (p t : jsstring) :
  exists t', expr (updateDisplay (setExpr st (p ++ t))) = p ++ t'.
Proof. now exists t. Qed.

(** X13.  No function of the scientific panel touches the text before
    the trailing number: whatever the function name and the host, the
    new expression starts with the pattern's first capture.  (On an
    expression without line terminators that is all the text before the
    number.) *)
Theorem applySciFunction_keeps_prefix
    (fuel : nat) (fn : jsstring) (st st' : page) (prefix last : jsstring) :
  existsb isLineTerminator (expr st) = false ->
  matchTrailing (expr st) = Some (prefix, last) ->
  applySciFunction M fuel fn st = Some st' ->
  expr st = prefix ++ last
  /\ exists t, expr st' = prefix ++ t.
Proof.
  intros HT Hm.
  assert (E : expr st = prefix ++ last).
  { destruct (matchTrailing_number _ _ _ Hm) as [_ E]. now rewrite lastLine_free in E. }
  assert (K : exists t, expr st = prefix ++ t) by (now exists last).
  intros H. split; [exact E|]. revert H.
  unfold applySciFunction. rewrite Hm. cbv zeta.
  destruct (streq fn (str "pow")).
  { match goal with |- (if ?b then _ else _) = _ -> _ => destruct b end;
      apply keeps_some; rewrite E, <- app_assoc; apply keeps_updateDisplay. }
  destruct (streq fn (str "pi")); [apply keeps_some, keeps_updateDisplay|].
  destruct (streq fn (str "e")); [apply keeps_some, keeps_updateDisplay|].
  destruct (streq fn (str "percent"));
    [apply keeps_some; now apply (percent_keeps_prefix st prefix last)|].
  destruct (streq fn (str "negate"));
    [apply keeps_some; now apply (negate_keeps_prefix st prefix last)|].
  destruct (negb (truthy last)); [now apply keeps_some|].
  destruct (isNaN (parseFloat last)); [now apply keeps_some|].
  destruct (sciSwitch M fuel fn st (parseFloat last)) as [[r|sh|]|] eqn:S; [| | |discriminate].
  - destruct (isMathError r); apply keeps_some; [exact K | apply keeps_updateDisplay].
  - apply keeps_some. destruct (sciSwitch_shown _ _ _ _ _ S) as [msg ->]. exact K.
  - now apply keeps_some.
Qed.

(** The constants, as the host writes them. *)
Lemma constants_written :
  toString Math_PI = str "3.141592653589793" /\ toString Math_E = str "2.718281828459045".
Proof. split; vm_compute; reflexivity. Qed.

(** X14.  The keys pi and e put the constant, written with its sixteen
    digits, in the place of the trailing number: a number typed before is
    replaced, not multiplied; and they work without a trailing number. *)
Theorem constant_replaces_trailing_number
    (fuel : nat) (st : page) (prefix last : jsstring) :
  matchTrailing (expr st) = Some (prefix, last) ->
  applySciFunction M fuel (str "pi") st
  = Some (updateDisplay (setExpr st (prefix ++ str "3.141592653589793")))
  /\ applySciFunction M fuel (str "e") st
     = Some (updateDisplay (setExpr st (prefix ++ str "2.718281828459045"))).
Proof.
  intros Hm. destruct constants_written as [P E].
  unfold applySciFunction. rewrite Hm. cbv zeta.
  replace (streq (str "pi") (str "pow")) with false by reflexivity.
  replace (streq (str "pi") (str "pi")) with true by reflexivity.
  replace (streq (str "e") (str "pow")) with false by reflexivity.
  replace (streq (str "e") (str "pi")) with false by reflexivity.
  replace (streq (str "e") (str "e")) with true by reflexivity.
  rewrite P, E. cbv iota. split; reflexivity.
Qed.

(** *** Factorials *)

Fixpoint fact (n : nat) : Z :=
  match n with
  | O => 1
  | S k => Z.of_nat (S k) * fact k
  end.

(** The Number [x] is the integer [z], exactly. *)
Definition exactly (x : number) (z : Z) : bool :=
  match x with
  | Fin neg m e => Qeq_bool (toQ neg m e) (inject_Z z)
  | _ => false
  end.

(** What the factorial key needs of the trailing number [n], and what it
    writes for it. *)
Definition factorialWritten (n : nat) : bool :=
  sameValue (parseFloat (decimal (Z.of_nat n))) (ofZ (Z.of_nat n))
  && (negb (isNaN (ofZ (Z.of_nat n)))
      && (negb (ltb (ofZ (Z.of_nat n)) (ofZ 0))
          && (isInteger (ofZ (Z.of_nat n))
              && (negb (isMathError (iterativeProduct (Z.of_nat n)))
                  && streq (formatResult (iterativeProduct (Z.of_nat n)))
                           (decimal (fact n)))))).

Lemma factorial_checked :
  forallb (fun n => exactly (iterativeProduct (Z.of_nat n)) (fact n)) (seq 0 23) = true
  /\ forallb factorialWritten (seq 0 22) = true
  /\ exactly (iterativeProduct 23) (fact 23) = false.
Proof. split; [|split]; vm_compute; reflexivity. Qed.

(** X15.  The factorial loop, which multiplies Numbers, gives n! exactly
    for every n up to 22, and no longer for 23; and for every n up to 21
    the factorial key writes all the digits of n! in the place of the
    trailing number n. *)
Theorem factorial_exact (fuel : nat) (n : nat) :
  (1 <= fuel)%nat -> (n <= fuel)%nat ->
  ((n <= 22)%nat ->
   factorial fuel (ofZ (Z.of_nat n)) = Some (iterativeProduct (Z.of_nat n))
   /\ exactly (iterativeProduct (Z.of_nat n)) (fact n) = true)
  /\ ((n <= 21)%nat ->
      forall st prefix,
        matchTrailing (expr st) = Some (prefix, decimal (Z.of_nat n)) ->
        applySciFunction M fuel (str "factorial") st
        = Some (updateDisplay (setExpr st (prefix ++ decimal (fact n)))))
  /\ ((23 <= fuel)%nat ->
      factorial fuel (ofZ 23) = Some (iterativeProduct 23)
      /\ exactly (iterativeProduct 23) (fact 23) = false).
Proof.
  intros Hf1 Hf. destruct factorial_checked as (C1 & C2 & C3).
  rewrite forallb_forall in C1, C2.
  split; [|split].
  - intros Hn. split.
    + apply factorial_product; lia.
    + apply C1. apply in_seq. lia.
  - intros Hn st prefix Hm.
    specialize (C2 n ltac:(apply in_seq; lia)). unfold factorialWritten in C2.
    apply andb_true_iff in C2 as [P C2]. apply sameValue_eq in P.
    apply andb_true_iff in C2 as [N C2]. apply negb_true_iff in N.
    apply andb_true_iff in C2 as [L C2]. apply negb_true_iff in L.
    apply andb_true_iff in C2 as [I C2].
    apply andb_true_iff in C2 as [Er W]. apply negb_true_iff in Er.
    apply streq_eq in W.
    rewrite (applySci_factorial M fuel st prefix (decimal (Z.of_nat n))
               (iterativeProduct (Z.of_nat n)) Hm).
    + rewrite Er, W. reflexivity.
    + rewrite P. exact N.
    + rewrite P. exact L.
    + rewrite P. exact I.
    + rewrite P. apply factorial_product; lia.
  - intros Hf23. split; [|exact C3].
    apply (factorial_product 23); lia.
Qed.

End Applicator.

Section ApplicatorExamples.
Import JSString JSNumber Page Scientific Handlers.
Local Open Scope Z_scope.

Lemma applySciFunction_keeps_prefix_witness :
  expr (typed "1/(2+0") = str "1/(2+" ++ str "0"
  /\ exists t, expr (showError (str "Math error") (typed "1/(2+0")) = str "1/(2+" ++ t.
Proof.
  apply (applySciFunction_keeps_prefix noMath 0 (str "reciprocal")
           (typed "1/(2+0") (showError (str "Math error") (typed "1/(2+0"))
           (str "1/(2+") (str "0")); vm_compute; reflexivity.
Defined.

Lemma constant_replaces_trailing_number_witness :
  applySciFunction noMath 0 (str "pi") (typed "2*2")
  = Some (updateDisplay (setExpr (typed "2*2") (str "2*" ++ str "3.141592653589793")))
  /\ applySciFunction noMath 0 (str "e") (typed "2*2")
     = Some (updateDisplay (setExpr (typed "2*2") (str "2*" ++ str "2.718281828459045"))).
Proof.
  apply (constant_replaces_trailing_number noMath 0 (typed "2*2") (str "2*") (str "2")).
  vm_compute; reflexivity.
Defined.

Lemma factorial_exact_witness :
  applySciFunction noMath 21 (str "factorial") (typed "2*21")
  = Some (updateDisplay (setExpr (typed "2*21") (str "2*" ++ decimal (fact 21))))
  /\ str "2*" ++ decimal (fact 21) = str "2*51090942171709440000"
  /\ exactly (iterativeProduct (Z.of_nat 22)) (fact 22) = true.
Proof.
  split; [|split].
  - refine (proj1 (proj2 (factorial_exact noMath 21 21 _ _)) _ (typed "2*21") (str "2*") _);
      [lia | lia | lia | vm_compute; reflexivity].
  - vm_compute; reflexivity.
  - refine (proj2 (proj1 (factorial_exact noMath 22 22 _ _) _)); lia.
Defined.

End ApplicatorExamples.

(* ================================================================== *)
(** ** An integer result, used again *)
(* ================================================================== *)

Section Reuse.
Import JSString JSNumber Page TrailingFacts NumberFacts DecimalFacts.
Local Open Scope Z_scope.

Lemma sign_digits_number (neg : bool) (ds : jsstring) :
  forallb isDigit ds = true ->
  numberAtEnd ((if neg then [ch "-"] else []) ++ ds) = true.
Proof.
  intros Hd. destruct neg; cbn [app].
  - rewrite numberAtEnd_signed. now apply unsignedAtEnd_digits.
  - rewrite numberAtEnd_unsigned by (now apply digit_numChar).
    now apply unsignedAtEnd_digits.
Qed.

Lemma sign_digits_allowed (neg : bool) (ds : jsstring) (f : codeUnit -> bool) :
  (forall c, isDigit c = true -> f c = true) -> f (ch "-") = true ->
  forallb isDigit ds = true ->
  forallb f ((if neg then [ch "-"] else []) ++ ds) = true.
Proof.
  intros Hf Hm Hd. rewrite forallb_app.
  replace (forallb f ds) with true.
  - destruct neg; cbn [forallb]; now rewrite ?Hm.
  - symmetry. apply forallb_forall. intros c Hc.
    rewrite forallb_forall in Hd. auto.
Qed.

(** X16.  The text [calculate] stores for an integer result below 10^21
    in magnitude is the same on both pages; the trailing-number pattern
    takes all of it as the number, so that the editing keys and the
    scientific functions work on the whole result; it reads back as the
    result; and it passes the validation of the next [calculate]. *)
Theorem integer_result_is_reusable (neg : bool) (m e : Z) :
  canonical m e = true ->
  isInteger (Fin neg m e) = true ->
  ltb (Fin false m e) (ofZ (10 ^ 21)) = true ->
  Basic.formatResult (Fin neg m e) = Scientific.formatResult (Fin neg m e)
  /\ matchTrailing (Scientific.formatResult (Fin neg m e))
     = Some ([], Scientific.formatResult (Fin neg m e))
  /\ strictEq (parseFloat (Scientific.formatResult (Fin neg m e))) (Fin neg m e) = true
  /\ Scientific.allowedRE
       (Scientific.normalizeExpression (Scientific.formatResult (Fin neg m e))) = true
  /\ Basic.allowedRE (Basic.normalizeExpression (Basic.formatResult (Fin neg m e))) = true.
Proof.
  intros Hc Hi Hlt.
  destruct (toString_integer neg m e Hc Hi Hlt) as (ds & Hne & Hd & E).
  unfold Basic.formatResult, Scientific.formatResult. rewrite Hi.
  split; [reflexivity|]. split; [|split; [|split]].
  - rewrite E.
    apply (matchTrailing_first [] _ eq_refl (sign_digits_number _ ds Hd)).
    intros [|x q1] c q2 H; discriminate H.
  - apply parseFloat_toString; [exact Hc | reflexivity].
  - rewrite allowedRE_scientific, E.
    rewrite (sign_digits_allowed _ ds _); try exact Hd; try reflexivity.
    + destruct (neg && negb (m =? 0)), ds; try reflexivity. contradiction.
    + intros c H. unfold Scientific.allowedChar. now rewrite H.
  - rewrite allowedRE_basic, E.
    rewrite (sign_digits_allowed _ ds _); try exact Hd; try reflexivity.
    + destruct (neg && negb (m =? 0)), ds; try reflexivity. contradiction.
    + intros c H. unfold Basic.allowedChar. now rewrite H.
Qed.

Lemma integer_result_is_reusable_witness :
  matchTrailing (Scientific.formatResult (Fin true 8444249301319680 (-46)))
  = Some ([], Scientific.formatResult (Fin true 8444249301319680 (-46))).
Proof.
  exact (proj1 (proj2 (integer_result_is_reusable true 8444249301319680 (-46)
                         eq_refl eq_refl eq_refl))).
Defined.

End Reuse.

(* ================================================================== *)
(** ** Keys the keyboard listener does not know *)
(* ================================================================== *)

Section KeydownFacts.
Import JSString JSNumber Page Handlers.

Variable v : variant.
Variable hostEval : jsstring -> completion.

(** X17.  The keydown listener changes the page only when it prevents
    the default action of the key; and the event's code matters for the
    numpad's decimal key alone: with any other code, the listener does
    what it does for the key without a code (the digit test of the
    numpad branch is never reached with a digit). *)
Theorem keydown_code_and_default (e : keyboardEvent) (st : page) :
  (forall st', onKeydown v hostEval e st = Some (st', false) -> st' = st)
  /\ (streq (code e) (str "NumpadDecimal") = false ->
      onKeydown v hostEval e st = onKeydown v hostEval (mkKey (key e) []) st).
Proof.
  split.
  - intros st' H. now apply (proj2 (effect_onKeydown _ _ _ _ _ _ H)).
  - intros Hc. unfold onKeydown. cbn [key code truthy andb].
    destruct (streq (key e) (str "Enter")); [reflexivity|].
    destruct (streq (key e) (str "Backspace")); [reflexivity|].
    destruct (streq (key e) (str "Escape")); [reflexivity|].
    destruct (inherited (key e)); [reflexivity|].
    destruct (lookup (key e) (keyMap v)); [reflexivity|].
    destruct (isSingleDigit (key e)); [reflexivity|].
    rewrite Hc. destruct (truthy (code e) && startsWith (str "Numpad") (code e)); reflexivity.
Qed.

End KeydownFacts.

Section KeydownExamples.
Import JSString JSNumber Page Handlers.

Lemma keydown_code_and_default_witness :
  onKeydown ScientificPage digitsEval (mkKey (str "7") (str "Numpad7")) (typed "1+")
  = onKeydown ScientificPage digitsEval (mkKey (str "7") []) (typed "1+")
  /\ typed "1+" = typed "1+".
Proof.
  destruct (keydown_code_and_default ScientificPage digitsEval
              (mkKey (str "7") (str "Numpad7")) (typed "1+")) as [_ H2].
  destruct (keydown_code_and_default ScientificPage digitsEval
              (mkKey (str "a") (str "KeyA")) (typed "1+")) as [H1 _].
  split; [exact (H2 eq_refl) | exact (H1 (typed "1+") eq_refl)].
Defined.

End KeydownExamples.

(* ================================================================== *)
(** ** The reset after an error *)
(* ================================================================== *)

Section Reset.
Import JSString JSNumber Page Handlers.

Variable v : variant.
Variable hostEval : jsstring -> completion.
Variable M : Scientific.MathHost.
Variable fuel : nat.

Definition isReset (ev : event) : bool :=
  match ev with
  | ResetTimer => true
  | _ => false
  end.

Lemma timers_effect (st st' : page) : effect st st' -> (timers st <= timers st')%nat.
Proof. intros E. destruct E; cbn [timers showError]; lia. Qed.

Lemma timers_run (evs : list event) :
  forall st t st' t',
    forallb (fun ev => negb (isReset ev)) evs = true ->
    run v hostEval M fuel evs (st, t) = Some (st', t') ->
    (timers st <= timers st')%nat.
Proof.
  induction evs as [|ev rest IH]; intros st t st' t'; cbn [run forallb].
  - intros _ [= <- <-]. lia.
  - intros H. apply andb_true_iff in H as [Hev Hr]. apply negb_true_iff in Hev.
    destruct (step v hostEval M fuel ev (st, t)) as [[s1 t1]|] eqn:E; [|discriminate].
    intros R. specialize (IH _ _ _ _ Hr R).
    destruct (step_cases _ _ _ _ _ _ _ _ _ E) as [[F _] | [(-> & _) | (_ & _ & F)]].
    + apply timers_effect in F. lia.
    + discriminate Hev.
    + cbn [onDegToggleClick] in F. injection F as -> _. cbn [setAngleMode timers] in IH. lia.
Qed.

(** X18.  The reset scheduled by an error stays pending whatever is
    clicked or typed before it runs, and when it runs it empties the
    expression: what was typed after the error is lost with it. *)
Theorem pending_reset_clears_input
    (evs : list event) (msg : jsstring) (st : page) (t : toggle) (st' : page) (t' : toggle) :
  forallb (fun ev => negb (isReset ev)) evs = true ->
  run v hostEval M fuel evs (showError msg st, t) = Some (st', t') ->
  (1 <= timers st')%nat
  /\ step v hostEval M fuel ResetTimer (st', t')
     = Some (mkPage [] [ch "0"] false (pred (timers st')) (angleMode st'), t').
Proof.
  intros He H. pose proof (timers_run evs _ _ _ _ He H) as T.
  cbn [showError timers] in T. split; [lia|].
  cbn [step]. unfold resetAfterError, updateDisplay, setText. cbn [expr truthy timers angleMode].
  destruct (timers st'); [lia | reflexivity].
Qed.

End Reset.

Section ResetExamples.
Import JSString JSNumber Page Handlers.

Lemma pending_reset_clears_input_witness :
  step BasicPage digitsEval noMath 0 ResetTimer
    (mkPage (str "2^12") (str "2^12") true 1 (str "deg"), mkToggle None [] [])
  = Some (mkPage [] [ch "0"] false 0 (str "deg"), mkToggle None [] []).
Proof.
  refine (proj2 (pending_reset_clears_input BasicPage digitsEval noMath 0
                   [Keydown (mkKey (str "1") []); Keydown (mkKey (str "2") [])]
                   (str "Invalid characters") (typed "2^") (mkToggle None [] [])
                   (mkPage (str "2^12") (str "2^12") true 1 (str "deg")) (mkToggle None [] [])
                   _ _)); vm_compute; reflexivity.
Defined.

End ResetExamples.

(* ================================================================== *)
(** ** The trailing token *)
(* ================================================================== *)

Section TrailingToken.
Import JSString JSNumber Page TrailingFacts DecimalFacts.

Lemma lazyPrefix_minimal (s : jsstring) :
  forall p l, lazyPrefix s = Some (p, l) ->
    forall q c r, p = q ++ c :: r -> numberAtEnd (c :: r ++ l) = false.
Proof.
  induction s as [|x s IH]; intros p l; rewrite lazyPrefix_eq.
  - destruct (numberAtEnd []); [|discriminate].
    intros [= <- <-] [|y q] c r E; discriminate E.
  - destruct (numberAtEnd (x :: s)) eqn:N.
    + intros [= <- <-] [|y q] c r E; discriminate E.
    + destruct (isLineTerminator x); [discriminate|].
      destruct (lazyPrefix s) as [[p' l']|] eqn:L; [|discriminate].
      intros [= <- <-] q c r E.
      destruct (lazyPrefix_number _ _ _ L) as [_ Es].
      destruct q as [|y q]; cbn [app] in E; injection E as <- E.
      * subst p'. now rewrite <- Es.
      * now apply (IH p' l' eq_refl q c r).
Qed.

(** X19.  The match of the trailing-number pattern never fails (the
    null test after it is dead code), and its second capture is the
    longest suffix of the expression's last line that is an optional
    minus, digits, an optional dot, digits: no longer suffix of that line
    has this form. *)
Theorem trailing_token_is_longest (s : jsstring) :
  exists p l,
    matchTrailing s = Some (p, l)
    /\ lastLine s = p ++ l
    /\ numberAtEnd l = true
    /\ forall q c r, p = q ++ c :: r -> numberAtEnd (c :: r ++ l) = false.
Proof.
  destruct (matchTrailing_total s) as (p & l & Hm & E & N).
  exists p, l. repeat split; try assumption.
  rewrite matchTrailing_lastLine in Hm. now apply (lazyPrefix_minimal _ _ _ Hm).
Qed.

Lemma digits_exist (ds : jsstring) :
  forallb isDigit ds = true -> existsb isDigit ds = truthy ds.
Proof.
  destruct ds as [|c r]; [reflexivity|]. cbn [forallb existsb truthy].
  intros H. apply andb_true_iff in H as [-> _]. reflexivity.
Qed.

Lemma digits_literal (neg : bool) (ds : jsstring) :
  forallb isDigit ds = true ->
  isNaN (strUnsignedDecimalLiteral neg ds) = negb (truthy ds).
Proof.
  intros Hd. destruct ds as [|c r]; [reflexivity|].
  rewrite literal_digits by (try exact Hd; discriminate). apply roundQ_number.
Qed.

Lemma dotted_literal (neg : bool) (d1 d2 : jsstring) :
  forallb isDigit d1 = true -> forallb isDigit d2 = true ->
  isNaN (strUnsignedDecimalLiteral neg (d1 ++ ch "." :: d2)) = negb (truthy (d1 ++ d2)).
Proof.
  intros H1 H2. unfold strUnsignedDecimalLiteral.
  assert (I : startsWith (str "Infinity") (d1 ++ ch "." :: d2) = false).
  { destruct d1 as [|c r]; [reflexivity|]. cbn [app]. apply digit_not_I.
    cbn [forallb] in H1. now apply andb_true_iff in H1. }
  rewrite I, (takeDigits_app d1 (ch "." :: d2) H1 eq_refl), N.eqb_refl.
  rewrite (takeDigits_all d2 H2).
  destruct (d1 ++ d2); [reflexivity | apply roundQ_number].
Qed.

Lemma unsigned_parse (neg : bool) (d1 dt d2 : jsstring) :
  forallb isDigit d1 = true -> dt = [] \/ dt = [ch "."] -> forallb isDigit d2 = true ->
  isNaN (strUnsignedDecimalLiteral neg (d1 ++ dt ++ d2))
  = negb (existsb isDigit (d1 ++ dt ++ d2)).
Proof.
  intros H1 Ht H2. destruct Ht as [-> | ->]; cbn [app].
  - assert (H : forallb isDigit (d1 ++ d2) = true) by (now rewrite forallb_app, H1, H2).
    now rewrite digits_literal, digits_exist.
  - rewrite dotted_literal by assumption.
    rewrite existsb_app. cbn [existsb]. replace (isDigit (ch ".")) with false by reflexivity.
    cbn [orb]. rewrite <- existsb_app. f_equal. symmetry. apply digits_exist.
    now rewrite forallb_app, H1, H2.
Qed.

Lemma unsigned_head (d1 dt d2 : jsstring) (c : codeUnit) (r : jsstring) :
  forallb isDigit d1 = true -> dt = [] \/ dt = [ch "."] -> forallb isDigit d2 = true ->
  d1 ++ dt ++ d2 = c :: r -> isNumChar c = true.
Proof.
  intros H1 Ht H2 E.
  assert (F : forallb isNumChar (d1 ++ dt ++ d2) = true).
  { rewrite !forallb_app, (digit_numChar d1 H1), (digit_numChar d2 H2).
    destruct Ht as [-> | ->]; reflexivity. }
  rewrite E in F. cbn [forallb] in F. now apply andb_true_iff in F.
Qed.

Lemma numChar_plain (c : codeUnit) :
  isNumChar c = true ->
  isWhiteSpace c = false /\ (c =? ch "-")%N = false /\ (c =? ch "+")%N = false.
Proof.
  unfold isNumChar. intros H. apply orb_true_iff in H as [H|H].
  - split; [now apply digit_not_space|].
    split; [destruct (N.eqb_spec c (ch "-")) as [->|] | destruct (N.eqb_spec c (ch "+")) as [->|]];
      try reflexivity; discriminate H.
  - apply N.eqb_eq in H. subst c. repeat split.
Qed.

(** X20.  The trailing token parses as a number exactly when it has a
    digit: of the tokens the pattern can capture only the empty one, a
    bare minus, a bare dot and a minus with a dot make [percentLastNumber]
    and the scientific functions return without effect. *)
Theorem trailing_token_parses (s p l : jsstring) :
  matchTrailing s = Some (p, l) ->
  isNaN (parseFloat l) = negb (existsb isDigit l)
  /\ (existsb isDigit l = false ->
      l = [] \/ l = [ch "-"] \/ l = [ch "."] \/ l = [ch "-"; ch "."]).
Proof.
  intros Hm. destruct (matchTrailing_number _ _ _ Hm) as [N _].
  apply numberAtEnd_language in N as (sg & d1 & dt & d2 & -> & Hsg & H1 & Ht & H2).
  split.
  - destruct Hsg as [-> | ->]; cbn [app].
    + destruct (d1 ++ dt ++ d2) as [|c r] eqn:E; [reflexivity|].
      destruct (numChar_plain c (unsigned_head _ _ _ _ _ H1 Ht H2 E)) as (W & Mi & Pl).
      unfold parseFloat. cbn [trimStart]. rewrite W, Mi, Pl, <- E.
      now apply unsigned_parse.
    + unfold parseFloat. cbn [trimStart existsb].
      replace (isWhiteSpace (ch "-")) with false by reflexivity.
      rewrite N.eqb_refl.
      replace (isDigit (ch "-")) with false by reflexivity. cbn [orb].
      now apply unsigned_parse.
  - intros Hx. rewrite !existsb_app in Hx.
    apply orb_false_iff in Hx as [_ Hx]. apply orb_false_iff in Hx as [X1 Hx].
    apply orb_false_iff in Hx as [_ X2].
    rewrite (digits_exist d1 H1) in X1. rewrite (digits_exist d2 H2) in X2.
    destruct d1; [|discriminate X1]. destruct d2; [|discriminate X2].
    destruct Hsg as [-> | ->], Ht as [-> | ->]; cbn [app]; auto.
Qed.

Lemma trailing_token_parses_witness :
  isNaN (parseFloat (str "-.")) = negb (existsb isDigit (str "-."))
  /\ isNaN (parseFloat (str ".5")) = negb (existsb isDigit (str ".5")).
Proof.
  split.
  - exact (proj1 (trailing_token_parses (str "2*(-.") (str "2*(") (str "-.") eq_refl)).
  - exact (proj1 (trailing_token_parses (str "2+.5") (str "2+") (str ".5") eq_refl)).
Defined.

End TrailingToken.
